(** * Open-addressing hash table of lab_05

    Shallow embedding of
    [src/lab_05/src/modules/hash_table_open_addressing.py]
    (class [OpenAddressingHashTable]) and of [simple_hash] / [djb2] from
    [src/lab_05/src/modules/hash_functions.py], followed by the properties
    the specification states about them.

    Modelling conventions.
    - Python [int] is [Z]; [%] on a non-zero divisor is [Z.modulo] (both
      are floor-modulo, the result takes the sign of the divisor); a zero
      divisor raises [ZeroDivisionError].
    - [str] is [string]; [ord] of a character is its code.
    - A cell of [_keys] is [None], the sentinel [_DELETED] or a [str]:
      [key_slot].  A cell of [_values] is any Python value: [pyval].
    - [list] indexing follows Python: negative indices count from the end,
      anything outside [-len, len) raises [IndexError].
    - [load_factor] is a Python float; it is modelled by the exact rational
      [_size / _capacity] and the threshold by a rational.  For the
      threshold literal [0.6] and capacities below 2^50 the floating-point
      comparison and the rational one agree.
    - The probe generator never stops ([while True]); the [for] loops over
      it are modelled with a fuel argument.  [OutOfFuel] means that the loop
      has not returned after that many iterations; an operation that
      answers [OutOfFuel] for every amount of fuel does not terminate.
    - The built-in [hash] of the interpreter is a parameter [hash] of every
      definition that reaches it. *)

From Stdlib Require Import ZArith Lia Znumtheory Ascii String.
From Stdlib Require QArith.
From stdpp Require Import base relations list strings.

Local Open Scope Z_scope.

(** ** Results of running Python code *)

Inductive exn := IndexError | ZeroDivisionError | AssertionError.

Inductive result (A : Type) :=
| Ret (a : A)
| Raise (e : exn)
| OutOfFuel.

Arguments Ret {A} a.
Arguments Raise {A} e.
Arguments OutOfFuel {A}.

Definition bind {A B : Type} (m : result A) (k : A → result B) : result B :=
  match m with
  | Ret a => k a
  | Raise e => Raise e
  | OutOfFuel => OutOfFuel
  end.

Notation "x <- m ;; k" := (bind m (fun x => k))
  (at level 100, m at next level, right associativity).

(** ** Python lists *)

Definition py_index {A : Type} (l : list A) (i : Z) : option nat :=
  let n := Z.of_nat (length l) in
  let j := if i <? 0 then i + n else i in
  if (0 <=? j) && (j <? n) then Some (Z.to_nat j) else None.

(** [l[i]] *)
Definition py_getitem {A : Type} (l : list A) (i : Z) : result A :=
  match py_index l i with
  | Some j => match l !! j with Some x => Ret x | None => Raise IndexError end
  | None => Raise IndexError
  end.

(** [l[i] = x] *)
Definition py_setitem {A : Type} (l : list A) (i : Z) (x : A) : result (list A) :=
  match py_index l i with
  | Some j => Ret (<[j := x]> l)
  | None => Raise IndexError
  end.

(** ** hash_functions.py *)

Definition ord (ch : ascii) : Z := Z.of_nat (nat_of_ascii ch).

Fixpoint str_fold (f : Z → ascii → Z) (s : string) (h : Z) : Z :=
  match s with
  | EmptyString => h
  | String ch s' => str_fold f s' (f h ch)
  end.

Definition simple_hash (s : string) : Z :=
  Z.land (str_fold (fun h ch => h + ord ch) s 0) 0x7FFFFFFF.

Definition djb2 (s : string) : Z :=
  Z.land (str_fold (fun h ch => h * 33 + ord ch) s 5381) 0x7FFFFFFF.

(** ** The table *)

Inductive pyval :=
| VNone
| VInt (n : Z)
| VStr (s : string).

Inductive key_slot :=
| KNone
| KDeleted
| KStr (s : string).

(** [isinstance(k, str)] *)
Definition is_str (k : key_slot) : bool :=
  match k with KStr _ => true | _ => false end.

(** [_second_hash] is either the function given to the constructor or the
    lambda [lambda s: 1 + (hash(s) % (self._capacity - 1))], which closes
    over [self] and reads [_capacity] when it is called. *)
Inductive second_hash_fn :=
| SecondGiven (f : string → Z)
| SecondDefault.

Record table := {
  _capacity : Z;
  _keys : list key_slot;
  _values : list pyval;
  _size : Z;
  _hash_func : string → Z;
  _second_hash : second_hash_fn;
  _mode : string;
  _load_factor_threshold : QArith_base.Q;
  collisions : Z;
}.

Definition set_collisions (t : table) (c : Z) : table :=
  {| _capacity := _capacity t; _keys := _keys t; _values := _values t;
     _size := _size t; _hash_func := _hash_func t;
     _second_hash := _second_hash t; _mode := _mode t;
     _load_factor_threshold := _load_factor_threshold t; collisions := c |}.

Definition set_values (t : table) (vs : list pyval) : table :=
  {| _capacity := _capacity t; _keys := _keys t; _values := vs;
     _size := _size t; _hash_func := _hash_func t;
     _second_hash := _second_hash t; _mode := _mode t;
     _load_factor_threshold := _load_factor_threshold t;
     collisions := collisions t |}.

(** Writes of a whole slot: [_keys], [_values] and [_size] together. *)
Definition set_slots (t : table) (ks : list key_slot) (vs : list pyval)
    (sz : Z) : table :=
  {| _capacity := _capacity t; _keys := ks; _values := vs;
     _size := sz; _hash_func := _hash_func t;
     _second_hash := _second_hash t; _mode := _mode t;
     _load_factor_threshold := _load_factor_threshold t;
     collisions := collisions t |}.

(** The reallocation at the start of [_rehash]. *)
Definition reallocate (t : table) (cap : Z) : table :=
  {| _capacity := cap;
     _keys := replicate (Z.to_nat cap) KNone;
     _values := replicate (Z.to_nat cap) VNone;
     _size := 0; _hash_func := _hash_func t;
     _second_hash := _second_hash t; _mode := _mode t;
     _load_factor_threshold := _load_factor_threshold t;
     collisions := collisions t |}.

Definition DEFAULT_INITIAL_CAPACITY : Z := 53.
Definition DEFAULT_LOAD_FACTOR_THRESHOLD : QArith_base.Q :=
  QArith_base.Qmake 6 10.

(** [a % b] *)
Definition py_mod (a b : Z) : result Z :=
  if b =? 0 then Raise ZeroDivisionError else Ret (a mod b).

(** [size()], [capacity()], [load_factor()] *)
Definition size (t : table) : Z := _size t.
Definition capacity (t : table) : Z := _capacity t.

Definition load_factor (t : table) : result QArith_base.Q :=
  if _capacity t =? 0 then Raise ZeroDivisionError
  else Ret (QArith_base.Qdiv (QArith_base.inject_Z (_size t))
                             (QArith_base.inject_Z (_capacity t))).

(** One iteration of the body of the three [for idx in ...] loops is
    written once per loop below; each loop takes the generator as the
    function from the iteration number to the index it yields. *)

Fixpoint get_loop (fuel : nat) (seq : nat → Z) (t : table) (key : string)
    (i : nat) : result pyval :=
  match fuel with
  | O => OutOfFuel
  | S fuel' =>
      let idx := seq i in
      k <- py_getitem (_keys t) idx ;;
      match k with
      | KNone => Ret VNone
      | KDeleted => get_loop fuel' seq t key (S i)
      | KStr s =>
          if String.eqb s key then py_getitem (_values t) idx
          else get_loop fuel' seq t key (S i)
      end
  end.

Fixpoint remove_loop (fuel : nat) (seq : nat → Z) (t : table) (key : string)
    (i : nat) : result (bool * table) :=
  match fuel with
  | O => OutOfFuel
  | S fuel' =>
      let idx := seq i in
      k <- py_getitem (_keys t) idx ;;
      match k with
      | KNone => Ret (false, t)
      | KDeleted => remove_loop fuel' seq t key (S i)
      | KStr s =>
          if String.eqb s key then
            ks <- py_setitem (_keys t) idx KDeleted ;;
            vs <- py_setitem (_values t) idx VNone ;;
            Ret (true, set_slots t ks vs (_size t - 1))
          else remove_loop fuel' seq t key (S i)
      end
  end.

Fixpoint insert_loop (fuel : nat) (seq : nat → Z) (t : table) (key : string)
    (value : pyval) (first_del : option Z) (i : nat) : result table :=
  match fuel with
  | O => OutOfFuel
  | S fuel' =>
      let idx := seq i in
      k <- py_getitem (_keys t) idx ;;
      match k with
      | KNone =>
          let target_idx :=
            match first_del with Some d => d | None => idx end in
          ks <- py_setitem (_keys t) target_idx (KStr key) ;;
          vs <- py_setitem (_values t) target_idx value ;;
          let t' := set_slots t ks vs (_size t + 1) in
          Ret (if target_idx =? idx then t'
               else set_collisions t' (collisions t' + 1))
      | KDeleted =>
          let first_del' :=
            match first_del with Some d => Some d | None => Some idx end in
          insert_loop fuel' seq t key value first_del' (S i)
      | KStr s =>
          if String.eqb s key then
            vs <- py_setitem (_values t) idx value ;;
            Ret (set_values t vs)
          else
            insert_loop fuel' seq (set_collisions t (collisions t + 1))
                        key value first_del (S i)
      end
  end.

(** [old_items] of [_rehash]: the pairs of [zip(_keys, _values)] whose key
    is a [str]. *)
Definition item_of (kv : key_slot * pyval) : option (string * pyval) :=
  match fst kv with
  | KStr s => Some (s, snd kv)
  | _ => None
  end.

Definition old_items (t : table) : list (string * pyval) :=
  omap item_of (zip (_keys t) (_values t)).

(** [for k, v in old_items: ins(k, v)] *)
Fixpoint insert_all (ins : table → string → pyval → result table)
    (items : list (string * pyval)) (t : table) : result table :=
  match items with
  | [] => Ret t
  | (k, v) :: rest => t' <- ins t k v ;; insert_all ins rest t'
  end.

(** The body of [_rehash], with the [insert] it calls as a parameter. *)
Definition rehash_with (ins : table → string → pyval → result table)
    (t : table) (new_capacity : Z) : result table :=
  let items := old_items t in
  insert_all ins items (reallocate t (Z.max 3 new_capacity)).

Section Interpreter.

(** The built-in [hash] on [str]. *)
Variable hash : string → Z.

(** [self._second_hash(key)] *)
Definition second_hash_call (t : table) (key : string) : result Z :=
  match _second_hash t with
  | SecondGiven f => Ret (f key)
  | SecondDefault =>
      r <- py_mod (hash key) (_capacity t - 1) ;; Ret (1 + r)
  end.

(** The step of double hashing, as [_probe_sequence] computes it:
    [step = self._second_hash(key) % self._capacity], and 1 instead of 0. *)
Definition probe_step (t : table) (key : string) : result Z :=
  s <- second_hash_call t key ;;
  step <- py_mod s (_capacity t) ;;
  Ret (if step =? 0 then 1 else step).

(** [_probe_sequence]: the generator, as the function giving the index
    yielded at iteration [i]. *)
Definition _probe_sequence (t : table) (key : string)
    : result (nat → Z) :=
  h1 <- py_mod (_hash_func t key) (_capacity t) ;;
  if String.eqb (_mode t) "linear" then
    Ret (fun i => (h1 + Z.of_nat i) mod _capacity t)
  else
    step <- probe_step t key ;;
    Ret (fun i => (h1 + Z.of_nat i * step) mod _capacity t).

Definition get (fuel : nat) (t : table) (key : string) : result pyval :=
  seq <- _probe_sequence t key ;;
  get_loop fuel seq t key 0%nat.

Definition remove (fuel : nat) (t : table) (key : string)
    : result (bool * table) :=
  seq <- _probe_sequence t key ;;
  remove_loop fuel seq t key 0%nat.

(** [get(key) is not None] *)
Definition contains (fuel : nat) (t : table) (key : string)
    : result bool :=
  v <- get fuel t key ;;
  Ret (match v with VNone => false | _ => true end).

(** [insert] and [_rehash] call each other; the fuel bounds the depth of
    that nesting as well as the length of each probe walk. *)
Fixpoint insert (fuel : nat) (t : table) (key : string) (value : pyval)
    : result table :=
  match fuel with
  | O => OutOfFuel
  | S fuel' =>
      lf <- load_factor t ;;
      t1 <- (if QArith_base.Qle_bool (_load_factor_threshold t) lf
             then rehash_with (insert fuel') t (_capacity t * 2 + 1)
             else Ret t) ;;
      seq <- _probe_sequence t1 key ;;
      insert_loop fuel seq t1 key value None 0%nat
  end.

Definition _rehash (fuel : nat) (t : table) (new_capacity : Z)
    : result table :=
  rehash_with (insert fuel) t new_capacity.

(** The constructor; [None] for an argument that is left out or given as
    [None]. *)
Definition __init__ (capacity : Z) (hash_func : option (string → Z))
    (second_hash_func : option (string → Z)) (mode : string)
    (load_factor_threshold : QArith_base.Q) : result table :=
  if String.eqb mode "linear" || String.eqb mode "double" then
    let cap := Z.max 3 capacity in
    Ret {| _capacity := cap;
           _keys := replicate (Z.to_nat cap) KNone;
           _values := replicate (Z.to_nat cap) VNone;
           _size := 0;
           _hash_func := match hash_func with Some f => f | None => hash end;
           _second_hash := match second_hash_func with
                           | Some f => SecondGiven f
                           | None => SecondDefault
                           end;
           _mode := mode;
           _load_factor_threshold := load_factor_threshold;
           collisions := 0 |}
  else Raise AssertionError.

End Interpreter.

(** ** Predicates used to state the properties *)

(** The class invariant on the two arrays: the constructor and [_rehash]
    allocate both with [_capacity] cells, and [_capacity] is at least 3. *)
Definition wf (t : table) : Prop :=
  3 ≤ _capacity t ∧
  length (_keys t) = Z.to_nat (_capacity t) ∧
  length (_values t) = Z.to_nat (_capacity t).

(** Number of cells of [_keys] that hold a real key. *)
Fixpoint occupied (ks : list key_slot) : Z :=
  match ks with
  | [] => 0
  | k :: ks' => (if is_str k then 1 else 0) + occupied ks'
  end.

(** A probed cell that the three loops step over when looking for [key]:
    a tombstone or another key. *)
Definition skippable (ks : list key_slot) (idx : Z) (key : string) : Prop :=
  py_getitem ks idx = Ret KDeleted ∨
  ∃ s, py_getitem ks idx = Ret (KStr s) ∧ s ≠ key.

(** The fields no operation but the constructor writes. *)
Definition same_funcs (t t' : table) : Prop :=
  _hash_func t' = _hash_func t ∧ _second_hash t' = _second_hash t ∧
  _mode t' = _mode t ∧ _load_factor_threshold t' = _load_factor_threshold t.

(** A probe generator whose indices all lie inside an array of [n] cells. *)
Definition in_range (seq : nat → Z) (n : Z) : Prop := ∀ i, 0 ≤ seq i < n.

(** ** Scenarios *)

Section Scenarios.

Variable hash : string → Z.

(** capacity=7, mode=linear, hash = sum of the character codes: insert
    ("a",1) and ("h",2), look both up, remove "a", look both up again.
    The answer collects what the scenario observes: the cell at index 0
    after the two inserts, [collisions], the two [get]s, the result of
    [remove], the two [get]s after it and the cell at index 6. *)
Definition scenario_cap7 :
    result (option key_slot * Z * pyval * pyval * bool * pyval * pyval
            * option key_slot) :=
  t <- __init__ hash 7 (Some simple_hash) None "linear"
         DEFAULT_LOAD_FACTOR_THRESHOLD ;;
  t <- insert hash 7 t "a" (VInt 1) ;;
  t <- insert hash 7 t "h" (VInt 2) ;;
  a <- get hash 7 t "a" ;;
  h <- get hash 7 t "h" ;;
  r <- remove hash 7 t "a" ;;
  a' <- get hash 7 (snd r) "a" ;;
  h' <- get hash 7 (snd r) "h" ;;
  Ret (_keys t !! 0%nat, collisions t, a, h, fst r, a', h',
       _keys (snd r) !! 6%nat).

(** capacity=3, mode=linear: three keys with three different home cells
    are inserted and removed one after the other, which leaves a tombstone
    in every cell. *)
Definition tombstone_saturated : result table :=
  t <- __init__ hash 3 (Some simple_hash) None "linear"
         DEFAULT_LOAD_FACTOR_THRESHOLD ;;
  t <- insert hash 3 t "a" (VInt 1) ;;
  r <- remove hash 3 t "a" ;;
  t <- insert hash 3 (snd r) "b" (VInt 2) ;;
  r <- remove hash 3 t "b" ;;
  t <- insert hash 3 (snd r) "c" (VInt 3) ;;
  r <- remove hash 3 t "c" ;;
  Ret (snd r).

End Scenarios.

(** The table [tombstone_saturated] ends in. *)
Definition saturated_table : table :=
  {| _capacity := 3;
     _keys := [KDeleted; KDeleted; KDeleted];
     _values := [VNone; VNone; VNone];
     _size := 0;
     _hash_func := simple_hash;
     _second_hash := SecondDefault;
     _mode := "linear";
     _load_factor_threshold := DEFAULT_LOAD_FACTOR_THRESHOLD;
     collisions := 0 |}.

(** ** Reachable states *)

(** One call of [insert], [remove] or [_rehash] that returns. *)
Inductive op_step (hash : string → Z) : table → table → Prop :=
| step_insert fuel t key value t' :
    insert hash fuel t key value = Ret t' → op_step hash t t'
| step_remove fuel t key b t' :
    remove hash fuel t key = Ret (b, t') → op_step hash t t'
| step_rehash fuel t new_capacity t' :
    _rehash hash fuel t new_capacity = Ret t' → op_step hash t t'.

(** The states a table goes through after the constructor has returned
    [t0]. *)
Definition reachable_from (hash : string → Z) (t0 t : table) : Prop :=
  rtc (op_step hash) t0 t.

Definition reachable (hash : string → Z) (t : table) : Prop :=
  ∃ capacity hash_func second_hash_func mode threshold t0,
    __init__ hash capacity hash_func second_hash_func mode threshold = Ret t0 ∧
    reachable_from hash t0 t.

(** ** Where a probe walk ends *)

(** The walk for [key] steps over the probes before the [i]-th one. *)
Definition skips_before (ks : list key_slot) (seq : nat → Z) (key : string)
    (i : nat) : Prop :=
  ∀ m, (m < i)%nat → skippable ks (seq m) key.

(** ... and finds [key] at the [i]-th probe. *)
Definition finds_at (ks : list key_slot) (seq : nat → Z) (key : string)
    (i : nat) : Prop :=
  skips_before ks seq key i ∧ py_getitem ks (seq i) = Ret (KStr key).

(** ... and meets a [None] cell at the [i]-th probe. *)
Definition misses_at (ks : list key_slot) (seq : nat → Z) (key : string)
    (i : nat) : Prop :=
  skips_before ks seq key i ∧ py_getitem ks (seq i) = Ret KNone.

(** The facts about one run of a loop that do not depend on where the walk
    ends. *)
Record loop_frame (t t' : table) : Prop := {
  frame_capacity : _capacity t' = _capacity t;
  frame_funcs : same_funcs t t';
  frame_keys_length : length (_keys t') = length (_keys t);
  frame_values_length : length (_values t') = length (_values t);
  frame_collisions : collisions t ≤ collisions t';
  frame_size :
    _size t' - occupied (_keys t') = _size t - occupied (_keys t);
}.

(** Well-formed, with a size counter that counts the real keys. *)
Definition counted (t : table) : Prop :=
  wf t ∧ _size t = occupied (_keys t).

(** The probes before the [m]-th one all hold other keys. *)
Definition others_before (ks : list key_slot) (seq : nat → Z) (key : string)
    (m : nat) : Prop :=
  ∀ m', (m' < m)%nat → ∃ s, py_getitem ks (seq m') = Ret (KStr s) ∧ s ≠ key.

(** The probe [m] at which a new key is written when the walk meets [None]
    at probe [i]: the first tombstone on the way, or [i] itself. *)
Definition landing (ks : list key_slot) (seq : nat → Z) (key : string)
    (i m : nat) : Prop :=
  (m ≤ i)%nat ∧ others_before ks seq key m ∧
  ((m < i)%nat → py_getitem ks (seq m) = Ret KDeleted).

(** [insert] found [key] at probe [i] and replaced its value. *)
Definition updates_at (seq : nat → Z) (key : string) (v : pyval)
    (t t' : table) (i : nat) : Prop :=
  finds_at (_keys t) seq key i ∧
  _keys t' = _keys t ∧
  py_setitem (_values t) (seq i) v = Ret (_values t') ∧
  _size t' = _size t.

(** [insert] met [None] at probe [i] and wrote the new key at probe [m]. *)
Definition lands_new (seq : nat → Z) (key : string) (v : pyval)
    (t t' : table) (i m : nat) : Prop :=
  misses_at (_keys t) seq key i ∧
  landing (_keys t) seq key i m ∧
  py_setitem (_keys t) (seq m) (KStr key) = Ret (_keys t') ∧
  py_setitem (_values t) (seq m) v = Ret (_values t') ∧
  _size t' = _size t + 1.

(** What [insert_loop] knows when it is at probe [i0] with [first_del]. *)
Definition walk_state (ks : list key_slot) (seq : nat → Z) (key : string)
    (first_del : option Z) (i0 : nat) : Prop :=
  match first_del with
  | None => others_before ks seq key i0
  | Some d =>
      ∃ m, (m < i0)%nat ∧ d = seq m ∧ py_getitem ks d = Ret KDeleted ∧
           others_before ks seq key m ∧ skips_before ks seq key i0
  end.

(** One interpreter for the closed examples: its built-in [hash] on [str]
    is taken to be DJB2.  (CPython's is keyed by a seed drawn when the
    process starts.)  Tables that are given a [hash_func] and probe
    linearly never call it. *)
Definition builtin_hash0 : string → Z := djb2.

(** capacity=7, mode=linear: "a" is inserted and removed, which leaves a
    tombstone in its cell, index 6; then "h", whose first probe is that
    cell, is inserted.  The answer collects the cell at index 6, [size()]
    and [collisions] before the second insert, the first probe index of
    "h", and the same cell and counters after it. *)
Definition scenario_tombstone_reuse (hash : string → Z) :
    result (option key_slot * Z * Z * Z * option key_slot * Z * Z) :=
  t <- __init__ hash 7 (Some simple_hash) None "linear"
         DEFAULT_LOAD_FACTOR_THRESHOLD ;;
  t <- insert hash 7 t "a" (VInt 1) ;;
  r <- remove hash 7 t "a" ;;
  seq <- _probe_sequence hash (snd r) "h" ;;
  t' <- insert hash 7 (snd r) "h" (VInt 2) ;;
  Ret (_keys (snd r) !! 6%nat, size (snd r), collisions (snd r), seq 0%nat,
       _keys t' !! 6%nat, size t', collisions t').

(** capacity=7, mode=double, [hash_func=simple_hash] and no
    [second_hash_func]: the step of "a", next to the step that the primary
    hash would give. *)
Definition scenario_default_step (hash : string → Z) : result (Z * Z) :=
  t <- __init__ hash 7 (Some simple_hash) None "double"
         DEFAULT_LOAD_FACTOR_THRESHOLD ;;
  step <- probe_step hash t "a" ;;
  Ret (step, 1 + _hash_func t "a" mod (capacity t - 1)).

(** capacity=7, [hash_func=simple_hash], [second_hash_func=djb2] and the
    default threshold, in either mode: five keys are inserted. *)
Definition five_inserts (hash : string → Z) (mode : string) : result table :=
  t <- __init__ hash 7 (Some simple_hash) (Some djb2) mode
         DEFAULT_LOAD_FACTOR_THRESHOLD ;;
  t <- insert hash 7 t "a" (VInt 0) ;;
  t <- insert hash 7 t "u" (VInt 1) ;;
  t <- insert hash 7 t "z" (VInt 2) ;;
  t <- insert hash 7 t "j" (VInt 3) ;;
  t <- insert hash 7 t "l" (VInt 4) ;;
  Ret t.

(** The table [five_inserts] ends in; the cells are the same in both
    modes. *)
Definition five_keys_table (mode : string) : table :=
  {| _capacity := 7;
     _keys := [KNone; KStr "j"; KNone; KStr "z"; KStr "l"; KStr "u"; KStr "a"];
     _values := [VNone; VInt 3; VNone; VInt 2; VInt 4; VInt 1; VInt 0];
     _size := 5;
     _hash_func := simple_hash;
     _second_hash := SecondGiven djb2;
     _mode := mode;
     _load_factor_threshold := DEFAULT_LOAD_FACTOR_THRESHOLD;
     collisions := 1 |}.

(** The table [_rehash(15)] makes of it in double mode. *)
Definition rehashed_double : table :=
  {| _capacity := 15;
     _keys := [KNone; KStr "j"; KStr "z"; KStr "l"; KNone; KNone; KNone;
               KStr "a"; KNone; KNone; KNone; KNone; KStr "u"; KNone; KNone];
     _values := [VNone; VInt 3; VInt 2; VInt 4; VNone; VNone; VNone;
                 VInt 0; VNone; VNone; VNone; VNone; VInt 1; VNone; VNone];
     _size := 5;
     _hash_func := simple_hash;
     _second_hash := SecondGiven djb2;
     _mode := "double";
     _load_factor_threshold := DEFAULT_LOAD_FACTOR_THRESHOLD;
     collisions := 1 |}.

(** The table the insert of "p" makes of it in linear mode. *)
Definition six_keys_linear : table :=
  {| _capacity := 15;
     _keys := [KNone; KStr "j"; KStr "z"; KStr "l"; KNone; KNone; KNone;
               KStr "a"; KStr "p"; KNone; KNone; KNone; KStr "u"; KNone;
               KNone];
     _values := [VNone; VInt 3; VInt 2; VInt 4; VNone; VNone; VNone;
                 VInt 0; VInt 5; VNone; VNone; VNone; VInt 1; VNone; VNone];
     _size := 6;
     _hash_func := simple_hash;
     _second_hash := SecondGiven djb2;
     _mode := "linear";
     _load_factor_threshold := DEFAULT_LOAD_FACTOR_THRESHOLD;
     collisions := 2 |}.

(** ** The table as a map *)

(** The generator of [key] on [t], when [_probe_sequence] returns one. *)
Definition probe_of (hash : string → Z) (t : table) (key : string)
    : nat → Z :=
  match _probe_sequence hash t key with
  | Ret seq => seq
  | _ => fun _ => 0
  end.

(** Some cell holds [k] with the value [v]. *)
Definition holds (t : table) (k : string) (v : pyval) : Prop :=
  ∃ idx, 0 ≤ idx < _capacity t ∧
         py_getitem (_keys t) idx = Ret (KStr k) ∧
         py_getitem (_values t) idx = Ret v.

(** Every key in the table is found by the walk that looks for it. *)
Definition probe_reachable (hash : string → Z) (t : table) : Prop :=
  ∀ idx s, 0 ≤ idx < _capacity t →
           py_getitem (_keys t) idx = Ret (KStr s) →
           ∃ i, finds_at (_keys t) (probe_of hash t s) s i ∧
                probe_of hash t s i = idx.

(** The first [_capacity] probes of every key visit every cell. *)
Definition full_cycle (hash : string → Z) (t : table) : Prop :=
  ∀ key idx, 0 ≤ idx < _capacity t →
             ∃ i, (i < Z.to_nat (_capacity t))%nat ∧
                  probe_of hash t key i = idx.

(** The states in which [insert] of a new key is shown to return: no
    tombstone, every key reachable, walks that cover the table. *)
Record good (hash : string → Z) (t : table) : Prop := {
  good_counted : counted t;
  good_reach : probe_reachable hash t;
  good_no_tombstone : KDeleted ∉ _keys t;
  good_cycle : full_cycle hash t;
}.

(** The load factor stays below the threshold while the size goes from
    [lo] up to, but not including, [hi]: no insert made at one of these
    sizes rehashes. *)
Definition below_threshold (t : table) (cap lo hi : Z) : Prop :=
  ∀ s, lo ≤ s < hi →
       QArith_base.Qle_bool (_load_factor_threshold t)
         (QArith_base.Qdiv (QArith_base.inject_Z s)
                           (QArith_base.inject_Z cap)) = false.

(** What [insert] of a new key leaves in place. *)
Record extends (hash : string → Z) (t t' : table) (key : string)
    (v : pyval) : Prop := {
  ext_good : good hash t';
  ext_capacity : _capacity t' = _capacity t;
  ext_size : _size t' = _size t + 1;
  ext_funcs : same_funcs t t';
  ext_collisions : collisions t ≤ collisions t';
  ext_holds : holds t' key v;
  ext_holds_other : ∀ k w, holds t k w → holds t' k w;
  ext_holds_inv : ∀ k w, holds t' k w → (k = key ∧ w = v) ∨ holds t k w;
  ext_absent : ∀ k, KStr k ∉ _keys t → k ≠ key → KStr k ∉ _keys t';
}.

(** What a run of inserts of new, distinct keys leaves in place. *)
Record extends_all (hash : string → Z) (t t' : table)
    (items : list (string * pyval)) : Prop := {
  exta_good : good hash t';
  exta_capacity : _capacity t' = _capacity t;
  exta_size : _size t' = _size t + Z.of_nat (length items);
  exta_funcs : same_funcs t t';
  exta_collisions : collisions t ≤ collisions t';
  exta_holds : ∀ k w, (k, w) ∈ items → holds t' k w;
  exta_holds_other : ∀ k w, holds t k w → holds t' k w;
  exta_holds_inv : ∀ k w, holds t' k w → (k, w) ∈ items ∨ holds t k w;
  exta_absent : ∀ k, KStr k ∉ _keys t → k ∉ items.*1 → KStr k ∉ _keys t';
}.

Global Instance pyval_eq_dec : EqDecision pyval.
Proof. solve_decision. Defined.

(** capacity=3, mode=linear, threshold 0.05: after "a" and "b" the table
    has capacity 7 and size 2, so that the next insert would call
    [_rehash(15)]; that call is made here.  The answer collects the
    capacity and size before the call, the capacity after it, and
    [max(3, 15)]. *)
Definition scenario_nested_rehash (hash : string → Z)
    : result (Z * Z * Z * Z) :=
  t <- __init__ hash 3 (Some simple_hash) None "linear"
         (QArith_base.Qmake 1 20) ;;
  t <- insert hash 7 t "a" (VInt 1) ;;
  t <- insert hash 7 t "b" (VInt 2) ;;
  t' <- _rehash hash 31 t 15 ;;
  Ret (capacity t, size t, capacity t', Z.max 3 15).

(** 61 distinct keys: the one-character strings "0", "1", ... with the
    codes 48 to 108, each with its rank as value. *)
Definition keys_61 : list (string * pyval) :=
  (fun n => (String (ascii_of_nat (48 + n)) EmptyString, VInt (Z.of_nat n)))
    <$> seq 0 61.

(** [get] returns the value of the pair. *)
Definition got (hash : string → Z) (fuel : nat) (t : table)
    (kv : string * pyval) : bool :=
  match get hash fuel t (fst kv) with
  | Ret v => bool_decide (v = snd kv)
  | _ => false
  end.

(** The empty table of capacity 101 with threshold 0.6, as the constructor
    returns it for [hash_func=simple_hash] in linear mode. *)
Definition empty_101 : table :=
  {| _capacity := 101;
     _keys := replicate 101 KNone;
     _values := replicate 101 VNone;
     _size := 0;
     _hash_func := simple_hash;
     _second_hash := SecondDefault;
     _mode := "linear";
     _load_factor_threshold := QArith_base.Qmake 6 10;
     collisions := 0 |}.

(** capacity=101, threshold 0.6: the 61 keys are inserted.  The answer
    collects the capacity and the size after the last insert and whether
    [get] returns the value of every key. *)
Definition scenario_61_inserts (hash : string → Z) : result (Z * Z * bool) :=
  t0 <- __init__ hash 101 (Some simple_hash) None "linear"
          (QArith_base.Qmake 6 10) ;;
  t <- insert_all (insert hash 101) keys_61 t0 ;;
  Ret (capacity t, size t, forallb (got hash 101 t) keys_61).

(** The empty table of capacity 7 in double mode, with
    [hash_func=simple_hash] and no second hash function. *)
Definition empty_7_double : table :=
  {| _capacity := 7;
     _keys := replicate 7 KNone;
     _values := replicate 7 VNone;
     _size := 0;
     _hash_func := simple_hash;
     _second_hash := SecondDefault;
     _mode := "double";
     _load_factor_threshold := DEFAULT_LOAD_FACTOR_THRESHOLD;
     collisions := 0 |}.

(** [t] with the pair [(k, v)] written into the cell [idx], free so far. *)
Definition with_pair (t : table) (idx : nat) (k : string) (v : pyval)
    : table :=
  set_slots t (<[idx := KStr k]> (_keys t)) (<[idx := v]> (_values t))
    (_size t + 1).
(** ** hash_functions.py, continued *)

(** The loop of [polynomial_hash] when [mod] is given:
    [h = (h * base + ord(ch)) % mod]. *)
Fixpoint poly_fold_mod (base m : Z) (s : string) (h : Z) : result Z :=
  match s with
  | EmptyString => Ret h
  | String ch s' =>
      h' <- py_mod (h * base + ord ch) m ;; poly_fold_mod base m s' h'
  end.

(** [polynomial_hash(s, base, mod)]; [None] for [mod] is its default, the
    default of [base] is 257. *)
Definition polynomial_hash (s : string) (base : Z) (mod_ : option Z)
    : result Z :=
  match mod_ with
  | None =>
      Ret (Z.land (str_fold (fun h ch => h * base + ord ch) s 0) 0x7FFFFFFF)
  | Some m =>
      h <- poly_fold_mod base m s 0 ;; Ret (Z.land h 0x7FFFFFFF)
  end.

Definition DEFAULT_BASE : Z := 257.

(** The sum of the character codes of a string. *)
Fixpoint code_sum (s : string) : Z :=
  match s with
  | EmptyString => 0
  | String ch s' => ord ch + code_sum s'
  end.

(** DJB2 on 31 bits, reduced at every character. *)
Fixpoint djb2_31 (s : string) (h : Z) : Z :=
  match s with
  | EmptyString => h mod 2 ^ 31
  | String ch s' => djb2_31 s' ((h * 33 + ord ch) mod 2 ^ 31)
  end.

(** ** The open-addressing table, continued *)

(** The states every operation keeps the table in: well-formed, with a
    size counter that counts the keys, and every key found by its walk. *)
Record consistent (hash : string → Z) (t : table) : Prop := {
  cons_counted : counted t;
  cons_reach : probe_reachable hash t;
}.

(** [t'] holds what [t] holds, except that [k] is bound to [v]. *)
Definition inserted (t t' : table) (k : string) (v : pyval) : Prop :=
  ∀ k' w, holds t' k' w ↔ (k' = k ∧ w = v) ∨ (k' ≠ k ∧ holds t k' w).

(** [t'] holds what [t] holds, except that [k] is not bound. *)
Definition removed (t t' : table) (k : string) : Prop :=
  ∀ k' w, holds t' k' w ↔ k' ≠ k ∧ holds t k' w.

(** [t'] holds what [t] holds. *)
Definition same_content (t t' : table) : Prop :=
  ∀ k w, holds t' k w ↔ holds t k w.


(** [t] with the cell [idx], which held a key, turned into a tombstone. *)
Definition with_tombstone (t : table) (idx : nat) : table :=
  set_slots t (<[idx := KDeleted]> (_keys t)) (<[idx := VNone]> (_values t))
    (_size t - 1).

(** ** tests/test_hash_tables.py *)

(** [test_linear_insert_get]: what the two calls of [get], then [remove]
    and [contains] return; the test asserts 1, 2, [True] and [False]. *)
Definition test_linear_insert_get (hash : string → Z) (fuel : nat)
    : result (pyval * pyval * bool * bool) :=
  t <- __init__ hash 7 None None "linear" DEFAULT_LOAD_FACTOR_THRESHOLD ;;
  t <- insert hash fuel t "a" (VInt 1) ;;
  t <- insert hash fuel t "b" (VInt 2) ;;
  a <- get hash fuel t "a" ;;
  b <- get hash fuel t "b" ;;
  r <- remove hash fuel t "a" ;;
  c <- contains hash fuel (snd r) "a" ;;
  Ret (a, b, fst r, c).

(** [test_double_insert_get]: what the two calls of [get] return; the test
    asserts 1 and 2. *)
Definition test_double_insert_get (hash : string → Z) (fuel : nat)
    : result (pyval * pyval) :=
  t <- __init__ hash 7 None None "double" DEFAULT_LOAD_FACTOR_THRESHOLD ;;
  t <- insert hash fuel t "a" (VInt 1) ;;
  t <- insert hash fuel t "b" (VInt 2) ;;
  a <- get hash fuel t "a" ;;
  b <- get hash fuel t "b" ;;
  Ret (a, b).
(** * Properties *)

(** ** Python list access *)

Lemma py_index_length {A B : Type} (l : list A) (l' : list B) i :
  length l = length l' → py_index l i = py_index l' i.
Proof. unfold py_index. by intros ->. Qed.

Section PyList.
Context {A : Type}.
Implicit Types (l : list A) (i d : Z) (x y : A).

Lemma py_index_lt l i j : py_index l i = Some j → (j < length l)%nat.
Proof.
  unfold py_index. destruct (i <? 0) eqn:Hi;
    destruct (_ && _) eqn:Hb; intros [= <-];
    apply andb_true_iff in Hb as [H1 H2]; lia.
Qed.

Lemma py_index_in_range l i :
  0 ≤ i < Z.of_nat (length l) → py_index l i = Some (Z.to_nat i).
Proof.
  intros [H1 H2]. unfold py_index.
  destruct (i <? 0) eqn:Hi; [lia|].
  destruct (_ && _) eqn:Hb; [done|].
  apply andb_false_iff in Hb as [Hb|Hb]; lia.
Qed.

Lemma py_getitem_Ret l i x :
  py_getitem l i = Ret x ↔ ∃ j, py_index l i = Some j ∧ l !! j = Some x.
Proof.
  unfold py_getitem. split.
  - destruct (py_index l i) as [j|]; [|done].
    destruct (l !! j) eqn:E; [|done]. intros [= ->]. eauto.
  - intros (j & -> & ->). done.
Qed.

Lemma py_getitem_in_range l i x :
  0 ≤ i < Z.of_nat (length l) →
  py_getitem l i = Ret x ↔ l !! Z.to_nat i = Some x.
Proof.
  intros Hi. rewrite py_getitem_Ret, (py_index_in_range _ _ Hi).
  split; [by intros (j & [= <-] & H)|eauto].
Qed.

Lemma py_getitem_total l i :
  0 ≤ i < Z.of_nat (length l) → ∃ x, py_getitem l i = Ret x.
Proof.
  intros Hi. destruct (lookup_lt_is_Some_2 l (Z.to_nat i)) as [x Hx]; [lia|].
  exists x. by apply py_getitem_in_range.
Qed.

Lemma py_setitem_Ret l d x l' :
  py_setitem l d x = Ret l' ↔
  ∃ j, py_index l d = Some j ∧ l' = <[j := x]> l.
Proof.
  unfold py_setitem. destruct (py_index l d) as [j|]; split.
  - intros [= <-]. eauto.
  - by intros (j' & [= <-] & ->).
  - done.
  - by intros (j' & [=] & _).
Qed.

Lemma py_setitem_length l d x l' :
  py_setitem l d x = Ret l' → length l' = length l.
Proof.
  intros (j & _ & ->)%py_setitem_Ret. by rewrite length_insert.
Qed.

Lemma py_setitem_in_range l d x :
  0 ≤ d < Z.of_nat (length l) →
  py_setitem l d x = Ret (<[Z.to_nat d := x]> l).
Proof. intros Hd. unfold py_setitem. by rewrite py_index_in_range. Qed.

(** Reading back the cell that was written. *)
Lemma py_getitem_setitem_eq l d x l' :
  py_setitem l d x = Ret l' → py_getitem l' d = Ret x.
Proof.
  intros (j & Hj & ->)%py_setitem_Ret. apply py_getitem_Ret. exists j.
  split.
  - rewrite <- Hj. apply py_index_length. by rewrite length_insert.
  - apply list_lookup_insert_eq. by eapply py_index_lt.
Qed.

(** Reading a cell whose old content differs from that of the written
    cell: it is another cell. *)
Lemma py_getitem_setitem_ne l d x l' i a b :
  py_setitem l d x = Ret l' →
  py_getitem l d = Ret b → py_getitem l i = Ret a → a ≠ b →
  py_getitem l' i = Ret a.
Proof.
  intros (j & Hj & ->)%py_setitem_Ret (j' & Hj' & Hb)%py_getitem_Ret
    (k & Hk & Ha)%py_getitem_Ret Hne.
  apply py_getitem_Ret. exists k. split.
  - rewrite <- Hk. apply py_index_length. by rewrite length_insert.
  - rewrite list_lookup_insert_ne; [done|]. congruence.
Qed.

Lemma py_setitem_total l d x y :
  py_getitem l d = Ret y → ∃ l', py_setitem l d x = Ret l'.
Proof.
  intros (j & Hj & _)%py_getitem_Ret. unfold py_setitem. rewrite Hj. eauto.
Qed.
End PyList.

Lemma py_setitem_total_len {A B : Type} (l : list A) (l' : list B) d x y :
  length l = length l' →
  py_getitem l d = Ret y → ∃ l'', py_setitem l' d x = Ret l''.
Proof.
  intros Hlen (j & Hj & _)%py_getitem_Ret. unfold py_setitem.
  rewrite <- (py_index_length l l') by done. rewrite Hj. eauto.
Qed.

(** ** The monad of results *)

Lemma bind_Ret {A B : Type} (m : result A) (k : A → result B) (b : B) :
  bind m k = Ret b ↔ ∃ a, m = Ret a ∧ k a = Ret b.
Proof.
  destruct m; simpl; split; try done.
  - eauto.
  - by intros (a' & [= <-] & H).
  - by intros (a' & [=] & _).
  - by intros (a' & [=] & _).
Qed.

Lemma bind_fuel {A B : Type} (m : result A) (k : A → result B) :
  bind m k ≠ OutOfFuel → m ≠ OutOfFuel.
Proof. by destruct m. Qed.

(** ** More fuel does not change a result *)

Ltac loop_step Hk :=
  simpl;
  match goal with
  | |- context [py_getitem ?l ?i] =>
      destruct (py_getitem l i) as [[| |?s]| |] eqn:Hk; simpl; try done
  end.

Lemma get_loop_mono seq t key n m i :
  (n ≤ m)%nat → get_loop n seq t key i ≠ OutOfFuel →
  get_loop m seq t key i = get_loop n seq t key i.
Proof.
  revert m i. induction n as [|n IH]; intros m i Hle Hr; [done|].
  destruct m as [|m]; [lia|]. revert Hr. loop_step Hk.
  - intros Hr. apply IH; [lia|done].
  - destruct (String.eqb s key); [done|]. intros Hr. apply IH; [lia|done].
Qed.

Lemma remove_loop_mono seq t key n m i :
  (n ≤ m)%nat → remove_loop n seq t key i ≠ OutOfFuel →
  remove_loop m seq t key i = remove_loop n seq t key i.
Proof.
  revert m i. induction n as [|n IH]; intros m i Hle Hr; [done|].
  destruct m as [|m]; [lia|]. revert Hr. loop_step Hk.
  - intros Hr. apply IH; [lia|done].
  - destruct (String.eqb s key); [done|]. intros Hr. apply IH; [lia|done].
Qed.

Lemma insert_loop_mono seq key v n m t fd i :
  (n ≤ m)%nat → insert_loop n seq t key v fd i ≠ OutOfFuel →
  insert_loop m seq t key v fd i = insert_loop n seq t key v fd i.
Proof.
  revert m t fd i. induction n as [|n IH]; intros m t fd i Hle Hr; [done|].
  destruct m as [|m]; [lia|]. revert Hr. loop_step Hk.
  - intros Hr. apply IH; [lia|done].
  - destruct (String.eqb s key); [done|]. intros Hr. apply IH; [lia|done].
Qed.

Lemma insert_all_mono (ins ins' : table → string → pyval → result table)
    items t :
  (∀ t k v, ins t k v ≠ OutOfFuel → ins' t k v = ins t k v) →
  insert_all ins items t ≠ OutOfFuel →
  insert_all ins' items t = insert_all ins items t.
Proof.
  intros Hins. revert t. induction items as [|[k v] items IH]; intros t; [done|].
  simpl. intros Hr. rewrite Hins by (by apply bind_fuel in Hr).
  destruct (ins t k v) as [t'| |]; simpl in *; try done. by apply IH.
Qed.

Section Fuel.
Variable hash : string → Z.

Lemma insert_S n t key v :
  insert hash (S n) t key v =
  (lf <- load_factor t ;;
   t1 <- (if QArith_base.Qle_bool (_load_factor_threshold t) lf
          then rehash_with (insert hash n) t (_capacity t * 2 + 1)
          else Ret t) ;;
   seq <- _probe_sequence hash t1 key ;;
   insert_loop (S n) seq t1 key v None 0%nat).
Proof. done. Qed.

Lemma insert_mono n m t key v :
  (n ≤ m)%nat → insert hash n t key v ≠ OutOfFuel →
  insert hash m t key v = insert hash n t key v.
Proof.
  revert m t key v. induction n as [|n IH]; intros m t key v Hle Hr; [done|].
  destruct m as [|m]; [lia|]. revert Hr. rewrite !insert_S.
  destruct (load_factor t) as [lf| |]; cbn [bind]; try done.
  destruct (QArith_base.Qle_bool _ lf).
  - unfold rehash_with. intros Hr.
    rewrite (insert_all_mono (insert hash n) (insert hash m)).
    + destruct (insert_all _ _ _) as [t1| |] eqn:E; cbn [bind] in *; try done.
      destruct (_probe_sequence hash t1 key) as [seq| |]; cbn [bind] in *;
        try done.
      apply insert_loop_mono; [lia|done].
    + intros t0 k0 v0 H0. apply IH; [lia|done].
    + by apply bind_fuel in Hr.
  - cbn [bind].
    destruct (_probe_sequence hash t key) as [seq| |]; cbn [bind]; try done.
    intros Hr. apply insert_loop_mono; [lia|done].
Qed.

Lemma insert_fuel_Ret n m t key v t' :
  insert hash n t key v = Ret t' → (n ≤ m)%nat →
  insert hash m t key v = Ret t'.
Proof.
  intros H Hle. rewrite <- H. apply insert_mono; [done|]. by rewrite H.
Qed.

Lemma rehash_fuel_Ret n m t c t' :
  _rehash hash n t c = Ret t' → (n ≤ m)%nat → _rehash hash m t c = Ret t'.
Proof.
  unfold _rehash, rehash_with. intros H Hle. rewrite <- H.
  apply insert_all_mono; [|by rewrite H].
  intros t0 k v Hr. by apply insert_mono.
Qed.

Lemma get_fuel_Ret n m t key v :
  get hash n t key = Ret v → (n ≤ m)%nat → get hash m t key = Ret v.
Proof.
  unfold get. destruct (_probe_sequence hash t key) as [seq| |]; simpl; try done.
  intros H Hle. rewrite <- H. apply get_loop_mono; [done|]. by rewrite H.
Qed.

Lemma remove_fuel_Ret n m t key r :
  remove hash n t key = Ret r → (n ≤ m)%nat → remove hash m t key = Ret r.
Proof.
  unfold remove. destruct (_probe_sequence hash t key) as [seq| |]; simpl; try done.
  intros H Hle. rewrite <- H. apply remove_loop_mono; [done|]. by rewrite H.
Qed.

End Fuel.

(** ** Walks that never stop *)

Lemma get_loop_diverges seq t key fuel i :
  (∀ m, (i ≤ m)%nat → skippable (_keys t) (seq m) key) →
  get_loop fuel seq t key i = OutOfFuel.
Proof.
  revert i. induction fuel as [|fuel IH]; intros i Hskip; [done|].
  simpl. destruct (Hskip i) as [Hk|(s & Hk & Hne)]; [lia| |]; rewrite Hk; simpl.
  - apply IH. intros m Hm. apply Hskip. lia.
  - apply String.eqb_neq in Hne as ->. apply IH. intros m Hm. apply Hskip. lia.
Qed.

Lemma remove_loop_diverges seq t key fuel i :
  (∀ m, (i ≤ m)%nat → skippable (_keys t) (seq m) key) →
  remove_loop fuel seq t key i = OutOfFuel.
Proof.
  revert i. induction fuel as [|fuel IH]; intros i Hskip; [done|].
  simpl. destruct (Hskip i) as [Hk|(s & Hk & Hne)]; [lia| |]; rewrite Hk; simpl.
  - apply IH. intros m Hm. apply Hskip. lia.
  - apply String.eqb_neq in Hne as ->. apply IH. intros m Hm. apply Hskip. lia.
Qed.

Lemma insert_loop_diverges seq key v fuel t fd i :
  (∀ m, (i ≤ m)%nat → skippable (_keys t) (seq m) key) →
  insert_loop fuel seq t key v fd i = OutOfFuel.
Proof.
  revert t fd i. induction fuel as [|fuel IH]; intros t fd i Hskip; [done|].
  simpl. destruct (Hskip i) as [Hk|(s & Hk & Hne)]; [lia| |]; rewrite Hk; simpl.
  - apply IH. intros m Hm. apply Hskip. lia.
  - apply String.eqb_neq in Hne as ->. apply IH. intros m Hm. apply Hskip. lia.
Qed.

(** ** The probe generator on a well-formed table *)

Section Probe.
Variable hash : string → Z.

Lemma probe_sequence_wf t key :
  wf t →
  ∃ seq, _probe_sequence hash t key = Ret seq ∧ in_range seq (_capacity t).
Proof.
  intros (Hcap & _ & _). unfold _probe_sequence, py_mod.
  destruct (_capacity t =? 0) eqn:E0; [lia|]. cbn [bind].
  destruct (String.eqb (_mode t) "linear").
  - eexists. split; [done|]. intros i. apply Z.mod_pos_bound. lia.
  - assert (∃ s, second_hash_call hash t key = Ret s) as [s Hs].
    { unfold second_hash_call, py_mod. destruct (_second_hash t); [eauto|].
      destruct (_capacity t - 1 =? 0) eqn:E1; [lia|]. cbn [bind]. eauto. }
    unfold probe_step, py_mod. rewrite Hs, E0. cbn [bind].
    eexists. split; [done|].
    intros i. apply Z.mod_pos_bound. lia.
Qed.

Lemma probe_sequence_linear t key :
  _capacity t ≠ 0 → _mode t = "linear" →
  _probe_sequence hash t key =
  Ret (fun i => (_hash_func t key mod _capacity t + Z.of_nat i)
                mod _capacity t).
Proof.
  intros Hcap Hmode. unfold _probe_sequence, py_mod.
  destruct (_capacity t =? 0) eqn:E0; [lia|]. cbn [bind]. by rewrite Hmode.
Qed.

End Probe.

(** A table without [None] cell and without [key]: every probe is stepped
    over. *)
Lemma no_stop_skippable ks seq key :
  in_range seq (Z.of_nat (length ks)) →
  Forall (fun k => k ≠ KNone ∧ k ≠ KStr key) ks →
  ∀ m, skippable ks (seq m) key.
Proof.
  intros Hr Hall m. destruct (py_getitem_total ks (seq m) (Hr m)) as [k Hk].
  pose proof Hk as Hk'. apply py_getitem_in_range in Hk'; [|done].
  eapply Forall_lookup_1 in Hall as [H1 H2]; [|done].
  destruct k as [| |s]; [done|by left|right]. exists s. split; [done|].
  congruence.
Qed.

Section Saturation.
Variable hash : string → Z.

Lemma get_without_stop t key fuel :
  wf t → Forall (fun k => k ≠ KNone ∧ k ≠ KStr key) (_keys t) →
  get hash fuel t key = OutOfFuel.
Proof.
  intros Hwf Hall. destruct (probe_sequence_wf hash t key Hwf) as (seq & Hs & Hr).
  unfold get. rewrite Hs. cbn [bind]. apply get_loop_diverges.
  intros m _. apply no_stop_skippable; [|done].
  destruct Hwf as (? & -> & _). intros i. specialize (Hr i). lia.
Qed.

Lemma remove_without_stop t key fuel :
  wf t → Forall (fun k => k ≠ KNone ∧ k ≠ KStr key) (_keys t) →
  remove hash fuel t key = OutOfFuel.
Proof.
  intros Hwf Hall. destruct (probe_sequence_wf hash t key Hwf) as (seq & Hs & Hr).
  unfold remove. rewrite Hs. cbn [bind]. apply remove_loop_diverges.
  intros m _. apply no_stop_skippable; [|done].
  destruct Hwf as (? & -> & _). intros i. specialize (Hr i). lia.
Qed.

(** [insert] does not come back either, unless it rehashes first. *)
Lemma insert_without_stop t key v lf fuel :
  wf t → Forall (fun k => k ≠ KNone ∧ k ≠ KStr key) (_keys t) →
  load_factor t = Ret lf →
  QArith_base.Qle_bool (_load_factor_threshold t) lf = false →
  insert hash fuel t key v = OutOfFuel.
Proof.
  intros Hwf Hall Hlf Hthr. destruct fuel as [|fuel]; [done|].
  rewrite insert_S, Hlf. cbn [bind]. rewrite Hthr. cbn [bind].
  destruct (probe_sequence_wf hash t key Hwf) as (seq & Hs & Hr).
  rewrite Hs. cbn [bind]. apply insert_loop_diverges.
  intros m _. apply no_stop_skippable; [|done].
  destruct Hwf as (? & -> & _). intros i. specialize (Hr i). lia.
Qed.

End Saturation.


(** C7. With capacity 7, linear probing and the sum of the character codes
    as hash: after [insert("a",1)] and [insert("h",2)] the key "h" is in
    the cell at index 0 and [collisions] is 1, [get("a")] is 1 and
    [get("h")] is 2; then [remove("a")] is [True], [get("a")] is [None]
    and [get("h")] is still 2, the cell at index 6 being a tombstone.
    Every call is given 7 probes. *)
Theorem scenario_cap7_observed (hash : string → Z) :
  scenario_cap7 hash =
  Ret (Some (KStr "h"), 1, VInt 1, VInt 2, true, VNone, VInt 2,
       Some KDeleted).
Proof. vm_compute. reflexivity. Qed.

Lemma saturated_table_wf : wf saturated_table.
Proof. split; [|split]; [simpl; lia|reflexivity|reflexivity]. Qed.

Lemma saturated_table_no_stop key :
  Forall (fun k => k ≠ KNone ∧ k ≠ KStr key) (_keys saturated_table).
Proof. repeat constructor; done. Qed.

(** C1. The probe walks are not bounded by the capacity.  Three
    insert/remove pairs leave the table of capacity 3 with a tombstone in
    every cell; on it [get], [remove] and [insert] of a fourth key do not
    return, whatever number of loop iterations they are given. *)
Theorem probe_walk_unbounded_on_tombstones (hash : string → Z) :
  tombstone_saturated hash = Ret saturated_table ∧
  ∀ fuel, get hash fuel saturated_table "d" = OutOfFuel ∧
          remove hash fuel saturated_table "d" = OutOfFuel ∧
          insert hash fuel saturated_table "d" (VInt 4) = OutOfFuel.
Proof.
  split; [reflexivity|]. intros fuel. split; [|split].
  - apply get_without_stop;
      [apply saturated_table_wf|apply saturated_table_no_stop].
  - apply remove_without_stop;
      [apply saturated_table_wf|apply saturated_table_no_stop].
  - eapply insert_without_stop;
      [apply saturated_table_wf|apply saturated_table_no_stop
      |reflexivity|reflexivity].
Qed.

(** C2. On that same table [insert("d", 4)] followed by [get("d")] does
    not return 4: the insert never comes back. *)
Theorem insert_then_get_stuck_on_tombstones (hash : string → Z) :
  tombstone_saturated hash = Ret saturated_table ∧
  ∀ fuel, (t' <- insert hash fuel saturated_table "d" (VInt 4) ;;
           get hash fuel t' "d") = OutOfFuel.
Proof.
  split; [reflexivity|]. intros fuel.
  rewrite (insert_without_stop hash _ "d" (VInt 4)
             (QArith_base.Qdiv (QArith_base.inject_Z 0) (QArith_base.inject_Z 3)));
    [done|apply saturated_table_wf|apply saturated_table_no_stop
    |reflexivity|reflexivity].
Qed.

(** ** What the loops leave unchanged, and the size counter *)

Lemma occupied_nonneg ks : 0 ≤ occupied ks.
Proof. induction ks as [|k ks IH]; simpl; [done|]. destruct (is_str k); lia. Qed.

Lemma occupied_replicate n : occupied (replicate n KNone) = 0.
Proof. induction n as [|n IH]; simpl; [done|]. by rewrite IH. Qed.

Lemma occupied_insert ks j x k0 :
  ks !! j = Some k0 →
  occupied (<[j := x]> ks) =
  occupied ks - (if is_str k0 then 1 else 0) + (if is_str x then 1 else 0).
Proof.
  revert j. induction ks as [|k ks IH]; intros [|j]; simpl; try done.
  - intros [= ->]. lia.
  - intros H. rewrite (IH _ H). lia.
Qed.

Lemma occupied_setitem ks d x ks' k0 :
  py_setitem ks d x = Ret ks' → py_getitem ks d = Ret k0 →
  occupied ks' =
  occupied ks - (if is_str k0 then 1 else 0) + (if is_str x then 1 else 0).
Proof.
  intros (j & Hj & ->)%py_setitem_Ret (j' & Hj' & Hk)%py_getitem_Ret.
  rewrite Hj in Hj'. injection Hj' as <-. by apply occupied_insert.
Qed.

Lemma same_funcs_refl t : same_funcs t t.
Proof. by repeat split. Qed.

Lemma same_funcs_trans t1 t2 t3 :
  same_funcs t1 t2 → same_funcs t2 t3 → same_funcs t1 t3.
Proof. unfold same_funcs. intros (?&?&?&?) (?&?&?&?). repeat split; congruence. Qed.

Lemma loop_frame_refl t : loop_frame t t.
Proof. split; try done; try apply same_funcs_refl; lia. Qed.

Lemma loop_frame_trans t1 t2 t3 :
  loop_frame t1 t2 → loop_frame t2 t3 → loop_frame t1 t3.
Proof.
  intros [] []. split; try congruence; try lia.
  by eapply same_funcs_trans.
Qed.

Lemma insert_loop_frame seq key v fuel t fd i t' :
  insert_loop fuel seq t key v fd i = Ret t' →
  (∀ d, fd = Some d → py_getitem (_keys t) d = Ret KDeleted) →
  loop_frame t t'.
Proof.
  revert t fd i. induction fuel as [|fuel IH]; intros t fd i; [done|].
  loop_step Hk.
  - (* empty cell *)
    intros (ks & Hks & (vs & Hvs & [= <-])%bind_Ret)%bind_Ret Hfd.
    assert (∃ k0, py_getitem (_keys t)
                    (match fd with Some d => d | None => seq i end) = Ret k0
                  ∧ is_str k0 = false) as (k0 & Hk0 & Hstr).
    { destruct fd as [d|]; [exists KDeleted|exists KNone]; split; auto. }
    pose proof (occupied_setitem _ _ _ _ _ Hks Hk0) as Hocc.
    rewrite Hstr in Hocc. simpl in Hocc.
    apply py_setitem_length in Hks, Hvs.
    destruct (_ =? _); split; simpl; try done; try apply same_funcs_refl; lia.
  - (* tombstone *)
    intros H Hfd. eapply IH; [exact H|].
    intros d. destruct fd as [d'|]; intros [= <-]; auto.
  - (* a key *)
    destruct (String.eqb s key).
    + intros (vs & Hvs & [= <-])%bind_Ret _.
      apply py_setitem_length in Hvs.
      split; simpl; try done; try apply same_funcs_refl; lia.
    + intros H Hfd. apply IH in H; [|done].
      destruct H. split; simpl in *; try done. lia.
Qed.

Lemma remove_loop_frame seq key fuel t i b t' :
  remove_loop fuel seq t key i = Ret (b, t') → loop_frame t t'.
Proof.
  revert i. induction fuel as [|fuel IH]; intros i; [done|].
  loop_step Hk.
  - intros [= _ <-]. apply loop_frame_refl.
  - apply IH.
  - destruct (String.eqb s key); [|apply IH].
    intros (ks & Hks & (vs & Hvs & [= _ <-])%bind_Ret)%bind_Ret.
    pose proof (occupied_setitem _ _ _ _ _ Hks Hk) as Hocc. simpl in Hocc.
    apply py_setitem_length in Hks, Hvs.
    split; simpl; try done; try apply same_funcs_refl; lia.
Qed.

(** ** The size counter in every reachable state *)

Lemma loop_frame_counted t t' : loop_frame t t' → counted t → counted t'.
Proof.
  intros [] [(? & ? & ?) ?]. split; [split; [|split]|]; try congruence; lia.
Qed.

Lemma reallocate_counted t c : counted (reallocate t (Z.max 3 c)).
Proof.
  split; [split; [|split]|]; simpl.
  - lia.
  - apply length_replicate.
  - apply length_replicate.
  - by rewrite occupied_replicate.
Qed.

Lemma insert_all_counted ins items t t' :
  (∀ t k v t', ins t k v = Ret t' → counted t → counted t') →
  insert_all ins items t = Ret t' → counted t → counted t'.
Proof.
  intros Hins. revert t. induction items as [|[k v] items IH]; intros t; simpl.
  - by intros [= <-].
  - intros (t1 & H1 & H2)%bind_Ret Ht. eapply IH; [done|]. by eapply Hins.
Qed.

Section Counted.
Variable hash : string → Z.

Lemma insert_counted fuel t key v t' :
  insert hash fuel t key v = Ret t' → counted t → counted t'.
Proof.
  revert t key v t'. induction fuel as [|fuel IH]; intros t key v t'; [done|].
  rewrite insert_S.
  intros (lf & _ & (t1 & H1 & (seq & _ & Hloop)%bind_Ret)%bind_Ret)%bind_Ret Ht.
  assert (counted t1) as Ht1.
  { destruct (QArith_base.Qle_bool _ _).
    - eapply insert_all_counted; [|exact H1|apply reallocate_counted]. apply IH.
    - by injection H1 as <-. }
  eapply loop_frame_counted; [|done].
  eapply insert_loop_frame; [done|done].
Qed.

Lemma rehash_counted fuel t c t' :
  _rehash hash fuel t c = Ret t' → counted t'.
Proof.
  intros H. eapply insert_all_counted; [|exact H|apply reallocate_counted].
  intros ????. apply insert_counted.
Qed.

Lemma remove_counted fuel t key b t' :
  remove hash fuel t key = Ret (b, t') → counted t → counted t'.
Proof.
  intros (seq & _ & Hloop)%bind_Ret. apply loop_frame_counted.
  by eapply remove_loop_frame.
Qed.

Lemma init_counted c hf shf mode thr t :
  __init__ hash c hf shf mode thr = Ret t → counted t.
Proof.
  unfold __init__. destruct (_ || _); [|done]. intros [= <-].
  split; [split; [|split]|]; simpl.
  - lia.
  - apply length_replicate.
  - apply length_replicate.
  - by rewrite occupied_replicate.
Qed.

Lemma op_step_counted t t' : op_step hash t t' → counted t → counted t'.
Proof.
  destruct 1.
  - by eapply insert_counted.
  - by eapply remove_counted.
  - intros _. by eapply rehash_counted.
Qed.

Lemma reachable_from_counted t0 t :
  reachable_from hash t0 t → counted t0 → counted t.
Proof. induction 1; [done|]. intros Hc. eauto using op_step_counted. Qed.

Lemma reachable_counted t : reachable hash t → counted t.
Proof.
  intros (c & hf & shf & mode & thr & t0 & Hinit & Hreach).
  eapply reachable_from_counted; [done|]. by eapply init_counted.
Qed.

End Counted.

(** C9. In every state reachable from a freshly constructed table by
    [insert], [remove] and [_rehash], [_size] is the number of cells of
    [_keys] that hold a real key (neither [None] nor the tombstone). *)
Theorem size_counts_occupied (hash : string → Z) (t : table) :
  reachable hash t → size t = occupied (_keys t).
Proof. intros H. by apply reachable_counted in H as [_ ?]. Qed.

(** ** Where the loops end *)

Lemma others_skips ks seq key m :
  others_before ks seq key m → skips_before ks seq key m.
Proof. intros H m' Hm'. right. by apply H. Qed.

Lemma walk_state_skips ks seq key fd i0 :
  walk_state ks seq key fd i0 → skips_before ks seq key i0.
Proof.
  destruct fd as [d|]; simpl.
  - by intros (m & _ & _ & _ & _ & H).
  - apply others_skips.
Qed.

Lemma walk_state_first_del ks seq key d i0 :
  walk_state ks seq key (Some d) i0 → py_getitem ks d = Ret KDeleted.
Proof. by intros (m & _ & _ & H & _). Qed.

Lemma skips_before_S ks seq key i :
  skips_before ks seq key i → skippable ks (seq i) key →
  skips_before ks seq key (S i).
Proof.
  intros H Hi m Hm. destruct (decide (m = i)) as [->|]; [done|].
  apply H. lia.
Qed.

Lemma others_before_S ks seq key i s :
  others_before ks seq key i → py_getitem ks (seq i) = Ret (KStr s) →
  s ≠ key → others_before ks seq key (S i).
Proof.
  intros H Hi Hne m Hm. destruct (decide (m = i)) as [->|]; [eauto|].
  apply H. lia.
Qed.

Lemma insert_loop_outcome seq key v fuel t fd i0 t' :
  insert_loop fuel seq t key v fd i0 = Ret t' →
  walk_state (_keys t) seq key fd i0 →
  ∃ i, (i0 ≤ i < i0 + fuel)%nat ∧
       (updates_at seq key v t t' i ∨ ∃ m, lands_new seq key v t t' i m).
Proof.
  revert t fd i0. induction fuel as [|fuel IH]; intros t fd i0; [done|].
  loop_step Hk.
  - (* None *)
    intros (ks & Hks & (vs & Hvs & [= <-])%bind_Ret)%bind_Ret Hst.
    exists i0. split; [lia|]. right.
    assert (∃ m, landing (_keys t) seq key i0 m ∧
                 match fd with Some d => d | None => seq i0 end = seq m)
      as (m & Hland & Hm).
    { destruct fd as [d|]; simpl in Hst.
      - destruct Hst as (m & Hlt & -> & Hd & Hoth & _).
        exists m. by repeat split; [lia|..].
      - exists i0. repeat split; [lia|done|lia]. }
    rewrite Hm in Hks, Hvs. exists m. unfold lands_new, misses_at.
    split; [split; [by eapply walk_state_skips|done]|].
    split; [done|]. by destruct (_ =? _).
  - (* tombstone *)
    intros H Hst. apply IH in H as (i & Hi & H).
    + exists i. split; [lia|done].
    + pose proof (walk_state_skips _ _ _ _ _ Hst) as Hsk.
      assert (skips_before (_keys t) seq key (S i0)) as Hsk'
        by (apply skips_before_S; [done|by left]).
      destruct fd as [d|]; simpl in *.
      * destruct Hst as (m & Hlt & -> & Hd & Hoth & _).
        exists m. by repeat split; [lia|..].
      * exists i0. by repeat split; [lia|..].
  - destruct (String.eqb_spec s key) as [->|Hne].
    + (* the key *)
      intros (vs & Hvs & [= <-])%bind_Ret Hst. exists i0. split; [lia|]. left.
      unfold updates_at, finds_at. simpl.
      by repeat split; [eapply walk_state_skips|..].
    + (* another key *)
      intros H Hst. apply IH in H as (i & Hi & H).
      * exists i. split; [lia|]. exact H.
      * simpl. destruct fd as [d|]; simpl in *.
        -- destruct Hst as (m & Hlt & -> & Hd & Hoth & Hsk).
           exists m. repeat split; [lia|done|done|].
           apply skips_before_S; [done|]. right. eauto.
        -- by eapply others_before_S.
Qed.

(** From the start of the walk. *)
Lemma insert_loop_outcome_0 seq key v fuel t t' :
  insert_loop fuel seq t key v None 0 = Ret t' →
  ∃ i, (i < fuel)%nat ∧
       (updates_at seq key v t t' i ∨ ∃ m, lands_new seq key v t t' i m).
Proof.
  intros H. apply insert_loop_outcome in H as (i & Hi & H).
  - exists i. split; [lia|done].
  - intros m Hm. lia.
Qed.

Lemma get_loop_walk seq t key n f i0 :
  (∀ m, (i0 ≤ m < i0 + n)%nat → skippable (_keys t) (seq m) key) →
  get_loop (n + f) seq t key i0 = get_loop f seq t key (i0 + n).
Proof.
  revert i0. induction n as [|n IH]; intros i0 Hskip.
  - by rewrite Nat.add_0_r.
  - replace (i0 + S n)%nat with (S i0 + n)%nat by lia.
    rewrite <- IH by (intros m Hm; apply Hskip; lia). simpl.
    destruct (Hskip i0) as [Hk|(s & Hk & Hne)]; [lia| |]; rewrite Hk; simpl.
    + done.
    + by apply String.eqb_neq in Hne as ->.
Qed.

Lemma remove_loop_walk seq t key n f i0 :
  (∀ m, (i0 ≤ m < i0 + n)%nat → skippable (_keys t) (seq m) key) →
  remove_loop (n + f) seq t key i0 = remove_loop f seq t key (i0 + n).
Proof.
  revert i0. induction n as [|n IH]; intros i0 Hskip.
  - by rewrite Nat.add_0_r.
  - replace (i0 + S n)%nat with (S i0 + n)%nat by lia.
    rewrite <- IH by (intros m Hm; apply Hskip; lia). simpl.
    destruct (Hskip i0) as [Hk|(s & Hk & Hne)]; [lia| |]; rewrite Hk; simpl.
    + done.
    + by apply String.eqb_neq in Hne as ->.
Qed.

Lemma get_loop_finds seq t key i fuel :
  finds_at (_keys t) seq key i → (i < fuel)%nat →
  get_loop fuel seq t key 0 = py_getitem (_values t) (seq i).
Proof.
  intros [Hskip Hk] Hlt. replace fuel with (i + S (fuel - S i))%nat by lia.
  rewrite get_loop_walk by (intros m Hm; apply Hskip; lia).
  simpl. rewrite Hk. simpl. by rewrite String.eqb_refl.
Qed.

Lemma get_loop_misses seq t key i fuel :
  misses_at (_keys t) seq key i → (i < fuel)%nat →
  get_loop fuel seq t key 0 = Ret VNone.
Proof.
  intros [Hskip Hk] Hlt. replace fuel with (i + S (fuel - S i))%nat by lia.
  rewrite get_loop_walk by (intros m Hm; apply Hskip; lia).
  simpl. by rewrite Hk.
Qed.

Lemma remove_loop_finds seq t key i fuel :
  finds_at (_keys t) seq key i → (i < fuel)%nat →
  remove_loop fuel seq t key 0 =
  (ks <- py_setitem (_keys t) (seq i) KDeleted ;;
   vs <- py_setitem (_values t) (seq i) VNone ;;
   Ret (true, set_slots t ks vs (_size t - 1))).
Proof.
  intros [Hskip Hk] Hlt. replace fuel with (i + S (fuel - S i))%nat by lia.
  rewrite remove_loop_walk by (intros m Hm; apply Hskip; lia).
  simpl. rewrite Hk. simpl. by rewrite String.eqb_refl.
Qed.

Lemma remove_loop_misses seq t key i fuel :
  misses_at (_keys t) seq key i → (i < fuel)%nat →
  remove_loop fuel seq t key 0 = Ret (false, t).
Proof.
  intros [Hskip Hk] Hlt. replace fuel with (i + S (fuel - S i))%nat by lia.
  rewrite remove_loop_walk by (intros m Hm; apply Hskip; lia).
  simpl. by rewrite Hk.
Qed.

(** [insert_loop] returns as soon as the walk meets [None] or the key. *)
Lemma insert_loop_returns seq key v n t fd i0 :
  length (_values t) = length (_keys t) →
  (∀ d, fd = Some d → py_getitem (_keys t) d = Ret KDeleted) →
  (∀ m, (i0 ≤ m < i0 + n)%nat → skippable (_keys t) (seq m) key) →
  py_getitem (_keys t) (seq (i0 + n)%nat) = Ret KNone ∨
  py_getitem (_keys t) (seq (i0 + n)%nat) = Ret (KStr key) →
  ∃ t', insert_loop (S n) seq t key v fd i0 = Ret t'.
Proof.
  revert t fd i0. induction n as [|n IH]; intros t fd i0 Hlen Hfd Hskip Hstop.
  - rewrite Nat.add_0_r in Hstop. simpl.
    destruct Hstop as [Hk|Hk]; rewrite Hk; simpl.
    + assert (∃ k0, py_getitem (_keys t)
                (match fd with Some d => d | None => seq i0 end) = Ret k0)
        as [k0 Hk0] by (destruct fd; eauto).
      destruct (py_setitem_total _ _ (KStr key) _ Hk0) as [ks ->].
      destruct (py_setitem_total_len (_keys t) (_values t) _ v _
                  (eq_sym Hlen) Hk0) as [vs ->].
      simpl. eauto.
    + rewrite String.eqb_refl.
      destruct (py_setitem_total_len (_keys t) (_values t) _ v _
                  (eq_sym Hlen) Hk) as [vs ->].
      simpl. eauto.
  - replace (i0 + S n)%nat with (S i0 + n)%nat in Hstop by lia.
    assert (∀ m, (S i0 ≤ m < S i0 + n)%nat → skippable (_keys t) (seq m) key)
      as Hskip' by (intros m Hm; apply Hskip; lia).
    cbn [insert_loop].
    destruct (Hskip i0) as [Hk|(s & Hk & Hne)]; [lia| |]; rewrite Hk;
      cbn [bind].
    + apply IH; [done| |done|done].
      intros d. destruct fd as [d'|]; intros [= <-]; auto.
    + apply String.eqb_neq in Hne as ->. by apply IH.
Qed.

Lemma insert_loop_returns_0 seq key v i t fuel :
  length (_values t) = length (_keys t) →
  skips_before (_keys t) seq key i →
  py_getitem (_keys t) (seq i) = Ret KNone ∨
  py_getitem (_keys t) (seq i) = Ret (KStr key) →
  (i < fuel)%nat →
  ∃ t', insert_loop fuel seq t key v None 0 = Ret t'.
Proof.
  intros Hlen Hskip Hstop Hlt.
  destruct (insert_loop_returns seq key v i t None 0%nat) as [t' Ht'];
    [done|done|intros m Hm; apply Hskip; lia|done|].
  exists t'. rewrite <- Ht'. apply insert_loop_mono; [lia|]. by rewrite Ht'.
Qed.

(** After [insert], the walk for the key finds it where it was written. *)
Lemma lands_new_finds seq key v t t' i m :
  lands_new seq key v t t' i m → finds_at (_keys t') seq key m.
Proof.
  intros ([_ Hnone] & (Hle & Hoth & Hdel) & Hks & _).
  assert (∃ b, py_getitem (_keys t) (seq m) = Ret b ∧ is_str b = false)
    as (b & Hb & Hstr).
  { destruct (decide (m = i)) as [->|]; [by exists KNone|].
    exists KDeleted. split; [|done]. apply Hdel. lia. }
  split.
  - intros m' Hm'. destruct (Hoth m' Hm') as (s & Hs & Hne).
    right. exists s. split; [|done].
    eapply py_getitem_setitem_ne; [done|done|done|]. by intros <-.
  - by eapply py_getitem_setitem_eq.
Qed.

Lemma insert_loop_then_get seq key v fuel t t' :
  insert_loop fuel seq t key v None 0 = Ret t' →
  ∃ i, (i < fuel)%nat ∧ finds_at (_keys t') seq key i ∧
       py_getitem (_values t') (seq i) = Ret v.
Proof.
  intros (i & Hi & [Hup|[m Hnew]])%insert_loop_outcome_0.
  - destruct Hup as (Hfind & Hks & Hvs & _). exists i. rewrite Hks.
    split; [done|]. split; [done|]. by eapply py_getitem_setitem_eq.
  - exists m. pose proof (lands_new_finds _ _ _ _ _ _ _ Hnew) as Hfind.
    destruct Hnew as (_ & (Hle & _) & _ & Hvs & _).
    split; [lia|]. split; [done|]. by eapply py_getitem_setitem_eq.
Qed.

Section RoundTrip.
Variable hash : string → Z.

Lemma probe_sequence_frame t t' key :
  _capacity t' = _capacity t → same_funcs t t' →
  _probe_sequence hash t' key = _probe_sequence hash t key.
Proof.
  intros Hcap (Hh & Hs & Hm & _).
  unfold _probe_sequence, probe_step, second_hash_call.
  by rewrite Hcap, Hh, Hs, Hm.
Qed.

(** What the last step of [insert] starts from. *)
Lemma insert_inv fuel t key v t' :
  insert hash fuel t key v = Ret t' →
  ∃ t1 seq, _probe_sequence hash t1 key = Ret seq ∧
            insert_loop fuel seq t1 key v None 0 = Ret t' ∧
            _probe_sequence hash t' key = Ret seq.
Proof.
  destruct fuel as [|fuel]; [done|]. rewrite insert_S.
  intros (lf & _ & (t1 & _ & (seq & Hseq & Hloop)%bind_Ret)%bind_Ret)%bind_Ret.
  exists t1, seq. split; [done|]. split; [done|].
  rewrite <- Hseq. apply insert_loop_frame in Hloop as []; [|done].
  by apply probe_sequence_frame.
Qed.

(** The round trip, for every call of [insert] that returns: [get] then
    returns the inserted value, within the same number of probes. *)
Lemma insert_then_get fuel t key v t' :
  insert hash fuel t key v = Ret t' → get hash fuel t' key = Ret v.
Proof.
  intros (t1 & seq & _ & Hloop & Hseq)%insert_inv.
  apply insert_loop_then_get in Hloop as (i & Hi & Hfind & Hv).
  unfold get. rewrite Hseq. cbn [bind]. rewrite <- Hv.
  by apply get_loop_finds.
Qed.

Lemma insert_then_remove fuel t key v t' :
  insert hash fuel t key v = Ret t' →
  ∃ t'', remove hash fuel t' key = Ret (true, t'') ∧
         _size t'' = _size t' - 1.
Proof.
  intros (t1 & seq & _ & Hloop & Hseq)%insert_inv.
  apply insert_loop_then_get in Hloop as (i & Hi & Hfind & Hv).
  unfold remove. rewrite Hseq. cbn [bind].
  rewrite (remove_loop_finds _ _ _ i) by done.
  destruct Hfind as [_ Hk].
  destruct (py_setitem_total _ _ KDeleted _ Hk) as [ks ->].
  destruct (py_setitem_total _ _ VNone _ Hv) as [vs ->].
  simpl. eauto.
Qed.

End RoundTrip.

(** C10. After [insert(k, None)] has returned, the key cannot be told from
    an absent one by the queries, [get(k)] is [None] and [contains(k)] is
    [False], and yet [remove(k)] on that state returns [True] and
    decrements the size. *)
Theorem none_value_hides_key (hash : string → Z) (t : table) (k : string)
    (fuel : nat) (t' : table) :
  insert hash fuel t k VNone = Ret t' →
  get hash fuel t' k = Ret VNone ∧
  contains hash fuel t' k = Ret false ∧
  ∃ t'', remove hash fuel t' k = Ret (true, t'') ∧ size t'' = size t' - 1.
Proof.
  intros H. pose proof (insert_then_get hash _ _ _ _ _ H) as Hget.
  split; [done|]. split.
  - unfold contains. by rewrite Hget.
  - by eapply insert_then_remove.
Qed.

(** ** The collision counter *)

Lemma insert_loop_reuse_counts seq key v fuel t d i t' :
  insert_loop fuel seq t key v (Some d) i = Ret t' →
  py_getitem (_keys t) d = Ret KDeleted →
  _size t' = _size t + 1 →
  collisions t < collisions t'.
Proof.
  revert t i. induction fuel as [|fuel IH]; intros t i; [done|].
  loop_step Hk.
  - intros (ks & Hks & (vs & Hvs & [= <-])%bind_Ret)%bind_Ret Hd _.
    destruct (d =? seq i) eqn:E; simpl; [|lia].
    apply Z.eqb_eq in E as ->. congruence.
  - apply IH.
  - destruct (String.eqb s key).
    + intros (vs & Hvs & [= <-])%bind_Ret _. simpl. lia.
    + intros H Hd Hsz. apply IH in H; [|done|done]. simpl in H. lia.
Qed.

Lemma insert_loop_new_collisions seq key v fuel t t' :
  insert_loop fuel seq t key v None 0 = Ret t' →
  _size t' = _size t + 1 →
  collisions t ≤ collisions t' ∧
  (collisions t' = collisions t ↔
   py_getitem (_keys t) (seq 0%nat) = Ret KNone).
Proof.
  intros H Hsz. split.
  { apply insert_loop_frame in H as []; done. }
  destruct fuel as [|fuel]; [done|]. revert H. loop_step Hk.
  - intros (ks & Hks & (vs & Hvs & [= <-])%bind_Ret)%bind_Ret.
    by rewrite Z.eqb_refl.
  - intros H. apply insert_loop_reuse_counts in H; [|done|done].
    split; [lia|done].
  - destruct (String.eqb s key).
    + intros (vs & Hvs & [= <-])%bind_Ret. simpl in Hsz. lia.
    + intros H. apply insert_loop_frame in H as []; [|done].
      simpl in *. split; [lia|done].
Qed.

(** C6, as it stands, fails: "h" is a new key, it lands in the cell at
    index 6, which is its first probe index, and [collisions] goes from 0
    to 1 all the same, because the cell was a tombstone. *)
Lemma tombstone_reuse_counts_as_collision :
  scenario_tombstone_reuse builtin_hash0 =
  Ret (Some KDeleted, 0, 0, 6, Some (KStr "h"), 1, 1).
Proof. vm_compute. reflexivity. Qed.

(** C6, amended. For an insert of a new key that lands on a cell without
    a rehash before it (the size grows by one), [collisions] never
    decreases, and it is left unchanged if and only if the first probed
    cell is [None], that is when no occupied cell and no tombstone had to
    be stepped over. *)
Theorem collisions_on_new_key (hash : string → Z) (t : table) (key : string)
    (v : pyval) (fuel : nat) (t' : table) (lf : QArith_base.Q) :
  load_factor t = Ret lf →
  QArith_base.Qle_bool (_load_factor_threshold t) lf = false →
  insert hash fuel t key v = Ret t' →
  size t' = size t + 1 →
  ∃ seq, _probe_sequence hash t key = Ret seq ∧
         collisions t ≤ collisions t' ∧
         (collisions t' = collisions t ↔
          py_getitem (_keys t) (seq 0%nat) = Ret KNone).
Proof.
  intros Hlf Hthr H Hsz. destruct fuel as [|fuel]; [done|].
  rewrite insert_S, Hlf in H. cbn [bind] in H. rewrite Hthr in H.
  cbn [bind] in H. apply bind_Ret in H as (seq & Hseq & Hloop).
  exists seq. split; [done|]. by eapply insert_loop_new_collisions.
Qed.

(** ** The default second hash *)

Section DefaultStep.
Variable hash : string → Z.

Lemma default_probe_step t key :
  wf t → _second_hash t = SecondDefault →
  probe_step hash t key = Ret (1 + hash key mod (_capacity t - 1)).
Proof.
  intros (Hcap & _) Hs. unfold probe_step, second_hash_call, py_mod.
  rewrite Hs. destruct (_capacity t - 1 =? 0) eqn:E1; [lia|]. cbn [bind].
  destruct (_capacity t =? 0) eqn:E0; [lia|]. cbn [bind].
  assert (0 ≤ hash key mod (_capacity t - 1) < _capacity t - 1)
    by (apply Z.mod_pos_bound; lia).
  rewrite Z.mod_small by lia.
  by replace (1 + hash key mod (_capacity t - 1) =? 0) with false
    by (symmetry; apply Z.eqb_neq; lia).
Qed.

Lemma insert_all_funcs ins items t t' :
  (∀ t k v t', ins t k v = Ret t' → same_funcs t t') →
  insert_all ins items t = Ret t' → same_funcs t t'.
Proof.
  intros Hins. revert t. induction items as [|[k v] items IH]; intros t; simpl.
  - intros [= <-]. apply same_funcs_refl.
  - intros (t1 & H1 & H2)%bind_Ret.
    eapply same_funcs_trans; [by eapply Hins|by apply IH].
Qed.

Lemma insert_funcs fuel t key v t' :
  insert hash fuel t key v = Ret t' → same_funcs t t'.
Proof.
  revert t key v t'. induction fuel as [|fuel IH]; intros t key v t'; [done|].
  rewrite insert_S.
  intros (lf & _ & (t1 & H1 & (seq & _ & Hloop)%bind_Ret)%bind_Ret)%bind_Ret.
  apply insert_loop_frame in Hloop as []; [|done].
  eapply same_funcs_trans; [|done].
  destruct (QArith_base.Qle_bool _ _).
  - apply insert_all_funcs in H1; [|apply IH]. exact H1.
  - injection H1 as <-. apply same_funcs_refl.
Qed.

Lemma op_step_funcs t t' : op_step hash t t' → same_funcs t t'.
Proof.
  destruct 1 as [fuel t key v t' H|fuel t key b t' H|fuel t c t' H].
  - by eapply insert_funcs.
  - apply bind_Ret in H as (seq & _ & Hloop).
    by apply remove_loop_frame in Hloop as [].
  - apply insert_all_funcs in H; [exact H|]. intros ????. apply insert_funcs.
Qed.

Lemma reachable_from_funcs t0 t : reachable_from hash t0 t → same_funcs t0 t.
Proof.
  induction 1; [apply same_funcs_refl|].
  eapply same_funcs_trans; [by apply op_step_funcs|done].
Qed.

End DefaultStep.

(** C5, as it stands, fails: with [hash_func=simple_hash] and the default
    second hash, in an interpreter whose built-in hash of "a" is 177670,
    the step of "a" at capacity 7 is 1 + 177670 % 6 = 5, where the primary
    hash would give 1 + 97 % 6 = 2. *)
Lemma default_step_ignores_hash_func :
  scenario_default_step builtin_hash0 = Ret (5, 2).
Proof. vm_compute. reflexivity. Qed.

(** C5, amended. When a table is constructed without a second hash
    function, then in every state it goes through the step of a key is
    1 + (hash(key) % (capacity - 1)) for the built-in [hash], computed
    with the capacity of that state; it is derived from the primary hash
    function only when no [hash_func] was given either, the primary hash
    being the built-in one then. *)
Theorem default_step_from_builtin_hash (hash : string → Z) (cap : Z)
    (hash_func : option (string → Z)) (mode : string)
    (thr : QArith_base.Q) (t0 t : table) (key : string) :
  __init__ hash cap hash_func None mode thr = Ret t0 →
  reachable_from hash t0 t →
  probe_step hash t key = Ret (1 + hash key mod (capacity t - 1)) ∧
  (hash_func = None → _hash_func t = hash).
Proof.
  intros Hinit Hreach.
  pose proof (reachable_from_funcs hash _ _ Hreach) as (Hh & Hs & _).
  pose proof (init_counted _ _ _ _ _ _ _ Hinit) as Hc.
  apply (reachable_from_counted hash _ _ Hreach) in Hc as [Hwf _].
  unfold __init__ in Hinit. destruct (_ || _); [|done].
  injection Hinit as <-. simpl in *. split.
  - by apply default_probe_step.
  - intros ->. done.
Qed.

(** ** Double hashing with a step that divides the capacity *)

Section Double.
Variable hash : string → Z.

Lemma probe_sequence_double t key step :
  _capacity t ≠ 0 → String.eqb (_mode t) "linear" = false →
  probe_step hash t key = Ret step →
  _probe_sequence hash t key =
  Ret (fun i => (_hash_func t key mod _capacity t + Z.of_nat i * step)
                mod _capacity t).
Proof.
  intros Hcap Hmode Hstep. unfold _probe_sequence, py_mod.
  destruct (_capacity t =? 0) eqn:E0; [lia|]. cbn [bind].
  by rewrite Hmode, Hstep.
Qed.

(** Two runs of [_rehash] that differ in fuel only agree, unless one of
    them runs out of it. *)
Lemma rehash_with_agree n m t c t' :
  rehash_with (insert hash n) t c = Ret t' →
  rehash_with (insert hash m) t c = Ret t' ∨
  rehash_with (insert hash m) t c = OutOfFuel.
Proof.
  intros Hn. destruct (Nat.le_ge_cases n m) as [Hle|Hle].
  - left. by apply (rehash_fuel_Ret hash n m).
  - destruct (rehash_with (insert hash m) t c) as [t''| |] eqn:Hm; [| |by right].
    + left. apply (rehash_fuel_Ret hash m n) in Hm; [|done].
      unfold _rehash in Hm. congruence.
    + pose proof (insert_all_mono (insert hash m) (insert hash n)
                    (old_items t) (reallocate t (Z.max 3 c))) as Hmono.
      unfold rehash_with in *. rewrite Hm, Hn in Hmono.
      discriminate Hmono; [|done].
      intros t0 k v Hr. by apply insert_mono.
Qed.

Lemma rehashed_double_cycle (m : nat) :
  let idx := (7 + Z.of_nat m * 10) mod 15 in
  idx = 7 ∨ idx = 2 ∨ idx = 12.
Proof.
  intros idx.
  assert (0 ≤ Z.of_nat m mod 3 < 3) as Hr by (apply Z.mod_pos_bound; lia).
  assert (idx = (7 + Z.of_nat m mod 3 * 10) mod 15) as ->.
  { subst idx. rewrite (Z.div_mod (Z.of_nat m) 3) at 1 by lia.
    replace (7 + (3 * (Z.of_nat m / 3) + Z.of_nat m mod 3) * 10)
      with (7 + Z.of_nat m mod 3 * 10 + (2 * (Z.of_nat m / 3)) * 15) by ring.
    apply Z_mod_plus_full. }
  assert (Z.of_nat m mod 3 = 0 ∨ Z.of_nat m mod 3 = 1 ∨ Z.of_nat m mod 3 = 2)
    as [-> | [-> | ->]] by lia;
    [left|right; left|right; right]; reflexivity.
Qed.

Lemma rehashed_double_skips (m : nat) :
  skippable (_keys rehashed_double) ((7 + Z.of_nat m * 10) mod 15) "p".
Proof.
  right. destruct (rehashed_double_cycle m) as [-> | [-> | ->]].
  - exists "a". split; [reflexivity|discriminate].
  - exists "z". split; [reflexivity|discriminate].
  - exists "u". split; [reflexivity|discriminate].
Qed.

Lemma insert_p_rehashed_double fuel v :
  (seq <- _probe_sequence hash rehashed_double "p" ;;
   insert_loop fuel seq rehashed_double "p" v None 0) = OutOfFuel.
Proof.
  rewrite (probe_sequence_double _ _ 10);
    [|discriminate|reflexivity|reflexivity].
  cbn [bind]. apply insert_loop_diverges. intros m _.
  exact (rehashed_double_skips m).
Qed.

End Double.

(** C8. The two modes do not behave alike on one and the same sequence of
    operations.  With capacity 7, [simple_hash] and [djb2], the inserts of
    "a", "u", "z", "j", "l" leave the same cells in both modes.  The insert
    of "p" then rehashes to capacity 15; in linear mode it returns and
    [get("p")] answers 5, in double mode it does not return: the step of
    "p" is 10, and its probes 7, 2, 12, 7, ... hold "a", "z" and "u". *)
Theorem double_mode_insert_hangs (hash : string → Z) :
  five_inserts hash "linear" = Ret (five_keys_table "linear") ∧
  five_inserts hash "double" = Ret (five_keys_table "double") ∧
  insert hash 15 (five_keys_table "linear") "p" (VInt 5)
    = Ret six_keys_linear ∧
  get hash 15 six_keys_linear "p" = Ret (VInt 5) ∧
  ∀ fuel, insert hash fuel (five_keys_table "double") "p" (VInt 5)
          = OutOfFuel.
Proof.
  split; [reflexivity|]. split; [reflexivity|].
  split; [reflexivity|]. split; [reflexivity|].
  intros [|fuel]; [reflexivity|]. rewrite insert_S.
  change (load_factor (five_keys_table "double"))
    with (Ret (QArith_base.Qdiv (QArith_base.inject_Z 5)
                                (QArith_base.inject_Z 7))).
  cbn [bind].
  change (QArith_base.Qle_bool _ _) with true. cbv iota.
  assert (rehash_with (insert hash 1) (five_keys_table "double") 15
          = Ret rehashed_double) as H1 by reflexivity.
  change (_capacity (five_keys_table "double") * 2 + 1) with 15.
  destruct (rehash_with_agree hash _ fuel _ _ _ H1) as [-> | ->];
    [|reflexivity].
  cbn [bind]. apply insert_p_rehashed_double.
Qed.

(** ** Walks that cover the table *)

Lemma linear_covers cap h1 idx :
  0 < cap → 0 ≤ idx < cap →
  ∃ i, (i < Z.to_nat cap)%nat ∧ (h1 + Z.of_nat i) mod cap = idx.
Proof.
  intros Hcap Hidx.
  assert (0 ≤ (idx - h1) mod cap < cap) as Hr by (by apply Z.mod_pos_bound).
  exists (Z.to_nat ((idx - h1) mod cap)). split; [lia|].
  rewrite Z2Nat.id by lia. rewrite Z.add_mod_idemp_r by lia.
  replace (h1 + (idx - h1)) with idx by ring. apply Z.mod_small. lia.
Qed.

Lemma stepped_covers cap h1 step idx :
  0 < cap → Z.gcd step cap = 1 → 0 ≤ idx < cap →
  ∃ i, (i < Z.to_nat cap)%nat ∧ (h1 + Z.of_nat i * step) mod cap = idx.
Proof.
  intros Hcap Hgcd Hidx.
  destruct (Z.gcd_bezout step cap 1 Hgcd) as (a & b & Hab).
  assert (0 ≤ ((idx - h1) * a) mod cap < cap) as Hr
    by (by apply Z.mod_pos_bound).
  exists (Z.to_nat (((idx - h1) * a) mod cap)). split; [lia|].
  rewrite Z2Nat.id by lia.
  rewrite <- Z.add_mod_idemp_r, Z.mul_mod_idemp_l, Z.add_mod_idemp_r by lia.
  replace (h1 + (idx - h1) * a * step)
    with (idx + (- ((idx - h1) * b)) * cap).
  - rewrite Z_mod_plus_full. apply Z.mod_small. lia.
  - replace ((idx - h1) * a * step) with ((idx - h1) * (a * step)) by ring.
    replace (a * step) with (1 - b * cap) by lia. ring.
Qed.

Lemma coprime_101 s : 1 ≤ s < 101 → Z.gcd s 101 = 1.
Proof.
  intros Hs.
  assert (forallb (fun n => Z.gcd (Z.of_nat n) 101 =? 1) (seq 1 100) = true)
    as Hall by (vm_compute; reflexivity).
  rewrite forallb_forall in Hall.
  specialize (Hall (Z.to_nat s)). rewrite Z2Nat.id in Hall by lia.
  apply Z.eqb_eq, Hall, in_seq. lia.
Qed.

(** The first probe at which a walk stops, if it stops at all. *)
Lemma first_stop ks seq key n :
  in_range seq (Z.of_nat (length ks)) →
  (∃ i, (i < n)%nat ∧
        (py_getitem ks (seq i) = Ret KNone ∨
         py_getitem ks (seq i) = Ret (KStr key))) →
  ∃ i, (i < n)%nat ∧ skips_before ks seq key i ∧
       (py_getitem ks (seq i) = Ret KNone ∨
        py_getitem ks (seq i) = Ret (KStr key)).
Proof.
  intros Hr (i0 & Hi0 & Hstop).
  assert (∀ n, (∃ i, (i < n)%nat ∧ skips_before ks seq key i ∧
                     (py_getitem ks (seq i) = Ret KNone ∨
                      py_getitem ks (seq i) = Ret (KStr key)))
               ∨ skips_before ks seq key n) as Hfirst.
  { clear -Hr. intros n. induction n as [|n [(i & Hi & H)|Hskip]].
    - right. intros m Hm. lia.
    - left. exists i. split; [lia|done].
    - destruct (py_getitem_total ks (seq n) (Hr n)) as [[| |s] Hk].
      + left. exists n. split; [lia|]. split; [done|by left].
      + right. apply skips_before_S; [done|by left].
      + destruct (decide (s = key)) as [->|Hne].
        * left. exists n. split; [lia|]. split; [done|by right].
        * right. apply skips_before_S; [done|]. right. eauto. }
  destruct (Hfirst n) as [H|Hskip]; [done|].
  destruct (Hskip i0 Hi0) as [Hk|(s & Hk & Hne)], Hstop as [Hs|Hs];
    congruence.
Qed.

Section Cycle.
Variable hash : string → Z.

Lemma probe_of_wf t key :
  wf t →
  _probe_sequence hash t key = Ret (probe_of hash t key) ∧
  in_range (probe_of hash t key) (_capacity t).
Proof.
  intros Hwf. destruct (probe_sequence_wf hash t key Hwf) as (seq & Hs & Hr).
  unfold probe_of. by rewrite Hs.
Qed.

Lemma probe_of_frame t t' key :
  _capacity t' = _capacity t → same_funcs t t' →
  probe_of hash t' key = probe_of hash t key.
Proof.
  intros Hcap Hf. unfold probe_of. by rewrite (probe_sequence_frame hash t t').
Qed.

Lemma probe_step_range t key step :
  wf t → probe_step hash t key = Ret step → 1 ≤ step < _capacity t.
Proof.
  intros (Hcap & _). unfold probe_step.
  intros (s & _ & (r & Hr & [= <-])%bind_Ret)%bind_Ret.
  unfold py_mod in Hr. destruct (_capacity t =? 0); [done|].
  injection Hr as <-.
  assert (0 ≤ s mod _capacity t < _capacity t)
    by (apply Z.mod_pos_bound; lia).
  destruct (s mod _capacity t =? 0) eqn:E; lia.
Qed.

Lemma full_cycle_linear t :
  wf t → _mode t = "linear" → full_cycle hash t.
Proof.
  intros Hwf Hmode key idx Hidx. unfold probe_of.
  rewrite probe_sequence_linear; [|destruct Hwf; lia|done].
  apply linear_covers; [destruct Hwf; lia|done].
Qed.

Lemma full_cycle_coprime t :
  wf t →
  (∀ key step, probe_step hash t key = Ret step →
               Z.gcd step (_capacity t) = 1) →
  full_cycle hash t.
Proof.
  intros Hwf Hgcd key idx Hidx.
  assert (0 < _capacity t) as Hcap by (destruct Hwf; lia).
  destruct (String.eqb (_mode t) "linear") eqn:Hmode.
  - apply String.eqb_eq in Hmode. by apply full_cycle_linear.
  - destruct (probe_sequence_wf hash t key Hwf) as (seq & Hs & _).
    unfold probe_of. rewrite Hs. revert Hs. unfold _probe_sequence, py_mod.
    destruct (_capacity t =? 0); [done|]. cbn [bind]. rewrite Hmode.
    intros (step & Hstep & [= <-])%bind_Ret.
    apply stepped_covers; [done|by eapply Hgcd|done].
Qed.

End Cycle.

(** ** Inserting a new key *)

Lemma py_getitem_setitem_other {A : Type} (l l' : list A) d x i :
  py_setitem l d x = Ret l' →
  0 ≤ i < Z.of_nat (length l) → 0 ≤ d < Z.of_nat (length l) → i ≠ d →
  py_getitem l' i = py_getitem l i.
Proof.
  intros Hset Hi Hd Hne. rewrite py_setitem_in_range in Hset by done.
  injection Hset as <-. unfold py_getitem.
  rewrite (py_index_length (<[Z.to_nat d:=x]> l) l) by apply length_insert.
  rewrite py_index_in_range by done.
  rewrite list_lookup_insert_ne; [done|lia].
Qed.

Lemma py_getitem_elem_of {A : Type} (l : list A) i x :
  py_getitem l i = Ret x → x ∈ l.
Proof.
  intros (j & _ & Hj)%py_getitem_Ret. by eapply list_elem_of_lookup_2.
Qed.

Lemma elem_of_py_getitem {A : Type} (l : list A) x :
  x ∈ l → ∃ i, 0 ≤ i < Z.of_nat (length l) ∧ py_getitem l i = Ret x.
Proof.
  intros (j & Hj)%list_elem_of_lookup_1. exists (Z.of_nat j).
  pose proof (lookup_lt_Some _ _ _ Hj).
  split; [lia|]. apply py_getitem_in_range; [lia|]. by rewrite Nat2Z.id.
Qed.

Lemma py_setitem_elem_of {A : Type} (l l' : list A) d x y :
  py_setitem l d x = Ret l' → y ∈ l' → y = x ∨ y ∈ l.
Proof.
  intros (j & _ & ->)%py_setitem_Ret (k & Hk)%list_elem_of_lookup_1.
  destruct (decide (j = k)) as [->|Hne].
  - destruct (decide (k < length l)%nat).
    + rewrite list_lookup_insert_eq in Hk by done. left. congruence.
    + rewrite list_insert_ge in Hk by lia. right.
      by eapply list_elem_of_lookup_2.
  - rewrite list_lookup_insert_ne in Hk by done. right.
    by eapply list_elem_of_lookup_2.
Qed.

Lemma exists_empty ks :
  KDeleted ∉ ks → occupied ks < Z.of_nat (length ks) → KNone ∈ ks.
Proof.
  induction ks as [|k ks IH]; simpl; [lia|]. intros Hdel Hocc.
  destruct k as [| |s]; simpl in *.
  - left.
  - exfalso. apply Hdel. left.
  - right. apply IH; [|lia]. intros H. apply Hdel. by right.
Qed.

(** A walk has one stopping point. *)
Lemma finds_misses_excl ks seq key i j :
  finds_at ks seq key i → misses_at ks seq key j → False.
Proof.
  intros [Hs1 Hk1] [Hs2 Hk2].
  destruct (Nat.lt_trichotomy i j) as [Hlt|[->|Hlt]].
  - destruct (Hs2 i Hlt) as [H|(s & H & Hne)]; congruence.
  - congruence.
  - destruct (Hs1 j Hlt) as [H|(s & H & Hne)]; congruence.
Qed.

Lemma finds_at_le ks seq key i j :
  finds_at ks seq key i → py_getitem ks (seq j) = Ret (KStr key) →
  (i ≤ j)%nat.
Proof.
  intros [Hs _] Hj. destruct (decide (i ≤ j)%nat); [done|].
  destruct (Hs j) as [H|(s & H & Hne)]; [lia|congruence|congruence].
Qed.

Section NewKey.
Variable hash : string → Z.
Variables (t t' : table) (key : string) (v : pyval) (i m : nat).
Hypothesis Hwf : wf t.
Hypothesis Hframe : loop_frame t t'.
Hypothesis Hnew : lands_new (probe_of hash t key) key v t t' i m.

Lemma new_key_wf : wf t'.
Proof.
  destruct Hframe, Hwf as (? & ? & ?). split; [|split]; congruence.
Qed.

Lemma new_key_probe_of k : probe_of hash t' k = probe_of hash t k.
Proof. destruct Hframe. by apply probe_of_frame. Qed.

Lemma new_key_capacity : _capacity t' = _capacity t.
Proof. by destruct Hframe. Qed.

Lemma new_key_target :
  let d := probe_of hash t key m in
  0 ≤ d < _capacity t ∧
  (∃ b, py_getitem (_keys t) d = Ret b ∧ is_str b = false ∧
        (b = KNone ∨ b = KDeleted)) ∧
  py_setitem (_keys t) d (KStr key) = Ret (_keys t') ∧
  py_setitem (_values t) d v = Ret (_values t').
Proof.
  intros d. destruct Hnew as ([_ Hnone] & (Hle & _ & Hdel) & Hks & Hvs & _).
  split; [by apply probe_of_wf|]. split; [|done].
  destruct (decide (m = i)) as [->|]; [by exists KNone; auto|].
  exists KDeleted. split; [apply Hdel; lia|auto].
Qed.

Lemma new_key_keys_other idx :
  0 ≤ idx < _capacity t → idx ≠ probe_of hash t key m →
  py_getitem (_keys t') idx = py_getitem (_keys t) idx.
Proof.
  intros Hidx Hne. destruct new_key_target as (Hd & _ & Hks & _).
  destruct Hwf as (? & Hlen & _).
  eapply py_getitem_setitem_other; [done|lia|lia|done].
Qed.

Lemma new_key_values_other idx :
  0 ≤ idx < _capacity t → idx ≠ probe_of hash t key m →
  py_getitem (_values t') idx = py_getitem (_values t) idx.
Proof.
  intros Hidx Hne. destruct new_key_target as (Hd & _ & _ & Hvs).
  destruct Hwf as (? & _ & Hlen).
  eapply py_getitem_setitem_other; [done|lia|lia|done].
Qed.

Lemma new_key_keys_target :
  py_getitem (_keys t') (probe_of hash t key m) = Ret (KStr key).
Proof.
  destruct new_key_target as (_ & _ & Hks & _).
  by eapply py_getitem_setitem_eq.
Qed.

Lemma new_key_values_target :
  py_getitem (_values t') (probe_of hash t key m) = Ret v.
Proof.
  destruct new_key_target as (_ & _ & _ & Hvs).
  by eapply py_getitem_setitem_eq.
Qed.

Lemma new_key_holds : holds t' key v.
Proof.
  exists (probe_of hash t key m). rewrite new_key_capacity.
  split; [apply new_key_target|].
  split; [apply new_key_keys_target|apply new_key_values_target].
Qed.

Lemma new_key_holds_other k w : holds t k w → holds t' k w.
Proof.
  intros (idx & Hidx & Hk & Hw). exists idx. rewrite new_key_capacity.
  destruct new_key_target as (_ & (b & Hb & _ & Hcase) & _).
  assert (idx ≠ probe_of hash t key m) as Hne.
  { intros ->. rewrite Hb in Hk. destruct Hcase; congruence. }
  split; [done|].
  by rewrite new_key_keys_other, new_key_values_other.
Qed.

Lemma new_key_holds_inv k w :
  holds t' k w → (k = key ∧ w = v) ∨ holds t k w.
Proof.
  intros (idx & Hidx & Hk & Hw). rewrite new_key_capacity in Hidx.
  destruct (decide (idx = probe_of hash t key m)) as [->|Hne].
  - left. rewrite new_key_keys_target in Hk.
    rewrite new_key_values_target in Hw. split; congruence.
  - right. exists idx.
    rewrite new_key_keys_other in Hk by done.
    by rewrite new_key_values_other in Hw by done.
Qed.

Lemma new_key_absent k :
  KStr k ∉ _keys t → k ≠ key → KStr k ∉ _keys t'.
Proof.
  intros Habs Hne Hin. destruct new_key_target as (_ & _ & Hks & _).
  destruct (py_setitem_elem_of _ _ _ _ _ Hks Hin); [congruence|done].
Qed.

Lemma new_key_no_tombstone : KDeleted ∉ _keys t → KDeleted ∉ _keys t'.
Proof.
  intros Habs Hin. destruct new_key_target as (_ & _ & Hks & _).
  destruct (py_setitem_elem_of _ _ _ _ _ Hks Hin); [congruence|done].
Qed.

Lemma new_key_cycle : full_cycle hash t → full_cycle hash t'.
Proof.
  intros Hc k idx. rewrite new_key_capacity, new_key_probe_of. apply Hc.
Qed.

Lemma new_key_reach : probe_reachable hash t → probe_reachable hash t'.
Proof.
  intros Hreach idx s Hidx Hs. rewrite new_key_capacity in Hidx.
  rewrite new_key_probe_of.
  destruct (decide (idx = probe_of hash t key m)) as [->|Hne].
  - rewrite new_key_keys_target in Hs. injection Hs as <-.
    exists m. split; [|done]. by eapply lands_new_finds.
  - rewrite new_key_keys_other in Hs by done.
    destruct (Hreach idx s Hidx Hs) as (i0 & [Hskip Hfound] & Hi0).
    assert (s ≠ key) as Hsk.
    { intros ->. destruct Hnew as (Hmiss & _).
      by eapply finds_misses_excl. }
    exists i0. split; [|done]. split.
    + intros m' Hm'.
      destruct (decide (probe_of hash t s m' = probe_of hash t key m))
        as [Heq|Hneq].
      * right. exists key. rewrite Heq. split; [|done].
        apply new_key_keys_target.
      * unfold skippable. rewrite new_key_keys_other;
          [by apply Hskip|by apply probe_of_wf|done].
    + rewrite Hi0. by rewrite new_key_keys_other.
Qed.

End NewKey.

Section InsertNew.
Variable hash : string → Z.

Lemma insert_new_key fuel t key v :
  good hash t → KStr key ∉ _keys t → _size t < _capacity t →
  below_threshold t (_capacity t) (_size t) (_size t + 1) →
  (Z.to_nat (_capacity t) ≤ fuel)%nat →
  ∃ t', insert hash fuel t key v = Ret t' ∧ extends hash t t' key v.
Proof.
  intros [[Hwf Hsz] Hreach Hdel Hcyc] Habs Hroom Hthr Hfuel.
  pose proof Hwf as (Hcap & Hlk & Hlv).
  destruct fuel as [|fuel]; [lia|]. rewrite insert_S. unfold load_factor.
  destruct (_capacity t =? 0) eqn:E0; [lia|]. cbn [bind].
  rewrite Hthr by lia. cbn [bind].
  destruct (probe_of_wf hash t key Hwf) as [-> Hr]. cbn [bind].
  set (seq := probe_of hash t key) in *.
  (* the walk meets an empty cell *)
  assert (∃ i, (i < S fuel)%nat ∧ skips_before (_keys t) seq key i ∧
               (py_getitem (_keys t) (seq i) = Ret KNone ∨
                py_getitem (_keys t) (seq i) = Ret (KStr key)))
    as (i & Hi & Hskip & Hstop).
  { destruct (elem_of_py_getitem (_keys t) KNone) as (idx & Hidx & Hnone).
    { apply exists_empty; [done|]. rewrite <- Hsz. lia. }
    destruct (Hcyc key idx) as (i0 & Hi0 & Hp); [lia|].
    destruct (first_stop (_keys t) seq key (S fuel)) as (i & Hi & H).
    - intros j. rewrite Hlk. specialize (Hr j). lia.
    - exists i0. split; [lia|]. left. unfold seq. by rewrite Hp.
    - eauto. }
  destruct (insert_loop_returns_0 seq key v i t (S fuel)) as [t' Ht'];
    [congruence|done|done|done|].
  exists t'. split; [done|].
  pose proof (insert_loop_frame _ _ _ _ _ _ _ _ Ht') as Hframe.
  specialize (Hframe ltac:(done)).
  apply insert_loop_outcome_0 in Ht' as (i' & _ & [Hup|[m Hnew]]).
  { destruct Hup as ([_ Hk] & _). exfalso. apply Habs.
    by eapply py_getitem_elem_of. }
  split.
  - split.
    + split; [by eapply new_key_wf|].
      destruct Hframe, Hnew as (_ & _ & _ & _ & ?). lia.
    + by eapply new_key_reach.
    + by eapply new_key_no_tombstone.
    + by eapply new_key_cycle.
  - by destruct Hframe.
  - by destruct Hnew as (_ & _ & _ & _ & ?).
  - by destruct Hframe.
  - by destruct Hframe.
  - by eapply new_key_holds.
  - intros k w. by eapply new_key_holds_other.
  - intros k w. by eapply new_key_holds_inv.
  - intros k. by eapply new_key_absent.
Qed.

(** [get] finds whatever the table holds, within [_capacity] probes. *)
Lemma get_of_holds fuel t k v :
  good hash t → holds t k v → (Z.to_nat (_capacity t) ≤ fuel)%nat →
  get hash fuel t k = Ret v.
Proof.
  intros [[Hwf _] Hreach _ Hcyc] (idx & Hidx & Hk & Hv) Hfuel.
  destruct (Hreach idx k Hidx Hk) as (i & Hfind & Hi).
  destruct (Hcyc k idx Hidx) as (i0 & Hi0 & Hp).
  assert (i ≤ i0)%nat by (eapply finds_at_le; [done|by rewrite Hp]).
  unfold get. destruct (probe_of_wf hash t k Hwf) as [-> _]. cbn [bind].
  rewrite (get_loop_finds _ _ _ i) by (done || lia). by rewrite Hi.
Qed.

Lemma below_threshold_funcs t t' cap lo hi :
  same_funcs t t' → below_threshold t cap lo hi → below_threshold t' cap lo hi.
Proof. intros (_ & _ & _ & Hthr) H s Hs. rewrite Hthr. by apply H. Qed.

Lemma below_threshold_sub t cap lo hi lo' hi' :
  lo ≤ lo' → hi' ≤ hi → below_threshold t cap lo hi →
  below_threshold t cap lo' hi'.
Proof. intros ?? H s Hs. apply H. lia. Qed.

Lemma insert_all_new_keys fuel items t :
  good hash t → NoDup items.*1 →
  (∀ k, k ∈ items.*1 → KStr k ∉ _keys t) →
  _size t + Z.of_nat (length items) ≤ _capacity t →
  below_threshold t (_capacity t) (_size t)
    (_size t + Z.of_nat (length items)) →
  (Z.to_nat (_capacity t) ≤ fuel)%nat →
  ∃ t', insert_all (insert hash fuel) items t = Ret t' ∧
        extends_all hash t t' items.
Proof.
  revert t. induction items as [|[k v] items IH];
    intros t Hgood Hnd Habs Hroom Hthr Hfuel.
  - exists t. split; [done|].
    split; try done; simpl; try lia; auto using same_funcs_refl.
    intros k w H. by apply elem_of_nil in H.
  - simpl in *. apply NoDup_cons in Hnd as [Hk Hnd].
    destruct (insert_new_key fuel t k v) as (t1 & -> & H1);
      [done| |lia| |done|].
    { apply Habs, elem_of_cons. by left. }
    { eapply below_threshold_sub; [| |done]; lia. }
    cbn [bind]. destruct H1 as [Hg1 Hc1 Hs1 Hf1 Hco1 Hh1 Hho1 Hhi1 Ha1].
    destruct (IH t1) as (t' & -> & H2); [done|done| | | |lia|].
    { intros k' Hk'. apply Ha1.
      - apply Habs, elem_of_cons. by right.
      - intros ->. done. }
    { lia. }
    { rewrite Hc1, Hs1.
      eapply below_threshold_funcs; [done|].
      eapply below_threshold_sub; [| |done]; lia. }
    exists t'. split; [done|].
    destruct H2 as [Hg2 Hc2 Hs2 Hf2 Hco2 Hh2 Hho2 Hhi2 Ha2]. split.
    + done.
    + congruence.
    + cbn [length]. lia.
    + by eapply same_funcs_trans.
    + lia.
    + intros k' w [[= -> ->]|Hin]%elem_of_cons; auto.
    + auto.
    + intros k' w Hh. destruct (Hhi2 _ _ Hh) as [Hin|Hh1'].
      * left. apply elem_of_cons. by right.
      * destruct (Hhi1 _ _ Hh1') as [[-> ->]|Hh0]; [|by right].
        left. apply elem_of_cons. by left.
    + intros k' Hk' Hnin. apply Ha2.
      * apply Ha1; [done|]. intros ->. apply Hnin, elem_of_cons.
        by left.
      * intros Hin. apply Hnin, elem_of_cons. by right.
Qed.

End InsertNew.

(** ** The pairs [_rehash] collects *)

Lemma elem_of_items ks vs k v :
  (k, v) ∈ omap item_of (zip ks vs) ↔
  ∃ j, ks !! j = Some (KStr k) ∧ vs !! j = Some v.
Proof.
  rewrite list_elem_of_omap. split.
  - intros ([k0 v0] & Hin & Hitem).
    unfold item_of in Hitem. simpl in Hitem.
    destruct k0 as [| |s]; try done. injection Hitem as -> ->.
    apply list_elem_of_lookup_1 in Hin as [j Hj]. exists j.
    apply lookup_zip_with_Some in Hj as (x & y & [= <- <-] & ? & ?). done.
  - intros (j & Hk & Hv). exists (KStr k, v). split; [|done].
    apply (list_elem_of_lookup_2 _ j).
    apply lookup_zip_with_Some. eauto.
Qed.

Lemma length_items ks vs :
  (length ks ≤ length vs)%nat →
  Z.of_nat (length (omap item_of (zip ks vs))) = occupied ks.
Proof.
  revert vs. induction ks as [|k ks IH]; intros [|v vs] Hlen;
    cbn [length] in Hlen; try done; try lia.
  assert (length ks ≤ length vs)%nat as Hlen' by lia.
  specialize (IH vs Hlen'). cbn [zip zip_with omap list_omap occupied].
  destruct k as [| |s]; cbn [item_of fst snd is_str length]; lia.
Qed.

Lemma NoDup_items ks vs :
  (∀ j j' s, ks !! j = Some (KStr s) → ks !! j' = Some (KStr s) → j = j') →
  NoDup (omap item_of (zip ks vs)).*1.
Proof.
  revert vs. induction ks as [|k ks IH]; intros [|v vs] Huniq;
    try apply NoDup_nil_2.
  assert (NoDup (omap item_of (zip ks vs)).*1) as Hnd.
  { apply IH. intros j j' s Hj Hj'.
    specialize (Huniq (S j) (S j') s Hj Hj'). lia. }
  cbn [zip zip_with omap list_omap].
  destruct k as [| |s]; cbn [item_of fst snd fmap list_fmap]; try done.
  apply NoDup_cons. split; [|done].
  intros ([s' w] & [= <-] & Hin)%list_elem_of_fmap.
  apply elem_of_items in Hin as (j & Hj & _).
  specialize (Huniq 0%nat (S j) s eq_refl Hj). lia.
Qed.

Lemma old_items_keys t k : k ∈ (old_items t).*1 → KStr k ∈ _keys t.
Proof.
  intros ([k' w] & [= <-] & Hin)%list_elem_of_fmap.
  apply elem_of_items in Hin as (j & Hj & _).
  by eapply list_elem_of_lookup_2.
Qed.

Lemma old_items_holds t k v :
  wf t → (k, v) ∈ old_items t ↔ holds t k v.
Proof.
  intros (Hcap & Hlk & Hlv). unfold old_items, holds.
  rewrite elem_of_items. split.
  - intros (j & Hk & Hv). exists (Z.of_nat j).
    pose proof (lookup_lt_Some _ _ _ Hk).
    split; [lia|].
    rewrite !py_getitem_in_range by lia. by rewrite Nat2Z.id.
  - intros (idx & Hidx & Hk & Hv). exists (Z.to_nat idx).
    by rewrite <- !py_getitem_in_range by lia.
Qed.

Lemma old_items_length t :
  wf t → Z.of_nat (length (old_items t)) = occupied (_keys t).
Proof. intros (_ & Hlk & Hlv). apply length_items. lia. Qed.

Section Rehash.
Variable hash : string → Z.

Lemma old_items_NoDup t :
  wf t → probe_reachable hash t → NoDup (old_items t).*1.
Proof.
  intros Hwf Hreach. apply NoDup_items.
  assert (∀ j s, _keys t !! j = Some (KStr s) →
                 0 ≤ Z.of_nat j < _capacity t ∧
                 py_getitem (_keys t) (Z.of_nat j) = Ret (KStr s)) as Hget.
  { intros j s Hj. pose proof (lookup_lt_Some _ _ _ Hj).
    destruct Hwf as (? & Hlk & _). split; [lia|].
    apply py_getitem_in_range; [lia|]. by rewrite Nat2Z.id. }
  intros j j' s [Hr Hj]%Hget [Hr' Hj']%Hget.
  destruct (Hreach _ _ Hr Hj) as (i & Hfind & Hi).
  destruct (Hreach _ _ Hr' Hj') as (i' & Hfind' & Hi').
  assert (i = i') as <-.
  { apply Nat.le_antisymm; (eapply finds_at_le; [done|]).
    - by destruct Hfind'.
    - by destruct Hfind. }
  lia.
Qed.

Lemma reallocate_good t cap :
  3 ≤ cap → full_cycle hash (reallocate t cap) →
  good hash (reallocate t cap).
Proof.
  intros Hcap Hcyc. split; [|intros idx s _ H|intros H|done].
  - split; [split; [|split]|]; simpl.
    + done.
    + apply length_replicate.
    + apply length_replicate.
    + by rewrite occupied_replicate.
  - apply py_getitem_elem_of, elem_of_replicate in H as [? _]. done.
  - simpl in H. apply elem_of_replicate in H as [? _]. done.
Qed.

Lemma rehash_new_keys fuel t c :
  NoDup (old_items t).*1 →
  Z.of_nat (length (old_items t)) ≤ Z.max 3 c →
  below_threshold t (Z.max 3 c) 0 (Z.of_nat (length (old_items t))) →
  full_cycle hash (reallocate t (Z.max 3 c)) →
  (Z.to_nat (Z.max 3 c) ≤ fuel)%nat →
  ∃ t', _rehash hash fuel t c = Ret t' ∧
        extends_all hash (reallocate t (Z.max 3 c)) t' (old_items t).
Proof.
  intros Hnd Hroom Hthr Hcyc Hfuel. unfold _rehash, rehash_with.
  apply insert_all_new_keys; simpl; try done.
  - apply reallocate_good; [lia|done].
  - intros k _ H. apply elem_of_replicate in H as [? _]. done.
Qed.

(** When the size check of [insert] rehashes into a table that is below
    the threshold, the rest of the call is an insert into that table. *)
Lemma insert_after_rehash fuel t key v lf t1 lf1 :
  load_factor t = Ret lf →
  QArith_base.Qle_bool (_load_factor_threshold t) lf = true →
  rehash_with (insert hash fuel) t (_capacity t * 2 + 1) = Ret t1 →
  load_factor t1 = Ret lf1 →
  QArith_base.Qle_bool (_load_factor_threshold t1) lf1 = false →
  insert hash (S fuel) t key v = insert hash (S fuel) t1 key v.
Proof.
  intros Hlf Hthr Hre Hlf1 Hthr1.
  rewrite !insert_S, Hlf, Hlf1. cbn [bind]. by rewrite Hthr, Hre, Hthr1.
Qed.

End Rehash.

(** The size check of [insert], for a threshold [n/d] and a positive
    capacity. *)
Lemma threshold_check n d s c :
  0 < c →
  QArith_base.Qle_bool (QArith_base.Qmake n d)
    (QArith_base.Qdiv (QArith_base.inject_Z s) (QArith_base.inject_Z c))
  = (n * c <=? s * Z.pos d).
Proof.
  intros Hc. destruct c as [|p|p]; try lia.
  unfold QArith_base.Qle_bool, QArith_base.Qdiv, QArith_base.Qmult,
    QArith_base.Qinv, QArith_base.inject_Z. simpl.
  rewrite Z.mul_1_r. done.
Qed.

(** ** From the empty table of capacity 101 *)

Section Threshold.
Variable hash : string → Z.

Lemma init_fields c hf shf mode thr t :
  __init__ hash c hf shf mode thr = Ret t →
  _capacity t = Z.max 3 c ∧ _size t = 0 ∧
  _keys t = replicate (Z.to_nat (Z.max 3 c)) KNone ∧
  _load_factor_threshold t = thr.
Proof.
  unfold __init__. destruct (_ || _); [|done]. by intros [= <-].
Qed.

Lemma init_good c hf shf mode thr t :
  __init__ hash c hf shf mode thr = Ret t →
  full_cycle hash t → good hash t.
Proof.
  intros Hinit Hcyc. pose proof (init_fields _ _ _ _ _ _ Hinit) as (_ & _ & Hk & _).
  split; [by eapply init_counted| | |done].
  - intros idx s _ H. rewrite Hk in H.
    by apply py_getitem_elem_of, elem_of_replicate_inv in H.
  - rewrite Hk. by intros ?%elem_of_replicate_inv.
Qed.

Lemma full_cycle_101 t :
  wf t → _capacity t = 101 → full_cycle hash t.
Proof.
  intros Hwf Hcap. apply full_cycle_coprime; [done|].
  intros key step Hstep%probe_step_range; [|done].
  rewrite Hcap in *. by apply coprime_101.
Qed.

Lemma inserts_below_61 hf shf mode items t0 :
  __init__ hash 101 hf shf mode (QArith_base.Qmake 6 10) = Ret t0 →
  NoDup items.*1 → (length items ≤ 61)%nat →
  ∃ t, insert_all (insert hash 101) items t0 = Ret t ∧
       extends_all hash t0 t items.
Proof.
  intros Hinit Hnd Hlen.
  pose proof (init_fields _ _ _ _ _ _ Hinit) as (Hcap & Hsz & Hk & Hthr).
  change (Z.max 3 101) with 101 in Hcap.
  assert (good hash t0) as Hgood.
  { eapply init_good; [done|]. apply full_cycle_101; [|done].
    by eapply init_counted. }
  apply insert_all_new_keys; try done.
  - intros k _. rewrite Hk. by intros ?%elem_of_replicate_inv.
  - lia.
  - intros s Hs. rewrite Hthr, Hcap, threshold_check by lia.
    apply Z.leb_gt. lia.
  - rewrite Hcap. lia.
Qed.

End Threshold.

(** C3, as it stands, fails: 61 distinct keys are inserted into the empty
    table of capacity 101 with threshold 0.6 and the capacity is still 101
    afterwards, no rehash has taken place; all 61 keys are found. *)
Lemma sixty_one_inserts_do_not_rehash :
  scenario_61_inserts builtin_hash0 = Ret (101, 61, true).
Proof. vm_compute. reflexivity. Qed.

(** C3, amended. Starting from an empty table with capacity 101 and
    threshold 0.6, in either mode, inserting 61 distinct keys triggers no
    rehash: every insert returns within 101 probes, the capacity is 101
    after each of them, the size ends at 61 and [get] returns the value of
    each of the 61 keys.  The rehash is triggered by the insert of a 62nd
    key; in linear mode that insert returns, the capacity is 203 then and
    [get] returns the value of all 62 keys. *)
Theorem rehash_on_62nd_insert (hash : string → Z)
    (hash_func second_hash_func : option (string → Z)) (mode : string)
    (items : list (string * pyval)) (t0 : table) :
  __init__ hash 101 hash_func second_hash_func mode (QArith_base.Qmake 6 10)
    = Ret t0 →
  NoDup items.*1 → length items = 61%nat →
  ∃ t, insert_all (insert hash 101) items t0 = Ret t ∧
       capacity t = 101 ∧ size t = 61 ∧
       (∀ k v, (k, v) ∈ items → get hash 101 t k = Ret v) ∧
       (∀ n, ∃ tn, insert_all (insert hash 101) (take n items) t0 = Ret tn ∧
                   capacity tn = 101) ∧
       (mode = "linear" → ∀ k v, k ∉ items.*1 →
        ∃ t2, insert hash 204 t k v = Ret t2 ∧
              capacity t2 = 203 ∧ size t2 = 62 ∧
              get hash 204 t2 k = Ret v ∧
              ∀ k' v', (k', v') ∈ items → get hash 204 t2 k' = Ret v').
Proof.
  intros Hinit Hnd Hlen.
  pose proof (init_fields _ _ _ _ _ _ _ Hinit) as (Hcap0 & Hsz0 & Hk0 & Hthr0).
  change (Z.max 3 101) with 101 in Hcap0.
  destruct (inserts_below_61 hash _ _ _ items _ Hinit Hnd) as (t & Ht & Hext);
    [lia|].
  destruct Hext as [Hgood Hcap Hsz Hfuncs _ Hholds _ _ Habs].
  exists t. split; [done|]. unfold capacity, size.
  split; [congruence|]. split; [lia|]. split; [|split].
  - intros k v Hin. apply get_of_holds; [done|by apply Hholds|].
    rewrite Hcap, Hcap0. lia.
  - intros n.
    destruct (inserts_below_61 hash _ _ _ (take n items) _ Hinit)
      as (tn & Htn & [_ Hcapn _ _ _ _ _ _ _]).
    + rewrite fmap_take. eapply sublist_NoDup; [done|apply sublist_take].
    + rewrite length_take. lia.
    + exists tn. split; [done|]. congruence.
  - intros Hmode k v Hk.
    pose proof Hgood as [[Hwf Hcount] Hreach _ _].
    pose proof Hfuncs as (_ & _ & Hm & Hthr).
    assert (_mode t0 = mode) as Hm0.
    { revert Hinit. unfold __init__. destruct (_ || _); [|done].
      by intros [= <-]. }
    rewrite Hcap0 in Hcap. rewrite Hsz0, Hlen in Hsz. simpl in Hsz.
    rewrite Hthr0 in Hthr.
    (* the rehash *)
    destruct (rehash_new_keys hash 203 t (_capacity t * 2 + 1))
      as (t1 & Ht1 & [Hgood1 Hcap1 Hsz1 Hfuncs1 _ Hholds1 _ _ Habs1]).
    { by apply (old_items_NoDup hash). }
    { rewrite old_items_length, <- Hcount, Hcap by done. lia. }
    { intros s Hs. rewrite old_items_length, <- Hcount, Hsz in Hs by done.
      rewrite Hthr, Hcap.
      change (Z.max 3 (101 * 2 + 1)) with 203.
      rewrite threshold_check by lia. apply Z.leb_gt. lia. }
    { apply full_cycle_linear.
      - split; [|split]; simpl; [lia|apply length_replicate..].
      - simpl. congruence. }
    { rewrite Hcap. simpl. lia. }
    rewrite Hcap in Hcap1, Ht1. simpl in Hsz1.
    change (Z.max 3 (101 * 2 + 1)) with 203 in Hcap1. simpl in Hcap1.
    rewrite old_items_length, <- Hcount, Hsz in Hsz1 by done.
    pose proof Hfuncs1 as (_ & _ & _ & Hthr1). simpl in Hthr1.
    rewrite Hthr in Hthr1.
    (* the insert proper *)
    destruct (insert_new_key hash 204 t1 k v)
      as (t2 & Ht2 & [Hgood2 Hcap2 Hsz2 _ _ Hh2 Hho2 _ _]).
    { done. }
    { apply Habs1.
      - simpl. by intros ?%elem_of_replicate_inv.
      - intros Hin%old_items_keys. revert Hin. apply Habs; [|done].
        rewrite Hk0. by intros ?%elem_of_replicate_inv. }
    { lia. }
    { intros s Hs. rewrite Hthr1, Hcap1, threshold_check by lia.
      apply Z.leb_gt. lia. }
    { rewrite Hcap1. simpl. lia. }
    exists t2. split.
    { rewrite <- Ht2.
      eapply (insert_after_rehash hash 203 t k v).
      - unfold load_factor. rewrite Hcap, Hsz. reflexivity.
      - rewrite Hthr. reflexivity.
      - unfold _rehash in Ht1. rewrite Hcap. exact Ht1.
      - unfold load_factor. rewrite Hcap1, Hsz1. reflexivity.
      - rewrite Hthr1. reflexivity. }
    split; [congruence|]. split; [lia|]. split.
    + apply get_of_holds; [done|done|]. rewrite Hcap2, Hcap1. simpl. lia.
    + intros k' v' Hin. apply get_of_holds; [done| |].
      * apply Hho2, Hholds1, old_items_holds; [done|]. by apply Hholds.
      * rewrite Hcap2, Hcap1. simpl. lia.
Qed.

(** ** [_rehash] *)

(** C4, as it stands, fails: with threshold 0.05 the call [_rehash(15)]
    that the third insert would make on a table of capacity 7 and size 2
    ends with capacity 31, not max(3, 15): the reinsertion of the second
    pair finds the load factor 1/15 above the threshold and rehashes
    again. *)
Lemma rehash_may_nest :
  scenario_nested_rehash builtin_hash0 = Ret (7, 2, 31, 15).
Proof. vm_compute. reflexivity. Qed.

(** C4, amended. On a table whose live keys are distinct,
    [_rehash(new_capacity)] resets the capacity to
    [max(3, new_capacity)] and re-inserts the live pairs; when no
    re-insertion reaches the load-factor threshold and the probe walks
    cover the new table (as they do in linear mode), the call returns,
    the capacity is [max(3, new_capacity)], no tombstone is left, what
    the table holds is exactly the live pairs, each live key is retrieved
    with its value, [size] is the number of live pairs, and [collisions]
    has not decreased. *)
Theorem rehash_rebuilds (hash : string → Z) (fuel : nat) (t : table)
    (new_capacity : Z) :
  NoDup (old_items t).*1 →
  Z.of_nat (length (old_items t)) ≤ Z.max 3 new_capacity →
  below_threshold t (Z.max 3 new_capacity) 0
    (Z.of_nat (length (old_items t))) →
  full_cycle hash (reallocate t (Z.max 3 new_capacity)) →
  (Z.to_nat (Z.max 3 new_capacity) ≤ fuel)%nat →
  ∃ t', _rehash hash fuel t new_capacity = Ret t' ∧
        capacity t' = Z.max 3 new_capacity ∧
        size t' = Z.of_nat (length (old_items t)) ∧
        occupied (_keys t') = Z.of_nat (length (old_items t)) ∧
        (KDeleted ∉ _keys t') ∧
        (∀ k v, (k, v) ∈ old_items t → get hash fuel t' k = Ret v) ∧
        (∀ k v, holds t' k v → (k, v) ∈ old_items t) ∧
        collisions t ≤ collisions t'.
Proof.
  intros Hnd Hroom Hthr Hcyc Hfuel.
  destruct (rehash_new_keys hash fuel t new_capacity)
    as (t' & Ht' & [Hgood Hcap Hsz _ Hcol Hholds _ Hinv _]); try done.
  simpl in *. exists t'. split; [done|]. unfold capacity, size.
  split; [done|]. split; [lia|].
  pose proof Hgood as [[_ Hcount] _ Hdel _].
  split; [lia|]. split; [done|]. split; [|split; [|done]].
  - intros k v Hin. apply get_of_holds; [done|by apply Hholds|].
    by rewrite Hcap.
  - intros k v Hh. destruct (Hinv _ _ Hh) as [Hin|(idx & _ & Hk & _)];
      [done|].
    by apply py_getitem_elem_of, elem_of_replicate_inv in Hk.
Qed.

Lemma five_keys_below_threshold :
  below_threshold (five_keys_table "linear") (Z.max 3 15) 0
    (Z.of_nat (length (old_items (five_keys_table "linear")))).
Proof.
  intros s Hs. change (Z.max 3 15) with 15.
  change (_load_factor_threshold (five_keys_table "linear"))
    with (QArith_base.Qmake 6 10).
  rewrite threshold_check by lia. apply Z.leb_gt.
  change (Z.of_nat (length (old_items (five_keys_table "linear"))))
    with 5 in Hs.
  lia.
Qed.

Lemma rehash_rebuilds_witness :
  ∃ t', _rehash builtin_hash0 15 (five_keys_table "linear") 15 = Ret t' ∧
        capacity t' = Z.max 3 15 ∧
        size t' = Z.of_nat (length (old_items (five_keys_table "linear"))) ∧
        occupied (_keys t') =
          Z.of_nat (length (old_items (five_keys_table "linear"))) ∧
        (KDeleted ∉ _keys t') ∧
        (∀ k v, (k, v) ∈ old_items (five_keys_table "linear") →
                get builtin_hash0 15 t' k = Ret v) ∧
        (∀ k v, holds t' k v → (k, v) ∈ old_items (five_keys_table "linear")) ∧
        collisions (five_keys_table "linear") ≤ collisions t'.
Proof.
  apply (rehash_rebuilds builtin_hash0 15 (five_keys_table "linear") 15).
  - compute_done.
  - vm_compute. discriminate.
  - apply five_keys_below_threshold.
  - apply full_cycle_linear; [|reflexivity].
    split; [|split]; [vm_compute; discriminate|reflexivity|reflexivity].
  - vm_compute. lia.
Defined.

(** ** Instances *)

Lemma rehash_on_62nd_insert_witness :
  ∃ t, insert_all (insert builtin_hash0 101) keys_61 empty_101 = Ret t ∧
       capacity t = 101 ∧ size t = 61 ∧
       (∀ k v, (k, v) ∈ keys_61 → get builtin_hash0 101 t k = Ret v) ∧
       ∀ k v, k ∉ keys_61.*1 →
              ∃ t2, insert builtin_hash0 204 t k v = Ret t2 ∧
                    capacity t2 = 203 ∧ size t2 = 62.
Proof.
  destruct (rehash_on_62nd_insert builtin_hash0 (Some simple_hash) None
              "linear" keys_61 empty_101)
    as (t & Ht & Hcap & Hsz & Hget & _ & H62).
  - reflexivity.
  - compute_done.
  - reflexivity.
  - exists t. repeat (split; [assumption|]).
    intros k v Hk. destruct (H62 eq_refl k v Hk) as (t2 & ? & ? & ? & _).
    eauto.
Defined.

Lemma default_step_from_builtin_hash_witness :
  probe_step builtin_hash0 empty_7_double "a"
  = Ret (1 + builtin_hash0 "a" mod (capacity empty_7_double - 1)).
Proof.
  apply (default_step_from_builtin_hash builtin_hash0 7 (Some simple_hash)
           "double" DEFAULT_LOAD_FACTOR_THRESHOLD empty_7_double).
  - reflexivity.
  - apply rtc_refl.
Defined.

Lemma collisions_on_new_key_witness :
  ∃ seq, _probe_sequence builtin_hash0 empty_101 "0" = Ret seq ∧
         collisions empty_101
           ≤ collisions (with_pair empty_101 48 "0" (VInt 0)) ∧
         (collisions (with_pair empty_101 48 "0" (VInt 0))
            = collisions empty_101 ↔
          py_getitem (_keys empty_101) (seq 0%nat) = Ret KNone).
Proof.
  apply (collisions_on_new_key builtin_hash0 empty_101 "0" (VInt 0) 101
           (with_pair empty_101 48 "0" (VInt 0))
           (QArith_base.Qdiv (QArith_base.inject_Z 0)
                             (QArith_base.inject_Z 101)));
    reflexivity.
Defined.

Lemma size_counts_occupied_witness :
  size (with_pair empty_101 48 "0" (VInt 0))
  = occupied (_keys (with_pair empty_101 48 "0" (VInt 0))).
Proof.
  apply (size_counts_occupied builtin_hash0).
  exists 101, (Some simple_hash), None, "linear"%string,
    (QArith_base.Qmake 6 10), empty_101.
  split; [reflexivity|].
  eapply rtc_l; [|apply rtc_refl].
  eapply (step_insert builtin_hash0 101 empty_101 "0" (VInt 0)).
  reflexivity.
Defined.

Lemma none_value_hides_key_witness :
  get builtin_hash0 101 (with_pair empty_101 48 "0" VNone) "0" = Ret VNone ∧
  contains builtin_hash0 101 (with_pair empty_101 48 "0" VNone) "0"
    = Ret false ∧
  ∃ t'', remove builtin_hash0 101 (with_pair empty_101 48 "0" VNone) "0"
           = Ret (true, t'') ∧
         size t'' = size (with_pair empty_101 48 "0" VNone) - 1.
Proof.
  apply (none_value_hides_key builtin_hash0 empty_101 "0" 101).
  reflexivity.
Defined.

(** * Further properties *)

(** ** The hash functions *)

Lemma mask_31 a : Z.land a 0x7FFFFFFF = a mod 2 ^ 31.
Proof. change 0x7FFFFFFF with (Z.ones 31). apply Z.land_ones. lia. Qed.

Lemma str_fold_sum s h :
  str_fold (fun h ch => h + ord ch) s h = h + code_sum s.
Proof.
  revert h. induction s as [|ch s IH]; intros h; simpl; [lia|].
  rewrite IH. lia.
Qed.

Lemma code_sum_app s1 s2 :
  code_sum (s1 +:+ s2) = code_sum s1 + code_sum s2.
Proof. induction s1 as [|ch s1 IH]; simpl; [done|]. rewrite IH. lia. Qed.

Lemma ord_range ch : 0 ≤ ord ch < 256.
Proof.
  unfold ord. pose proof (nat_ascii_bounded ch). lia.
Qed.

(** X1. The mask of [simple_hash] reduces the sum of the character codes
    modulo 2^31: the result is in [0, 2^31), and the hash of a
    concatenation is the sum of the two hashes modulo 2^31. *)
Theorem simple_hash_sum (s1 s2 : string) :
  simple_hash s1 = code_sum s1 mod 2 ^ 31 ∧
  0 ≤ simple_hash s1 < 2 ^ 31 ∧
  simple_hash (s1 +:+ s2) = (simple_hash s1 + simple_hash s2) mod 2 ^ 31.
Proof.
  assert (∀ s, simple_hash s = code_sum s mod 2 ^ 31) as Hs.
  { intros s. unfold simple_hash. rewrite mask_31, str_fold_sum. done. }
  split; [apply Hs|]. split.
  - rewrite Hs. apply Z.mod_pos_bound. lia.
  - rewrite !Hs, code_sum_app. apply Z.add_mod. lia.
Qed.

Lemma code_sum_perm s1 s2 :
  list_ascii_of_string s1 ≡ₚ list_ascii_of_string s2 →
  code_sum s1 = code_sum s2.
Proof.
  assert (∀ s, code_sum s = foldr (fun ch a => ord ch + a) 0
                              (list_ascii_of_string s)) as Hf.
  { induction s as [|ch s IH]; simpl; [done|]. by rewrite IH. }
  intros Hp. rewrite !Hf.
  induction Hp as [|x l1 l2 _ IH|x y l|l1 l2 l3 _ IH1 _ IH2]; simpl; lia.
Qed.

(** X2. [simple_hash] does not see the order of the characters: anagrams
    always collide. *)
Theorem simple_hash_anagram (s1 s2 : string) :
  list_ascii_of_string s1 ≡ₚ list_ascii_of_string s2 →
  simple_hash s1 = simple_hash s2.
Proof.
  intros Hp. unfold simple_hash. rewrite !str_fold_sum.
  by rewrite (code_sum_perm s1 s2).
Qed.

Lemma simple_hash_anagram_witness : simple_hash "abc" = simple_hash "cab".
Proof.
  apply simple_hash_anagram. simpl.
  etransitivity; [|apply Permutation_swap].
  apply Permutation_skip, Permutation_swap.
Defined.

Lemma djb2_31_mod s h : djb2_31 s (h mod 2 ^ 31) = djb2_31 s h.
Proof.
  revert h. induction s as [|ch s IH]; intros h; simpl.
  - apply Z.mod_mod. lia.
  - f_equal. rewrite <- Z.add_mod_idemp_l, Z.mul_mod_idemp_l by lia.
    by rewrite Z.add_mod_idemp_l by lia.
Qed.

Lemma djb2_fold_31 s h :
  str_fold (fun h ch => h * 33 + ord ch) s h mod 2 ^ 31 = djb2_31 s h.
Proof.
  revert h. induction s as [|ch s IH]; intros h; simpl; [done|].
  by rewrite IH, djb2_31_mod.
Qed.

(** X3. [djb2] works on unbounded integers and masks once at the end;
    the result is the 31-bit DJB2 that reduces modulo 2^31 after every
    character, and it lies in [0, 2^31). *)
Theorem djb2_is_31_bit (s : string) :
  djb2 s = djb2_31 s 5381 ∧ 0 ≤ djb2 s < 2 ^ 31.
Proof.
  unfold djb2. rewrite mask_31. split; [apply djb2_fold_31|].
  apply Z.mod_pos_bound. lia.
Qed.

Lemma horner_mod base m s h :
  0 < m →
  str_fold (fun h ch => h * base + ord ch) s (h mod m) mod m
  = str_fold (fun h ch => h * base + ord ch) s h mod m.
Proof.
  intros Hm. revert h. induction s as [|c s IH]; intros h; simpl.
  - apply Z.mod_mod. lia.
  - rewrite <- (IH (h mod m * base + ord c)), <- (IH (h * base + ord c)).
    do 2 f_equal.
    rewrite <- Z.add_mod_idemp_l, Z.mul_mod_idemp_l by lia.
    by rewrite Z.add_mod_idemp_l by lia.
Qed.

Lemma poly_fold_mod_horner base m s h :
  0 < m → 0 ≤ h < m →
  poly_fold_mod base m s h
  = Ret (str_fold (fun h ch => h * base + ord ch) s h mod m).
Proof.
  intros Hm. revert h. induction s as [|ch s IH]; intros h Hh; simpl.
  - by rewrite Z.mod_small.
  - unfold py_mod. destruct (m =? 0) eqn:E; [lia|]. cbn [bind].
    rewrite IH by (apply Z.mod_pos_bound; lia).
    by rewrite horner_mod.
Qed.

(** X4. With a modulus between 1 and 2^31, [polynomial_hash] returns the
    value of the polynomial reduced by the modulus: reducing at every
    character gives the same as reducing once, the mask changes nothing,
    and the result is below the modulus. *)
Theorem polynomial_hash_mod (s : string) (base m : Z) :
  0 < m ≤ 2 ^ 31 →
  polynomial_hash s base (Some m)
    = Ret (str_fold (fun h ch => h * base + ord ch) s 0 mod m) ∧
  0 ≤ str_fold (fun h ch => h * base + ord ch) s 0 mod m < m.
Proof.
  intros Hm.
  assert (0 ≤ str_fold (fun h ch => h * base + ord ch) s 0 mod m < m) as Hr
    by (apply Z.mod_pos_bound; lia).
  split; [|done]. unfold polynomial_hash.
  rewrite poly_fold_mod_horner by lia. cbn [bind].
  rewrite mask_31, Z.mod_small by lia. done.
Qed.

Lemma polynomial_hash_mod_witness :
  polynomial_hash "abc" DEFAULT_BASE (Some 101)
    = Ret (str_fold (fun h ch => h * DEFAULT_BASE + ord ch) "abc" 0 mod 101) ∧
  0 ≤ str_fold (fun h ch => h * DEFAULT_BASE + ord ch) "abc" 0 mod 101 < 101.
Proof. apply (polynomial_hash_mod "abc" DEFAULT_BASE 101). lia. Defined.

(** X5. The edges of [polynomial_hash]: without a modulus the result lies
    in [0, 2^31); with the modulus 0 the empty string hashes to 0 and
    every other string raises [ZeroDivisionError]. *)
Theorem polynomial_hash_edges (s : string) (ch : ascii) (base : Z) :
  (∃ h, polynomial_hash s base None = Ret h ∧ 0 ≤ h < 2 ^ 31) ∧
  polynomial_hash EmptyString base (Some 0) = Ret 0 ∧
  polynomial_hash (String ch s) base (Some 0) = Raise ZeroDivisionError.
Proof.
  split; [|done]. eexists. split; [done|].
  rewrite mask_31. apply Z.mod_pos_bound. lia.
Qed.

(** ** No exception on a well-formed table *)

Lemma get_loop_no_raise seq t key fuel i e :
  in_range seq (Z.of_nat (length (_keys t))) →
  length (_values t) = length (_keys t) →
  get_loop fuel seq t key i ≠ Raise e.
Proof.
  intros Hr Hlen. revert i. induction fuel as [|fuel IH]; intros i; [done|].
  simpl. destruct (py_getitem_total (_keys t) (seq i) (Hr i)) as [k ->].
  cbn [bind]. destruct k as [| |s]; [done|apply IH|].
  destruct (String.eqb s key); [|apply IH].
  destruct (py_getitem_total (_values t) (seq i)) as [v ->]; [|done].
  rewrite Hlen. apply Hr.
Qed.

Lemma remove_loop_no_raise seq t key fuel i e :
  in_range seq (Z.of_nat (length (_keys t))) →
  length (_values t) = length (_keys t) →
  remove_loop fuel seq t key i ≠ Raise e.
Proof.
  intros Hr Hlen. revert i. induction fuel as [|fuel IH]; intros i; [done|].
  simpl. destruct (py_getitem_total (_keys t) (seq i) (Hr i)) as [k ->].
  cbn [bind]. destruct k as [| |s]; [done|apply IH|].
  destruct (String.eqb s key); [|apply IH].
  rewrite !py_setitem_in_range by (rewrite ?Hlen; apply Hr). done.
Qed.

Lemma insert_loop_no_raise seq key v fuel t fd i e :
  in_range seq (Z.of_nat (length (_keys t))) →
  length (_values t) = length (_keys t) →
  (∀ d, fd = Some d → 0 ≤ d < Z.of_nat (length (_keys t))) →
  insert_loop fuel seq t key v fd i ≠ Raise e.
Proof.
  revert t fd i. induction fuel as [|fuel IH]; intros t fd i Hr Hlen Hfd;
    [done|].
  simpl. destruct (py_getitem_total (_keys t) (seq i) (Hr i)) as [k ->].
  cbn [bind]. destruct k as [| |s].
  - assert (0 ≤ match fd with Some d => d | None => seq i end
              < Z.of_nat (length (_keys t))) as Ht
      by (destruct fd; [by apply Hfd|apply Hr]).
    rewrite !py_setitem_in_range by (rewrite ?Hlen; apply Ht). done.
  - apply IH; [done|done|].
    intros d. destruct fd as [d'|]; intros [= <-]; [by apply Hfd|apply Hr].
  - destruct (String.eqb s key); [|by apply IH].
    rewrite !py_setitem_in_range by (rewrite ?Hlen; apply Hr). done.
Qed.

Lemma insert_all_no_raise ins items t e :
  (∀ t k v t', ins t k v = Ret t' → counted t → counted t') →
  (∀ t k v e, counted t → ins t k v ≠ Raise e) →
  counted t → insert_all ins items t ≠ Raise e.
Proof.
  intros Hc Hn. revert t. induction items as [|[k v] items IH]; intros t Ht;
    simpl; [done|].
  destruct (ins t k v) as [t1|e1|] eqn:E; cbn [bind];
    [|by destruct (Hn t k v e1 Ht)|done].
  apply IH. by eapply Hc.
Qed.

Section NoRaise.
Variable hash : string → Z.

Lemma wf_in_range t key :
  wf t →
  ∃ seq, _probe_sequence hash t key = Ret seq ∧
         in_range seq (Z.of_nat (length (_keys t))) ∧
         length (_values t) = length (_keys t).
Proof.
  intros Hwf. destruct (probe_sequence_wf hash t key Hwf) as (seq & Hs & Hr).
  destruct Hwf as (? & Hk & Hv). exists seq. split; [done|].
  split; [|congruence]. intros i. specialize (Hr i). lia.
Qed.

Lemma get_no_raise fuel t key e : wf t → get hash fuel t key ≠ Raise e.
Proof.
  intros (seq & Hs & Hr & Hlen)%(wf_in_range t key). unfold get.
  rewrite Hs. cbn [bind]. by apply get_loop_no_raise.
Qed.

Lemma remove_no_raise fuel t key e : wf t → remove hash fuel t key ≠ Raise e.
Proof.
  intros (seq & Hs & Hr & Hlen)%(wf_in_range t key). unfold remove.
  rewrite Hs. cbn [bind]. by apply remove_loop_no_raise.
Qed.

Lemma insert_no_raise fuel t key v e :
  counted t → insert hash fuel t key v ≠ Raise e.
Proof.
  revert t key v e. induction fuel as [|fuel IH]; intros t key v e Hc; [done|].
  rewrite insert_S. unfold load_factor.
  destruct Hc as [Hwf Hsz]. pose proof Hwf as (Hcap & _).
  destruct (_capacity t =? 0) eqn:E0; [lia|]. cbn [bind].
  assert (∀ t1, wf t1 →
            (seq <- _probe_sequence hash t1 key ;;
             insert_loop (S fuel) seq t1 key v None 0) ≠ Raise e) as Hloop.
  { intros t1 (seq & Hs & Hr & Hlen)%(wf_in_range t1 key).
    rewrite Hs. cbn [bind]. by apply insert_loop_no_raise. }
  destruct (QArith_base.Qle_bool _ _); cbn [bind]; [|by apply Hloop].
  destruct (rehash_with _ _ _) as [t1|e1|] eqn:E; cbn [bind]; [| |done].
  - apply Hloop. eapply insert_all_counted in E as [? _]; [done| |].
    + intros ????. apply insert_counted.
    + apply reallocate_counted.
  - exfalso. revert E. apply insert_all_no_raise.
    + intros ????. apply insert_counted.
    + intros ?????. by apply IH.
    + apply reallocate_counted.
Qed.

End NoRaise.

(** X6. In every state the table goes through, no operation raises an
    exception: the indices stay inside the two arrays and no division is
    by zero.  A call either returns or keeps probing. *)
Theorem operations_never_raise (hash : string → Z) (t : table)
    (fuel : nat) (key : string) (v : pyval) (e : exn) :
  reachable hash t →
  get hash fuel t key ≠ Raise e ∧
  contains hash fuel t key ≠ Raise e ∧
  remove hash fuel t key ≠ Raise e ∧
  insert hash fuel t key v ≠ Raise e.
Proof.
  intros Hc%reachable_counted. pose proof Hc as [Hwf _].
  pose proof (get_no_raise hash fuel t key e Hwf) as Hget.
  split; [done|]. split; [|split].
  - unfold contains. destruct (get hash fuel t key); try done.
    cbn [bind]. intros [= <-]. done.
  - by apply remove_no_raise.
  - by apply insert_no_raise.
Qed.

Lemma one_key_reachable :
  reachable builtin_hash0 (with_pair empty_101 48 "0" (VInt 0)).
Proof.
  exists 101, (Some simple_hash), None, "linear"%string,
    (QArith_base.Qmake 6 10), empty_101.
  split; [reflexivity|].
  eapply rtc_l; [|apply rtc_refl].
  by eapply (step_insert builtin_hash0 101 empty_101 "0" (VInt 0)).
Qed.

Lemma operations_never_raise_witness :
  get builtin_hash0 101 (with_pair empty_101 48 "0" (VInt 0)) "a"
    ≠ Raise IndexError ∧
  contains builtin_hash0 101 (with_pair empty_101 48 "0" (VInt 0)) "a"
    ≠ Raise IndexError ∧
  remove builtin_hash0 101 (with_pair empty_101 48 "0" (VInt 0)) "a"
    ≠ Raise IndexError ∧
  insert builtin_hash0 101 (with_pair empty_101 48 "0" (VInt 0)) "a" VNone
    ≠ Raise IndexError.
Proof.
  apply (operations_never_raise builtin_hash0). apply one_key_reachable.
Defined.

(** ** Bounds and counters *)

Lemma occupied_le_length ks : occupied ks ≤ Z.of_nat (length ks).
Proof.
  induction ks as [|k ks IH]; simpl; [lia|]. destruct (is_str k); lia.
Qed.

(** X7. In every state the table goes through, the size lies between 0
    and the capacity, so that the load factor lies between 0 and 1. *)
Theorem size_within_capacity (hash : string → Z) (t : table) :
  reachable hash t → 0 ≤ size t ≤ capacity t.
Proof.
  intros [(Hcap & Hlen & _) Hsz]%reachable_counted. unfold size, capacity.
  pose proof (occupied_nonneg (_keys t)).
  pose proof (occupied_le_length (_keys t)). lia.
Qed.

Lemma size_within_capacity_witness :
  0 ≤ size (with_pair empty_101 48 "0" (VInt 0))
    ≤ capacity (with_pair empty_101 48 "0" (VInt 0)).
Proof.
  apply (size_within_capacity builtin_hash0). apply one_key_reachable.
Defined.

Lemma insert_all_grows ins items t t' :
  (∀ t k v t', ins t k v = Ret t' →
               _capacity t ≤ _capacity t' ∧ collisions t ≤ collisions t') →
  insert_all ins items t = Ret t' →
  _capacity t ≤ _capacity t' ∧ collisions t ≤ collisions t'.
Proof.
  intros Hins. revert t. induction items as [|[k v] items IH]; intros t; simpl.
  - intros [= <-]. lia.
  - intros (t1 & H1 & H2)%bind_Ret. apply Hins in H1. apply IH in H2. lia.
Qed.

Section Grows.
Variable hash : string → Z.

Lemma insert_grows fuel t key v t' :
  insert hash fuel t key v = Ret t' →
  _capacity t ≤ _capacity t' ∧ collisions t ≤ collisions t'.
Proof.
  revert t key v t'. induction fuel as [|fuel IH]; intros t key v t'; [done|].
  rewrite insert_S.
  intros (lf & _ & (t1 & H1 & (seq & _ & Hloop)%bind_Ret)%bind_Ret)%bind_Ret.
  apply insert_loop_frame in Hloop as [Hcap _ _ _ Hcol _]; [|done].
  destruct (QArith_base.Qle_bool _ _).
  - apply insert_all_grows in H1; [|apply IH]. simpl in H1. lia.
  - injection H1 as <-. lia.
Qed.

Lemma rehash_collisions fuel t c t' :
  _rehash hash fuel t c = Ret t' → collisions t ≤ collisions t'.
Proof.
  intros H. apply insert_all_grows in H as [_ H]; [done|].
  intros ????. apply insert_grows.
Qed.

Lemma remove_loop_fields seq key fuel t i b t' :
  remove_loop fuel seq t key i = Ret (b, t') →
  collisions t' = collisions t ∧
  (b = false → t' = t) ∧
  (b = true → _size t' = _size t - 1).
Proof.
  revert i. induction fuel as [|fuel IH]; intros i; [done|].
  loop_step Hk.
  - by intros [= <- <-].
  - apply IH.
  - destruct (String.eqb s key); [|apply IH].
    intros (ks & Hks & (vs & Hvs & [= <- <-])%bind_Ret)%bind_Ret. done.
Qed.

End Grows.

(** X8. [insert] rehashes exactly when the load factor it finds has
    reached the threshold: the capacity it leaves is then at least
    [max(3, 2 * capacity + 1)], and it is unchanged otherwise.  Whatever
    it does, [collisions] does not decrease. *)
Theorem insert_rehashes_at_threshold (hash : string → Z) (fuel : nat)
    (t : table) (key : string) (v : pyval) (t' : table)
    (lf : QArith_base.Q) :
  insert hash fuel t key v = Ret t' →
  load_factor t = Ret lf →
  (if QArith_base.Qle_bool (_load_factor_threshold t) lf
   then Z.max 3 (capacity t * 2 + 1) ≤ capacity t'
   else capacity t' = capacity t) ∧
  collisions t ≤ collisions t'.
Proof.
  intros H Hlf. split; [|apply insert_grows in H; tauto].
  destruct fuel as [|fuel]; [done|]. rewrite insert_S, Hlf in H.
  cbn [bind] in H.
  apply bind_Ret in H as (t1 & H1 & (seq & _ & Hloop)%bind_Ret).
  apply insert_loop_frame in Hloop as [Hcap _ _ _ _ _]; [|done].
  unfold capacity. destruct (QArith_base.Qle_bool _ _).
  - apply insert_all_grows in H1 as [H1 _];
      [|intros ????; apply insert_grows].
    simpl in H1. lia.
  - injection H1 as <-. done.
Qed.

Lemma insert_rehashes_at_threshold_witness :
  (if QArith_base.Qle_bool (_load_factor_threshold (five_keys_table "linear"))
        (QArith_base.Qdiv (QArith_base.inject_Z 5) (QArith_base.inject_Z 7))
   then Z.max 3 (capacity (five_keys_table "linear") * 2 + 1)
        ≤ capacity six_keys_linear
   else capacity six_keys_linear = capacity (five_keys_table "linear")) ∧
  collisions (five_keys_table "linear") ≤ collisions six_keys_linear.
Proof.
  apply (insert_rehashes_at_threshold builtin_hash0 15
           (five_keys_table "linear") "p" (VInt 5)); reflexivity.
Defined.

(** X9. [collisions] never decreases, whatever sequence of [insert],
    [remove] and [_rehash] the table goes through. *)
Theorem collisions_never_decrease (hash : string → Z) (t0 t : table) :
  reachable_from hash t0 t → collisions t0 ≤ collisions t.
Proof.
  induction 1 as [|t1 t2 t3 Hstep _ IH]; [lia|].
  assert (collisions t1 ≤ collisions t2); [|lia].
  destruct Hstep as [fuel t1 key v t2 H|fuel t1 key b t2 H|fuel t1 c t2 H].
  - apply insert_grows in H. tauto.
  - apply bind_Ret in H as (seq & _ & H).
    apply remove_loop_fields in H as [-> _]. lia.
  - by apply rehash_collisions in H.
Qed.

Lemma collisions_never_decrease_witness :
  collisions (five_keys_table "linear") ≤ collisions six_keys_linear.
Proof.
  apply (collisions_never_decrease builtin_hash0).
  eapply rtc_l; [|apply rtc_refl].
  by eapply (step_insert builtin_hash0 15 _ "p" (VInt 5)).
Defined.

(** ** Walks on a consistent table *)

Lemma get_loop_inv seq t key fuel i0 v :
  get_loop fuel seq t key i0 = Ret v →
  skips_before (_keys t) seq key i0 →
  ∃ i, (i0 ≤ i < i0 + fuel)%nat ∧
       ((finds_at (_keys t) seq key i ∧
         py_getitem (_values t) (seq i) = Ret v) ∨
        (misses_at (_keys t) seq key i ∧ v = VNone)).
Proof.
  revert i0. induction fuel as [|fuel IH]; intros i0; [done|].
  loop_step Hk.
  - intros [= <-] Hsk. exists i0. split; [lia|]. by right.
  - intros H Hsk. destruct (IH (S i0) H) as (i & Hi & Hres).
    + apply skips_before_S; [done|by left].
    + exists i. split; [lia|done].
  - destruct (String.eqb_spec s key) as [->|Hne].
    + intros Hv Hsk. exists i0. split; [lia|]. by left.
    + intros H Hsk. destruct (IH (S i0) H) as (i & Hi & Hres).
      * apply skips_before_S; [done|]. right. eauto.
      * exists i. split; [lia|done].
Qed.

Lemma remove_loop_inv seq t key fuel i0 b t' :
  remove_loop fuel seq t key i0 = Ret (b, t') →
  skips_before (_keys t) seq key i0 →
  ∃ i, (i0 ≤ i < i0 + fuel)%nat ∧
       ((finds_at (_keys t) seq key i ∧ b = true ∧
         py_setitem (_keys t) (seq i) KDeleted = Ret (_keys t') ∧
         py_setitem (_values t) (seq i) VNone = Ret (_values t') ∧
         loop_frame t t') ∨
        (misses_at (_keys t) seq key i ∧ b = false ∧ t' = t)).
Proof.
  revert i0. induction fuel as [|fuel IH]; intros i0; [done|].
  intros Hrun. pose proof (remove_loop_frame _ _ _ _ _ _ _ Hrun) as Hframe.
  revert Hrun. loop_step Hk.
  - intros [= <- <-] Hsk. exists i0. split; [lia|]. by right.
  - intros H Hsk. destruct (IH (S i0) H) as (i & Hi & Hres).
    + apply skips_before_S; [done|by left].
    + exists i. split; [lia|done].
  - destruct (String.eqb_spec s key) as [->|Hne].
    + intros (ks & Hks & (vs & Hvs & [= <- <-])%bind_Ret)%bind_Ret Hsk.
      exists i0. split; [lia|]. left. split; [by split|].
      split; [done|]. split; [done|]. split; [done|]. exact Hframe.
    + intros H Hsk. destruct (IH (S i0) H) as (i & Hi & Hres).
      * apply skips_before_S; [done|]. right. eauto.
      * exists i. split; [lia|done].
Qed.

Section Consistent.
Variable hash : string → Z.

Lemma probe_of_periodic t key i :
  wf t →
  probe_of hash t key (i + Z.to_nat (_capacity t)) = probe_of hash t key i.
Proof.
  intros Hwf. pose proof Hwf as (Hcap & _).
  destruct (probe_sequence_wf hash t key Hwf) as (seq & Hs & _).
  unfold probe_of. rewrite Hs. revert Hs. unfold _probe_sequence, py_mod.
  destruct (_capacity t =? 0); [done|]. cbn [bind].
  destruct (String.eqb (_mode t) "linear").
  - intros [= <-]. rewrite Nat2Z.inj_add, Z2Nat.id by lia.
    rewrite Z.add_assoc.
    rewrite <- (Z.mul_1_l (_capacity t)) at 2. apply Z_mod_plus_full.
  - intros (step & _ & [= <-])%bind_Ret.
    rewrite Nat2Z.inj_add, Z2Nat.id by lia.
    rewrite Z.mul_add_distr_r, Z.add_assoc, (Z.mul_comm (_capacity t)).
    apply Z_mod_plus_full.
Qed.

(** A walk that stops does so within [_capacity] probes. *)
Lemma stop_lt_capacity t key i c :
  wf t → skips_before (_keys t) (probe_of hash t key) key i →
  py_getitem (_keys t) (probe_of hash t key i) = Ret c →
  c = KNone ∨ c = KStr key →
  (i < Z.to_nat (_capacity t))%nat.
Proof.
  intros Hwf Hsk Hc Hstop.
  destruct (decide (i < Z.to_nat (_capacity t))%nat); [done|]. exfalso.
  pose proof (probe_of_periodic t key (i - Z.to_nat (_capacity t)) Hwf) as Hp.
  replace (i - Z.to_nat (_capacity t) + Z.to_nat (_capacity t))%nat
    with i in Hp by lia.
  destruct Hwf as (Hcap & _).
  destruct (Hsk (i - Z.to_nat (_capacity t))%nat) as [Hd|(s & Hd & Hne)];
    [lia| |]; rewrite <- Hp, Hc in Hd; destruct Hstop; congruence.
Qed.

Lemma reach_unique t i1 i2 s :
  wf t → probe_reachable hash t →
  0 ≤ i1 < _capacity t → 0 ≤ i2 < _capacity t →
  py_getitem (_keys t) i1 = Ret (KStr s) →
  py_getitem (_keys t) i2 = Ret (KStr s) → i1 = i2.
Proof.
  intros Hwf Hreach Hr1 Hr2 H1 H2.
  destruct (Hreach _ _ Hr1 H1) as (j1 & Hf1 & <-).
  destruct (Hreach _ _ Hr2 H2) as (j2 & Hf2 & <-).
  f_equal. apply Nat.le_antisymm; (eapply finds_at_le; [done|]).
  - by destruct Hf2.
  - by destruct Hf1.
Qed.

Lemma holds_finds t k v :
  wf t → probe_reachable hash t → holds t k v →
  ∃ i, (i < Z.to_nat (_capacity t))%nat ∧
       finds_at (_keys t) (probe_of hash t k) k i ∧
       py_getitem (_values t) (probe_of hash t k i) = Ret v.
Proof.
  intros Hwf Hreach (idx & Hidx & Hk & Hv).
  destruct (Hreach idx k Hidx Hk) as (i & Hfind & Hi).
  exists i. rewrite Hi. split; [|done].
  destruct Hfind as [Hsk Hf]. eapply stop_lt_capacity; eauto.
Qed.

Lemma finds_holds t k i v :
  wf t → finds_at (_keys t) (probe_of hash t k) k i →
  py_getitem (_values t) (probe_of hash t k i) = Ret v → holds t k v.
Proof.
  intros Hwf [_ Hk] Hv. exists (probe_of hash t k i).
  split; [by apply probe_of_wf|done].
Qed.

Lemma misses_not_holds t k i v :
  wf t → probe_reachable hash t →
  misses_at (_keys t) (probe_of hash t k) k i → ¬ holds t k v.
Proof.
  intros Hwf Hreach Hmiss (idx & Hidx & Hk & _).
  destruct (Hreach idx k Hidx Hk) as (j & Hfind & _).
  by eapply finds_misses_excl.
Qed.

Lemma get_holds fuel t k v :
  wf t → probe_reachable hash t → holds t k v →
  (Z.to_nat (_capacity t) ≤ fuel)%nat →
  get hash fuel t k = Ret v.
Proof.
  intros Hwf Hreach (i & Hi & Hfind & Hv)%holds_finds Hfuel; [|done..].
  unfold get. destruct (probe_of_wf hash t k Hwf) as [-> _]. cbn [bind].
  rewrite (get_loop_finds _ _ _ i) by (done || lia). done.
Qed.

Lemma get_inv fuel t k v :
  wf t → probe_reachable hash t → get hash fuel t k = Ret v →
  holds t k v ∨ (v = VNone ∧ ∀ w, ¬ holds t k w).
Proof.
  intros Hwf Hreach. unfold get.
  destruct (probe_of_wf hash t k Hwf) as [-> _]. cbn [bind].
  intros (i & _ & [[Hfind Hv]|[Hmiss ->]])%get_loop_inv.
  - left. by eapply finds_holds.
  - right. split; [done|]. intros w. by eapply misses_not_holds.
  - intros m Hm. lia.
Qed.

End Consistent.

(** ** What each operation does to the content *)

Section Overwrite.
(** One cell [idx] of [_keys] and of [_values] is overwritten. *)
Variable hash : string → Z.
Variables (t t' : table) (idx : Z) (c : key_slot) (x : pyval).
Hypothesis Hwf : wf t.
Hypothesis Hframe : loop_frame t t'.
Hypothesis Hidx : 0 ≤ idx < _capacity t.
Hypothesis Hks : py_setitem (_keys t) idx c = Ret (_keys t').
Hypothesis Hvs : py_setitem (_values t) idx x = Ret (_values t').

Lemma overwrite_wf : wf t'.
Proof.
  destruct Hframe, Hwf as (? & ? & ?). split; [|split]; congruence.
Qed.

Lemma overwrite_capacity : _capacity t' = _capacity t.
Proof. by destruct Hframe. Qed.

Lemma overwrite_probe_of k : probe_of hash t' k = probe_of hash t k.
Proof. destruct Hframe. by apply probe_of_frame. Qed.

Lemma overwrite_keys_eq : py_getitem (_keys t') idx = Ret c.
Proof. by eapply py_getitem_setitem_eq. Qed.

Lemma overwrite_values_eq : py_getitem (_values t') idx = Ret x.
Proof. by eapply py_getitem_setitem_eq. Qed.

Lemma overwrite_keys_ne j :
  0 ≤ j < _capacity t → j ≠ idx →
  py_getitem (_keys t') j = py_getitem (_keys t) j.
Proof.
  intros Hj Hne. destruct Hwf as (? & Hlen & _).
  eapply py_getitem_setitem_other; [done|lia|lia|done].
Qed.

Lemma overwrite_values_ne j :
  0 ≤ j < _capacity t → j ≠ idx →
  py_getitem (_values t') j = py_getitem (_values t) j.
Proof.
  intros Hj Hne. destruct Hwf as (? & _ & Hlen).
  eapply py_getitem_setitem_other; [done|lia|lia|done].
Qed.

End Overwrite.

Section Removed.
Variable hash : string → Z.
Variables (t t' : table) (key : string) (i : nat).
Hypothesis Hwf : wf t.
Hypothesis Hreach : probe_reachable hash t.
Hypothesis Hframe : loop_frame t t'.
Hypothesis Hfind : finds_at (_keys t) (probe_of hash t key) key i.
Hypothesis Hks :
  py_setitem (_keys t) (probe_of hash t key i) KDeleted = Ret (_keys t').
Hypothesis Hvs :
  py_setitem (_values t) (probe_of hash t key i) VNone = Ret (_values t').

Lemma removed_idx : 0 ≤ probe_of hash t key i < _capacity t.
Proof. by apply probe_of_wf. Qed.

Lemma removed_reach : probe_reachable hash t'.
Proof.
  pose proof removed_idx as Hidx.
  intros j s Hj Hs.
  rewrite (overwrite_capacity t t' Hframe) in Hj.
  rewrite (overwrite_probe_of hash t t' Hframe).
  assert (j ≠ probe_of hash t key i) as Hne.
  { intros ->. rewrite (overwrite_keys_eq t t' _ _ Hks) in Hs. done. }
  rewrite (overwrite_keys_ne t t' _ _ Hwf Hidx Hks) in Hs by done.
  destruct (Hreach j s Hj Hs) as (i0 & [Hskip Hfound] & Hi0).
  exists i0. split; [|done]. split.
  - intros m Hm.
    destruct (decide (probe_of hash t s m = probe_of hash t key i))
      as [Heq|Hneq].
    + left. rewrite Heq. by eapply overwrite_keys_eq.
    + unfold skippable.
      rewrite (overwrite_keys_ne t t' _ _ Hwf Hidx Hks);
        [by apply Hskip|by apply probe_of_wf|done].
  - rewrite Hi0. by rewrite (overwrite_keys_ne t t' _ _ Hwf Hidx Hks).
Qed.

Lemma removed_content : removed t t' key.
Proof.
  pose proof removed_idx as Hidx. destruct Hfind as [_ Hk].
  intros k w. split.
  - intros (j & Hj & Hkj & Hw).
    rewrite (overwrite_capacity t t' Hframe) in Hj.
    assert (j ≠ probe_of hash t key i) as Hne.
    { intros ->. rewrite (overwrite_keys_eq t t' _ _ Hks) in Hkj. done. }
    rewrite (overwrite_keys_ne t t' _ _ Hwf Hidx Hks) in Hkj by done.
    rewrite (overwrite_values_ne t t' _ _ Hwf Hidx Hvs) in Hw by done.
    split; [|by exists j].
    intros ->. apply Hne. by eapply (reach_unique hash t).
  - intros [Hne (j & Hj & Hkj & Hw)]. exists j.
    rewrite (overwrite_capacity t t' Hframe). split; [done|].
    assert (j ≠ probe_of hash t key i) as Hnej.
    { intros ->. congruence. }
    by rewrite (overwrite_keys_ne t t' _ _ Hwf Hidx Hks),
      (overwrite_values_ne t t' _ _ Hwf Hidx Hvs).
Qed.

End Removed.

Section Updated.
Variable hash : string → Z.
Variables (t t' : table) (key : string) (v : pyval) (i : nat).
Hypothesis Hwf : wf t.
Hypothesis Hreach : probe_reachable hash t.
Hypothesis Hframe : loop_frame t t'.
Hypothesis Hup : updates_at (probe_of hash t key) key v t t' i.

Lemma updated_reach : probe_reachable hash t'.
Proof.
  destruct Hup as (_ & Hks & _). intros j s Hj Hs.
  rewrite (overwrite_capacity t t' Hframe) in Hj.
  rewrite (overwrite_probe_of hash t t' Hframe), Hks in *.
  by apply Hreach.
Qed.

Lemma updated_content : inserted t t' key v.
Proof.
  destruct Hup as ([_ Hk] & Hks & Hvs & _).
  assert (0 ≤ probe_of hash t key i < _capacity t) as Hidx
    by (by apply probe_of_wf).
  intros k w. unfold holds. rewrite (overwrite_capacity t t' Hframe), Hks.
  split.
  - intros (j & Hj & Hkj & Hw).
    destruct (decide (j = probe_of hash t key i)) as [->|Hne].
    + left. rewrite (py_getitem_setitem_eq _ _ _ _ Hvs) in Hw. split; congruence.
    + right.
      rewrite (overwrite_values_ne t t' _ _ Hwf Hidx Hvs) in Hw by done.
      split; [|by exists j].
      intros ->. apply Hne. by eapply (reach_unique hash t).
  - intros [[-> ->]|[Hne (j & Hj & Hkj & Hw)]].
    + exists (probe_of hash t key i). split; [done|]. split; [done|].
      by eapply py_getitem_setitem_eq.
    + exists j. split; [done|]. split; [done|].
      rewrite (overwrite_values_ne t t' _ _ Hwf Hidx Hvs); [done..|].
      intros ->. congruence.
Qed.

End Updated.

Section Landed.
Variable hash : string → Z.
Variables (t t' : table) (key : string) (v : pyval) (i m : nat).
Hypothesis Hwf : wf t.
Hypothesis Hreach : probe_reachable hash t.
Hypothesis Hframe : loop_frame t t'.
Hypothesis Hnew : lands_new (probe_of hash t key) key v t t' i m.

Lemma landed_content : inserted t t' key v.
Proof.
  intros k w. split.
  - intros Hh.
    destruct (new_key_holds_inv hash t t' key v i m Hwf Hframe Hnew k w Hh)
      as [[-> ->]|Hh']; [by left|].
    right. split; [|done]. intros ->.
    destruct Hnew as (Hmiss & _). by eapply (misses_not_holds hash t).
  - intros [[-> ->]|[_ Hh]].
    + by eapply new_key_holds.
    + by eapply new_key_holds_other.
Qed.

End Landed.

Section Content.
Variable hash : string → Z.

Lemma probe_sequence_probe_of t key seq :
  _probe_sequence hash t key = Ret seq → seq = probe_of hash t key.
Proof. intros H. unfold probe_of. by rewrite H. Qed.

Lemma insert_loop_consistent fuel t key v seq t' :
  consistent hash t → _probe_sequence hash t key = Ret seq →
  insert_loop fuel seq t key v None 0 = Ret t' →
  consistent hash t' ∧ inserted t t' key v.
Proof.
  intros [Hc Hreach] ->%probe_sequence_probe_of Hloop.
  pose proof Hc as [Hwf _].
  pose proof (insert_loop_frame _ _ _ _ _ _ _ _ Hloop ltac:(done)) as Hframe.
  pose proof (loop_frame_counted _ _ Hframe Hc) as Hc'.
  apply insert_loop_outcome_0 in Hloop as (i & _ & [Hup|[m Hnew]]).
  - split; [split; [done|]|].
    + by eapply updated_reach.
    + by eapply updated_content.
  - split; [split; [done|]|].
    + by eapply new_key_reach.
    + by eapply landed_content.
Qed.

Lemma inserted_same_content t t1 t' k v :
  same_content t t1 → inserted t1 t' k v → inserted t t' k v.
Proof. intros Hs Hi k' w. rewrite (Hi k' w), (Hs k' w). done. Qed.

Lemma same_content_refl t : same_content t t.
Proof. by intros k w. Qed.

Lemma insert_all_content ins items t t' :
  (∀ t k v t', consistent hash t → ins t k v = Ret t' →
               consistent hash t' ∧ inserted t t' k v) →
  NoDup items.*1 → consistent hash t →
  insert_all ins items t = Ret t' →
  consistent hash t' ∧
  ∀ k w, holds t' k w ↔ ((k, w) ∈ items) ∨ ((k ∉ items.*1) ∧ holds t k w).
Proof.
  intros Hins. revert t.
  induction items as [|[k0 v0] items IH]; intros t Hnd Hc; simpl.
  - intros [= <-]. split; [done|]. intros k w. split.
    + intros Hh. right. split; [|done]. by intros ?%elem_of_nil.
    + intros [?%elem_of_nil|[_ ?]]; done.
  - apply NoDup_cons in Hnd as [Hk0 Hnd].
    intros (t1 & H1 & H2)%bind_Ret.
    destruct (Hins _ _ _ _ Hc H1) as [Hc1 Hi1].
    destruct (IH t1 Hnd Hc1 H2) as [Hc' Hi']. split; [done|].
    intros k w. rewrite (Hi' k w), (Hi1 k w), !elem_of_cons. split.
    + intros [Hin|[Hnin [[-> ->]|[Hne Hh]]]].
      * left. by right.
      * left. by left.
      * right. split; [|done]. intros [?|?]; done.
    + intros [[[= -> ->]|Hin]|[Hnin Hh]].
      * right. split; [done|]. by left.
      * by left.
      * right. split; [intros ?; apply Hnin; by right|].
        right. split; [|done]. intros ->. apply Hnin. by left.
Qed.

Lemma reallocate_consistent t c :
  consistent hash (reallocate t (Z.max 3 c)).
Proof.
  split; [apply reallocate_counted|].
  intros idx s _ H.
  by apply py_getitem_elem_of, elem_of_replicate_inv in H.
Qed.

Lemma reallocate_holds t c k w : ¬ holds (reallocate t c) k w.
Proof.
  intros (idx & _ & H & _).
  by apply py_getitem_elem_of, elem_of_replicate_inv in H.
Qed.

Lemma rehash_with_content ins t c t' :
  (∀ t k v t', consistent hash t → ins t k v = Ret t' →
               consistent hash t' ∧ inserted t t' k v) →
  consistent hash t → rehash_with ins t c = Ret t' →
  consistent hash t' ∧ same_content t t'.
Proof.
  intros Hins [[Hwf _] Hreach] H.
  apply (insert_all_content ins) in H as [Hc' Hcont];
    [|done|by apply (old_items_NoDup hash)|apply reallocate_consistent].
  split; [done|]. intros k w. rewrite (Hcont k w), old_items_holds by done.
  split; [intros [?|[_ []%reallocate_holds]]; done|by left].
Qed.

Lemma insert_consistent fuel t key v t' :
  consistent hash t → insert hash fuel t key v = Ret t' →
  consistent hash t' ∧ inserted t t' key v.
Proof.
  revert t key v t'. induction fuel as [|fuel IH]; intros t key v t' Hc;
    [done|].
  rewrite insert_S.
  intros (lf & _ & (t1 & H1 & (seq & Hseq & Hloop)%bind_Ret)%bind_Ret)%bind_Ret.
  assert (consistent hash t1 ∧ same_content t t1) as [Hc1 Hs1].
  { destruct (QArith_base.Qle_bool _ _).
    - by eapply rehash_with_content.
    - injection H1 as <-. split; [done|apply same_content_refl]. }
  destruct (insert_loop_consistent _ _ _ _ _ _ Hc1 Hseq Hloop) as [Hc' Hi].
  split; [done|]. by eapply inserted_same_content.
Qed.

Lemma rehash_consistent fuel t c t' :
  consistent hash t → _rehash hash fuel t c = Ret t' →
  consistent hash t' ∧ same_content t t'.
Proof.
  intros Hc H. eapply rehash_with_content; [|done|exact H].
  intros ????. apply insert_consistent.
Qed.

Lemma remove_consistent fuel t key b t' :
  consistent hash t → remove hash fuel t key = Ret (b, t') →
  consistent hash t' ∧
  if b then (∃ v, holds t key v) ∧ removed t t' key ∧ _size t' = _size t - 1
  else t' = t ∧ ∀ v, ¬ holds t key v.
Proof.
  intros [Hc Hreach] (seq & ->%probe_sequence_probe_of & Hloop)%bind_Ret.
  pose proof Hc as [Hwf _].
  pose proof (remove_loop_fields _ _ _ _ _ _ _ Hloop) as (_ & _ & Hsz).
  apply remove_loop_inv in Hloop
    as (i & _ & [(Hfind & -> & Hks & Hvs & Hframe)|(Hmiss & -> & ->)]);
    [| |intros m Hm; lia].
  - split; [split|].
    + by eapply loop_frame_counted.
    + by eapply removed_reach.
    + split; [|split; [by eapply removed_content|by apply Hsz]].
      pose proof Hfind as [_ Hk].
      destruct (py_getitem_total (_values t) (probe_of hash t key i))
        as [v Hv].
      { pose proof Hwf as (? & _ & ->).
        pose proof (proj2 (probe_of_wf hash t key Hwf) i). lia. }
      exists v. by eapply finds_holds.
  - split; [done|]. split; [done|]. intros v.
    by eapply misses_not_holds.
Qed.

Lemma init_consistent c hf shf mode thr t :
  __init__ hash c hf shf mode thr = Ret t → consistent hash t.
Proof.
  intros Hinit. split; [by eapply init_counted|].
  pose proof (init_fields _ _ _ _ _ _ _ Hinit) as (_ & _ & Hk & _).
  intros idx s _ H. rewrite Hk in H.
  by apply py_getitem_elem_of, elem_of_replicate_inv in H.
Qed.

Lemma op_step_consistent t t' :
  op_step hash t t' → consistent hash t → consistent hash t'.
Proof.
  destruct 1 as [fuel t key v t' H|fuel t key b t' H|fuel t c t' H]; intros Hc.
  - by apply (insert_consistent _ _ _ _ _ Hc) in H as [? _].
  - by apply (remove_consistent _ _ _ _ _ Hc) in H as [? _].
  - by apply (rehash_consistent _ _ _ _ Hc) in H as [? _].
Qed.

Lemma reachable_consistent t : reachable hash t → consistent hash t.
Proof.
  intros (c & hf & shf & mode & thr & t0 & Hinit & Hreach).
  apply init_consistent in Hinit. induction Hreach; [done|].
  eauto using op_step_consistent.
Qed.

End Content.

(** ** The table as a map, on every reachable state *)

Lemma empty_101_reachable : reachable builtin_hash0 empty_101.
Proof.
  exists 101, (Some simple_hash), None, "linear"%string,
    (QArith_base.Qmake 6 10), empty_101.
  split; [reflexivity|apply rtc_refl].
Qed.

Lemma one_key_holds : holds (with_pair empty_101 48 "0" (VInt 0)) "0" (VInt 0).
Proof. exists 48. split; [done|]. split; reflexivity. Qed.

Lemma one_key_removed_reachable :
  reachable builtin_hash0
    (with_tombstone (with_pair empty_101 48 "0" (VInt 0)) 48).
Proof.
  destruct one_key_reachable
    as (c & hf & shf & mode & thr & t0 & Hinit & Hreach).
  exists c, hf, shf, mode, thr, t0. split; [done|].
  eapply rtc_r; [done|].
  by eapply (step_remove builtin_hash0 101 _ "0" true).
Qed.

(** X10. On every table the constructor and the operations lead to, an
    [insert] that returns binds [key] to [value] and leaves every other
    key with the value it had: nothing is lost and nothing else appears,
    whether the call rehashed, reused a tombstone or replaced a value. *)
Theorem insert_is_map_update (hash : string → Z) (fuel : nat) (t t' : table)
    (key : string) (value : pyval) :
  reachable hash t → insert hash fuel t key value = Ret t' →
  inserted t t' key value.
Proof.
  intros Hr%reachable_consistent H.
  by apply (insert_consistent hash _ _ _ _ _ Hr) in H as [_ ?].
Qed.

Lemma insert_is_map_update_witness :
  inserted empty_101 (with_pair empty_101 48 "0" (VInt 0)) "0" (VInt 0).
Proof.
  apply (insert_is_map_update builtin_hash0 101);
    [apply empty_101_reachable|reflexivity].
Defined.

(** X11. On every reachable table, [get] of a key some cell holds returns
    the value of that cell within [capacity] probes, in linear and in
    double mode and whatever tombstones lie on the way. *)
Theorem get_finds_stored_key (hash : string → Z) (fuel : nat) (t : table)
    (key : string) (v : pyval) :
  reachable hash t → holds t key v →
  (Z.to_nat (capacity t) ≤ fuel)%nat →
  get hash fuel t key = Ret v.
Proof.
  intros [[Hwf _] Hreach]%reachable_consistent Hh Hfuel.
  by apply get_holds.
Qed.

Lemma get_finds_stored_key_witness :
  get builtin_hash0 101 (with_pair empty_101 48 "0" (VInt 0)) "0"
  = Ret (VInt 0).
Proof.
  apply (get_finds_stored_key builtin_hash0);
    [apply one_key_reachable|apply one_key_holds|vm_compute; lia].
Defined.

(** X12. On every reachable table, what [get] returns comes from the
    table: either the value some cell holds for the key, or [None] when no
    cell holds the key. *)
Theorem get_answers_from_table (hash : string → Z) (fuel : nat) (t : table)
    (key : string) (v : pyval) :
  reachable hash t → get hash fuel t key = Ret v →
  holds t key v ∨ (v = VNone ∧ ∀ w, ¬ holds t key w).
Proof.
  intros [[Hwf _] Hreach]%reachable_consistent. by apply get_inv.
Qed.

Lemma get_answers_from_table_witness :
  holds (with_pair empty_101 48 "0" (VInt 0)) "a" VNone ∨
  (VNone = VNone ∧ ∀ w, ¬ holds (with_pair empty_101 48 "0" (VInt 0)) "a" w).
Proof.
  apply (get_answers_from_table builtin_hash0 101);
    [apply one_key_reachable|reflexivity].
Defined.

(** X13. On every reachable table no key occupies two cells. *)
Theorem key_in_one_cell (hash : string → Z) (t : table) (i j : Z)
    (s : string) :
  reachable hash t →
  0 ≤ i < capacity t → 0 ≤ j < capacity t →
  py_getitem (_keys t) i = Ret (KStr s) →
  py_getitem (_keys t) j = Ret (KStr s) → i = j.
Proof.
  intros [[Hwf _] Hreach]%reachable_consistent. by apply (reach_unique hash).
Qed.

Lemma key_in_one_cell_witness : 48 = 48.
Proof.
  apply (key_in_one_cell builtin_hash0
           (with_pair empty_101 48 "0" (VInt 0)) 48 48 "0");
    [apply one_key_reachable|done|done|reflexivity|reflexivity].
Defined.

(** X14. On every reachable table, [remove] that returns [True] has
    unbound a key that was bound, left every other key with its value and
    decremented the size; [remove] that returns [False] has left the table
    as it was, and no cell held the key. *)
Theorem remove_is_map_delete (hash : string → Z) (fuel : nat) (t t' : table)
    (key : string) (b : bool) :
  reachable hash t → remove hash fuel t key = Ret (b, t') →
  if b then (∃ v, holds t key v) ∧ removed t t' key ∧ size t' = size t - 1
  else t' = t ∧ ∀ v, ¬ holds t key v.
Proof.
  intros Hr%reachable_consistent H.
  by apply (remove_consistent hash _ _ _ _ _ Hr) in H as [_ ?].
Qed.

Lemma remove_is_map_delete_witness :
  (∃ v, holds (with_pair empty_101 48 "0" (VInt 0)) "0" v) ∧
  removed (with_pair empty_101 48 "0" (VInt 0))
    (with_tombstone (with_pair empty_101 48 "0" (VInt 0)) 48) "0" ∧
  size (with_tombstone (with_pair empty_101 48 "0" (VInt 0)) 48)
  = size (with_pair empty_101 48 "0" (VInt 0)) - 1.
Proof.
  apply (remove_is_map_delete builtin_hash0 101 _ _ "0" true);
    [apply one_key_reachable|reflexivity].
Defined.

(** X15. Removing twice: on every reachable table, after [remove(key)]
    has returned, a second [remove(key)] that returns gives [False] and
    leaves the table as it is. *)
Theorem second_remove_is_noop (hash : string → Z) (fuel fuel' : nat)
    (t t' t'' : table) (key : string) (b b' : bool) :
  reachable hash t → remove hash fuel t key = Ret (b, t') →
  remove hash fuel' t' key = Ret (b', t'') →
  b' = false ∧ t'' = t'.
Proof.
  intros Hr%reachable_consistent H1 H2.
  apply (remove_consistent hash _ _ _ _ _ Hr) in H1 as [Hr' H1].
  apply (remove_consistent hash _ _ _ _ _ Hr') in H2 as [_ H2].
  assert (∀ v, ¬ holds t' key v) as Hno.
  { intros v Hh. destruct b.
    - destruct H1 as (_ & Hrem & _). apply Hrem in Hh as [? _]. done.
    - destruct H1 as [-> Hno]. by eapply Hno. }
  destruct b'.
  - destruct H2 as ((v & Hh) & _). by destruct (Hno v).
  - by destruct H2.
Qed.

Lemma second_remove_is_noop_witness :
  false = false ∧
  with_tombstone (with_pair empty_101 48 "0" (VInt 0)) 48
  = with_tombstone (with_pair empty_101 48 "0" (VInt 0)) 48.
Proof.
  apply (second_remove_is_noop builtin_hash0 101 101
           (with_pair empty_101 48 "0" (VInt 0)) _ _ "0" true false);
    [apply one_key_reachable|reflexivity|reflexivity].
Defined.

(** X16. On every reachable table, after [remove(key)] has returned,
    [contains(key)] that returns gives [False]. *)
Theorem contains_after_remove (hash : string → Z) (fuel fuel' : nat)
    (t t' : table) (key : string) (b c : bool) :
  reachable hash t → remove hash fuel t key = Ret (b, t') →
  contains hash fuel' t' key = Ret c → c = false.
Proof.
  intros Hr%reachable_consistent H1 (v & Hget & [= <-])%bind_Ret.
  apply (remove_consistent hash _ _ _ _ _ Hr) in H1 as [[[Hwf _] Hreach] H1].
  apply get_inv in Hget as [Hh|[-> _]]; [|done..].
  exfalso. destruct b.
  - destruct H1 as (_ & Hrem & _). apply Hrem in Hh as [? _]. done.
  - destruct H1 as [-> Hno]. by eapply Hno.
Qed.

Lemma contains_after_remove_witness : false = false.
Proof.
  apply (contains_after_remove builtin_hash0 101 101
           (with_pair empty_101 48 "0" (VInt 0))
           (with_tombstone (with_pair empty_101 48 "0" (VInt 0)) 48)
           "0" true false);
    [apply one_key_reachable|reflexivity|reflexivity].
Defined.

(** ** Rehashing *)

Lemma insert_all_preserves (P : table → Prop) ins items t t' :
  (∀ t k v t', P t → ins t k v = Ret t' → P t') →
  P t → insert_all ins items t = Ret t' → P t'.
Proof.
  intros Hins. revert t. induction items as [|[k v] items IH]; intros t Hp.
  - by intros [= <-].
  - simpl. intros (t1 & H1 & H2)%bind_Ret. eauto.
Qed.

Lemma insert_loop_no_tombstone seq key v fuel t t' :
  insert_loop fuel seq t key v None 0 = Ret t' →
  KDeleted ∉ _keys t → KDeleted ∉ _keys t'.
Proof.
  intros (i & _ & [(_ & -> & _)|(m & _ & _ & Hks & _)])%insert_loop_outcome_0;
    [done|].
  intros Hno Hin. by destruct (py_setitem_elem_of _ _ _ _ _ Hks Hin).
Qed.

Lemma reallocate_no_tombstone t c : KDeleted ∉ _keys (reallocate t c).
Proof. by intros ?%elem_of_replicate_inv. Qed.

Section Tombstones.
Variable hash : string → Z.

Lemma insert_no_tombstone fuel t key v t' :
  insert hash fuel t key v = Ret t' →
  KDeleted ∉ _keys t → KDeleted ∉ _keys t'.
Proof.
  revert t key v t'. induction fuel as [|fuel IH]; intros t key v t'; [done|].
  rewrite insert_S.
  intros (lf & _ & (t1 & H1 & (seq & _ & Hloop)%bind_Ret)%bind_Ret)%bind_Ret Hno.
  apply insert_loop_no_tombstone in Hloop; [done|].
  destruct (QArith_base.Qle_bool _ _).
  - eapply (insert_all_preserves (fun t => KDeleted ∉ _keys t)); [|  |exact H1].
    + intros ???? Hp Hi. by eapply IH.
    + apply reallocate_no_tombstone.
  - by injection H1 as <-.
Qed.

Lemma rehash_no_tombstone fuel t c t' :
  _rehash hash fuel t c = Ret t' → KDeleted ∉ _keys t'.
Proof.
  intros H.
  eapply (insert_all_preserves (fun t => KDeleted ∉ _keys t)); [| |exact H].
  - intros ???? Hp Hi. by eapply insert_no_tombstone.
  - apply reallocate_no_tombstone.
Qed.

Lemma same_content_size t t' :
  consistent hash t → consistent hash t' → same_content t t' →
  _size t' = _size t.
Proof.
  intros [[Hwf Hsz] Hreach] [[Hwf' Hsz'] Hreach'] Hsame.
  rewrite Hsz, Hsz', <-!old_items_length by done. f_equal.
  apply Permutation_length, NoDup_Permutation.
  - eapply NoDup_fmap_1, (old_items_NoDup hash); done.
  - eapply NoDup_fmap_1, (old_items_NoDup hash); done.
  - intros [k w]. by rewrite !old_items_holds.
Qed.

End Tombstones.

(** X17. On every reachable table, [_rehash] that returns keeps the
    content: the same keys with the same values, the same size; the new
    capacity is at least [max(3, new_capacity)] and no tombstone is
    left. *)
Theorem rehash_keeps_content (hash : string → Z) (fuel : nat) (t t' : table)
    (new_capacity : Z) :
  reachable hash t → _rehash hash fuel t new_capacity = Ret t' →
  same_content t t' ∧ size t' = size t ∧
  Z.max 3 new_capacity ≤ capacity t' ∧ (KDeleted ∉ _keys t').
Proof.
  intros Hr%reachable_consistent H.
  destruct (rehash_consistent hash _ _ _ _ Hr H) as [Hr' Hsame].
  split; [done|]. split; [by eapply same_content_size|]. split.
  - apply insert_all_grows in H as [H _]; [done|].
    intros ????. apply insert_grows.
  - by eapply rehash_no_tombstone.
Qed.

Lemma rehash_keeps_content_witness :
  same_content (with_pair empty_101 48 "0" (VInt 0))
    (with_pair (reallocate empty_101 3) 0 "0" (VInt 0)) ∧
  size (with_pair (reallocate empty_101 3) 0 "0" (VInt 0))
  = size (with_pair empty_101 48 "0" (VInt 0)) ∧
  Z.max 3 3 ≤ capacity (with_pair (reallocate empty_101 3) 0 "0" (VInt 0)) ∧
  (KDeleted ∉ _keys (with_pair (reallocate empty_101 3) 0 "0" (VInt 0))).
Proof.
  apply (rehash_keeps_content builtin_hash0 3);
    [apply one_key_reachable|reflexivity].
Defined.

(** ** When the walks end *)

Section Walks.
Variable hash : string → Z.

Lemma full_cycle_prime t :
  wf t → (∀ s, 1 ≤ s < _capacity t → Z.gcd s (_capacity t) = 1) →
  full_cycle hash t.
Proof.
  intros Hwf Hp. apply full_cycle_coprime; [done|].
  intros key step Hstep%probe_step_range; [|done]. by apply Hp.
Qed.

Lemma walk_stops t key :
  wf t → full_cycle hash t → KNone ∈ _keys t →
  ∃ i, (i < Z.to_nat (_capacity t))%nat ∧
       (finds_at (_keys t) (probe_of hash t key) key i ∨
        misses_at (_keys t) (probe_of hash t key) key i).
Proof.
  intros Hwf Hcyc (idx & Hidx & Hnone)%elem_of_py_getitem.
  pose proof Hwf as (Hcap & Hlk & Hlv).
  destruct (Hcyc key idx) as (i0 & Hi0 & Hp); [lia|].
  destruct (first_stop (_keys t) (probe_of hash t key) key
              (Z.to_nat (_capacity t))) as (i & Hi & Hsk & Hstop).
  - intros i. rewrite Hlk.
    pose proof (proj2 (probe_of_wf hash t key Hwf) i). lia.
  - exists i0. split; [done|]. left. by rewrite Hp.
  - exists i. split; [done|]. destruct Hstop; [by right|by left].
Qed.

Lemma get_returns fuel t key :
  wf t → full_cycle hash t → KNone ∈ _keys t →
  (Z.to_nat (_capacity t) ≤ fuel)%nat →
  ∃ v, get hash fuel t key = Ret v.
Proof.
  intros Hwf Hcyc Hnone Hfuel.
  destruct (walk_stops t key) as (i & Hi & [Hfind|Hmiss]); [done..| |].
  - destruct (py_getitem_total (_values t) (probe_of hash t key i))
      as [v Hv].
    { pose proof Hwf as (? & _ & ->).
      pose proof (proj2 (probe_of_wf hash t key Hwf) i). lia. }
    exists v. unfold get. destruct (probe_of_wf hash t key Hwf) as [-> _].
    cbn [bind]. rewrite (get_loop_finds _ _ _ i) by (done || lia). done.
  - exists VNone. unfold get.
    destruct (probe_of_wf hash t key Hwf) as [-> _]. cbn [bind].
    by rewrite (get_loop_misses _ _ _ i) by (done || lia).
Qed.

Lemma remove_returns fuel t key :
  wf t → full_cycle hash t → KNone ∈ _keys t →
  (Z.to_nat (_capacity t) ≤ fuel)%nat →
  ∃ b t', remove hash fuel t key = Ret (b, t').
Proof.
  intros Hwf Hcyc Hnone Hfuel.
  destruct (walk_stops t key) as (i & Hi & [Hfind|Hmiss]); [done..| |].
  - pose proof Hfind as [_ Hk].
    destruct (py_setitem_total _ _ KDeleted _ Hk) as [ks Hks].
    destruct (py_setitem_total_len (_keys t) (_values t)
                (probe_of hash t key i) VNone (KStr key)) as [vs Hvs];
      [by destruct Hwf as (_ & -> & ->)|done|].
    exists true, (set_slots t ks vs (_size t - 1)). unfold remove.
    destruct (probe_of_wf hash t key Hwf) as [-> _]. cbn [bind].
    rewrite (remove_loop_finds _ _ _ i) by (done || lia).
    by rewrite Hks, Hvs.
  - exists false, t. unfold remove.
    destruct (probe_of_wf hash t key Hwf) as [-> _]. cbn [bind].
    by rewrite (remove_loop_misses _ _ _ i) by (done || lia).
Qed.

Lemma insert_returns fuel t key v lf :
  wf t → full_cycle hash t → KNone ∈ _keys t →
  load_factor t = Ret lf →
  QArith_base.Qle_bool (_load_factor_threshold t) lf = false →
  (Z.to_nat (_capacity t) ≤ fuel)%nat →
  ∃ t', insert hash fuel t key v = Ret t' ∧ loop_frame t t'.
Proof.
  intros Hwf Hcyc Hnone Hlf Hthr Hfuel.
  destruct fuel as [|fuel]; [destruct Hwf; lia|].
  rewrite insert_S, Hlf. cbn [bind]. rewrite Hthr. cbn [bind].
  destruct (probe_of_wf hash t key Hwf) as [-> _]. cbn [bind].
  destruct (walk_stops t key) as (i & Hi & Hstop); [done..|].
  destruct (insert_loop_returns_0 (probe_of hash t key) key v i t (S fuel))
    as [t' Ht'].
  - destruct Hwf as (_ & -> & ->). done.
  - by destruct Hstop as [[? _]|[? _]].
  - destruct Hstop as [[_ ?]|[_ ?]]; [by right|by left].
  - lia.
  - exists t'. split; [done|]. by eapply insert_loop_frame.
Qed.

End Walks.

(** X18. On every reachable table that probes linearly, or whose capacity
    is prime (coprime with every step from 1 to [capacity - 1]), and that
    has a cell that is [None], [get], [contains] and [remove] return
    within [capacity] probes. *)
Theorem lookups_return (hash : string → Z) (fuel : nat) (t : table)
    (key : string) :
  reachable hash t →
  _mode t = "linear"%string ∨
    (∀ s, 1 ≤ s < capacity t → Z.gcd s (capacity t) = 1) →
  KNone ∈ _keys t →
  (Z.to_nat (capacity t) ≤ fuel)%nat →
  (∃ v, get hash fuel t key = Ret v) ∧
  (∃ c, contains hash fuel t key = Ret c) ∧
  (∃ b t', remove hash fuel t key = Ret (b, t')).
Proof.
  intros [[Hwf _] _]%reachable_consistent Hmode Hnone Hfuel.
  assert (full_cycle hash t) as Hcyc.
  { destruct Hmode; [by apply full_cycle_linear|by apply full_cycle_prime]. }
  destruct (get_returns hash fuel t key) as [v Hv]; [done..|].
  split; [by exists v|]. split; [|by apply remove_returns].
  unfold contains. rewrite Hv. cbn [bind]. eauto.
Qed.

Lemma lookups_return_witness :
  (∃ v, get builtin_hash0 101
          (with_tombstone (with_pair empty_101 48 "0" (VInt 0)) 48) "0"
        = Ret v) ∧
  (∃ c, contains builtin_hash0 101
          (with_tombstone (with_pair empty_101 48 "0" (VInt 0)) 48) "0"
        = Ret c) ∧
  (∃ b t', remove builtin_hash0 101
             (with_tombstone (with_pair empty_101 48 "0" (VInt 0)) 48) "0"
           = Ret (b, t')).
Proof.
  apply (lookups_return builtin_hash0);
    [apply one_key_removed_reachable|by left| |vm_compute; lia].
  apply (list_elem_of_lookup_2 _ 0%nat). reflexivity.
Defined.

(** X19. On every reachable table that probes linearly, or whose capacity
    is prime (coprime with every step from 1 to [capacity - 1]), that has
    a cell that is [None] and a load factor below the threshold, [insert]
    returns within [capacity] probes and does not change the capacity. *)
Theorem insert_returns_below_threshold (hash : string → Z) (fuel : nat)
    (t : table) (key : string) (value : pyval) (lf : QArith_base.Q) :
  reachable hash t →
  _mode t = "linear"%string ∨
    (∀ s, 1 ≤ s < capacity t → Z.gcd s (capacity t) = 1) →
  KNone ∈ _keys t →
  load_factor t = Ret lf →
  QArith_base.Qle_bool (_load_factor_threshold t) lf = false →
  (Z.to_nat (capacity t) ≤ fuel)%nat →
  ∃ t', insert hash fuel t key value = Ret t' ∧ capacity t' = capacity t.
Proof.
  intros [[Hwf _] _]%reachable_consistent Hmode Hnone Hlf Hthr Hfuel.
  assert (full_cycle hash t) as Hcyc.
  { destruct Hmode; [by apply full_cycle_linear|by apply full_cycle_prime]. }
  destruct (insert_returns hash fuel t key value lf) as (t' & Ht' & Hframe);
    [done..|].
  exists t'. split; [done|]. by destruct Hframe.
Qed.

Lemma insert_returns_below_threshold_witness :
  ∃ t', insert builtin_hash0 101
          (with_tombstone (with_pair empty_101 48 "0" (VInt 0)) 48)
          "a" (VInt 1) = Ret t' ∧
        capacity t'
        = capacity (with_tombstone (with_pair empty_101 48 "0" (VInt 0)) 48).
Proof.
  apply (insert_returns_below_threshold builtin_hash0 101 _ "a" (VInt 1)
           (QArith_base.Qdiv (QArith_base.inject_Z 0)
                             (QArith_base.inject_Z 101)));
    [apply one_key_removed_reachable|by left| |reflexivity|reflexivity
    |vm_compute; lia].
  apply (list_elem_of_lookup_2 _ 0%nat). reflexivity.
Defined.

(** X20. The table the constructor returns is empty: its capacity is
    [max(3, capacity)], its size 0, and for every key [get] returns
    [None], [contains] returns [False] and [remove] returns [False] and
    changes nothing, all at the first probe. *)
Theorem fresh_table_is_empty (hash : string → Z) (c : Z)
    (hf shf : option (string → Z)) (mode : string) (thr : QArith_base.Q)
    (t : table) (fuel : nat) (key : string) :
  __init__ hash c hf shf mode thr = Ret t →
  capacity t = Z.max 3 c ∧ size t = 0 ∧
  get hash (S fuel) t key = Ret VNone ∧
  contains hash (S fuel) t key = Ret false ∧
  remove hash (S fuel) t key = Ret (false, t).
Proof.
  intros Hinit. pose proof (init_counted _ _ _ _ _ _ _ Hinit) as [Hwf _].
  destruct (init_fields _ _ _ _ _ _ _ Hinit) as (Hcap & Hsz & Hks & _).
  split; [done|]. split; [done|].
  assert (misses_at (_keys t) (probe_of hash t key) key 0) as Hmiss.
  { split; [intros m Hm; lia|].
    pose proof (proj2 (probe_of_wf hash t key Hwf) 0%nat) as Hr.
    apply py_getitem_in_range.
    - destruct Hwf as (_ & -> & _). lia.
    - rewrite Hks. apply lookup_replicate_2. rewrite <-Hcap. lia. }
  assert (get hash (S fuel) t key = Ret VNone) as Hget.
  { unfold get. destruct (probe_of_wf hash t key Hwf) as [-> _]. cbn [bind].
    by rewrite (get_loop_misses _ _ _ 0) by (done || lia). }
  split; [done|]. split.
  - unfold contains. by rewrite Hget.
  - unfold remove. destruct (probe_of_wf hash t key Hwf) as [-> _].
    cbn [bind]. by rewrite (remove_loop_misses _ _ _ 0) by (done || lia).
Qed.

Lemma fresh_table_is_empty_witness :
  capacity empty_101 = Z.max 3 101 ∧ size empty_101 = 0 ∧
  get builtin_hash0 1 empty_101 "a" = Ret VNone ∧
  contains builtin_hash0 1 empty_101 "a" = Ret false ∧
  remove builtin_hash0 1 empty_101 "a" = Ret (false, empty_101).
Proof.
  apply (fresh_table_is_empty builtin_hash0 101 (Some simple_hash) None
           "linear" (QArith_base.Qmake 6 10)).
  reflexivity.
Defined.

(** ** The unit tests of the repository *)

Lemma coprime_7 s : 1 ≤ s < 7 → Z.gcd s 7 = 1.
Proof.
  intros Hs.
  assert (s = 1 ∨ s = 2 ∨ s = 3 ∨ s = 4 ∨ s = 5 ∨ s = 6)
    as [-> | [-> | [-> | [-> | [-> | ->]]]]] by lia; reflexivity.
Qed.

Section Tests.
Variable hash : string → Z.

Lemma full_cycle_7 t : wf t → _capacity t = 7 → full_cycle hash t.
Proof.
  intros Hwf Hcap. apply full_cycle_prime; [done|].
  rewrite Hcap. apply coprime_7.
Qed.

(** The common part of the two tests: the constructor and the two
    inserts. *)
Lemma two_inserts mode fuel :
  mode = "linear"%string ∨ mode = "double"%string → (7 ≤ fuel)%nat →
  ∃ t0 t1 t2,
    __init__ hash 7 None None mode DEFAULT_LOAD_FACTOR_THRESHOLD = Ret t0 ∧
    insert hash fuel t0 "a" (VInt 1) = Ret t1 ∧
    insert hash fuel t1 "b" (VInt 2) = Ret t2 ∧
    good hash t2 ∧ _capacity t2 = 7 ∧ _size t2 = 2 ∧
    holds t2 "a" (VInt 1) ∧ holds t2 "b" (VInt 2).
Proof.
  intros Hmode Hfuel.
  assert (∃ t0, __init__ hash 7 None None mode DEFAULT_LOAD_FACTOR_THRESHOLD
                = Ret t0) as [t0 Hinit].
  { destruct Hmode as [-> | ->]; eexists; reflexivity. }
  destruct (init_fields _ _ _ _ _ _ _ Hinit) as (Hcap0 & Hsz0 & Hks0 & Hthr0).
  change (Z.max 3 7) with 7 in Hcap0, Hks0.
  pose proof (init_counted _ _ _ _ _ _ _ Hinit) as [Hwf0 _].
  assert (good hash t0) as Hg0
    by (eapply init_good; [done|by apply full_cycle_7]).
  assert (∀ k, KStr k ∉ _keys t0) as Habs0.
  { intros k Hin. rewrite Hks0 in Hin.
    by apply elem_of_replicate_inv in Hin. }
  assert (below_threshold t0 7 0 2) as Hbelow.
  { intros s Hs. rewrite Hthr0.
    assert (s = 0 ∨ s = 1) as [-> | ->] by lia; reflexivity. }
  destruct (insert_new_key hash fuel t0 "a" (VInt 1))
    as (t1 & Hi1 & [Hg1 Hc1 Hs1 Hf1 _ Hh1 _ _ Ha1]);
    [done|apply Habs0|lia| |lia|].
  { rewrite Hcap0, Hsz0. eapply below_threshold_sub; [| |exact Hbelow]; lia. }
  destruct (insert_new_key hash fuel t1 "b" (VInt 2))
    as (t2 & Hi2 & [Hg2 Hc2 Hs2 _ _ Hh2 Hho2 _ _]);
    [done|by apply Ha1|lia| |lia|].
  { rewrite Hc1, Hs1, Hcap0, Hsz0.
    eapply below_threshold_funcs; [done|].
    eapply below_threshold_sub; [| |exact Hbelow]; lia. }
  exists t0, t1, t2.
  split; [done|]. split; [done|]. split; [done|]. split; [done|].
  split; [lia|]. split; [lia|]. split; [by apply Hho2|done].
Qed.

Lemma remove_keeps_empty fuel t key b t' :
  wf t → remove hash fuel t key = Ret (b, t') →
  KNone ∈ _keys t → KNone ∈ _keys t'.
Proof.
  intros Hwf (seq & ->%probe_sequence_probe_of & Hloop)%bind_Ret.
  apply remove_loop_inv in Hloop
    as (i & _ & [([_ Hk] & _ & Hks & _ & _)|(_ & _ & ->)]);
    [|done|intros m Hm; lia].
  intros (j & Hj & Hnone)%elem_of_py_getitem.
  apply (py_getitem_elem_of _ j).
  rewrite (py_getitem_setitem_other _ _ _ _ _ Hks); [done|lia|..].
  - pose proof (proj2 (probe_of_wf hash t key Hwf) i).
    destruct Hwf as (_ & -> & _). lia.
  - intros ->. congruence.
Qed.

End Tests.

(** X21. [test_linear_insert_get] passes whatever the built-in [hash]
    of the interpreter is: with enough fuel for 7 probes, the two calls of
    [get] return 1 and 2, [remove] returns [True] and [contains] then
    returns [False]. *)
Theorem test_linear_insert_get_passes (hash : string → Z) (fuel : nat) :
  (7 ≤ fuel)%nat →
  test_linear_insert_get hash fuel = Ret (VInt 1, VInt 2, true, false).
Proof.
  intros Hfuel.
  destruct (two_inserts hash "linear" fuel)
    as (t0 & t1 & t2 & Hinit & Hi1 & Hi2 & Hg & Hcap & Hsz & Ha & Hb);
    [by left|done|].
  unfold test_linear_insert_get.
  rewrite Hinit. cbn [bind]. rewrite Hi1. cbn [bind]. rewrite Hi2. cbn [bind].
  rewrite (get_of_holds hash fuel t2 "a" (VInt 1)) by (done || lia).
  cbn [bind].
  rewrite (get_of_holds hash fuel t2 "b" (VInt 2)) by (done || lia).
  cbn [bind].
  pose proof (good_counted _ _ Hg) as [Hwf Hcount].
  assert (KNone ∈ _keys t2) as Hnone.
  { apply exists_empty; [by apply (good_no_tombstone hash)|].
    destruct Hwf as (_ & -> & _). lia. }
  destruct (remove_returns hash fuel t2 "a") as (b & t3 & Hrem);
    [done|by apply (good_cycle hash)|done|lia|].
  rewrite Hrem. cbn [bind fst snd].
  assert (consistent hash t2) as Hcons
    by (split; [by apply (good_counted hash)|by apply good_reach]).
  destruct (remove_consistent hash _ _ _ _ _ Hcons Hrem)
    as [[[Hwf3 _] Hreach3] Hb3].
  destruct b; [|destruct Hb3 as [_ Hno]; by destruct (Hno _ Ha)].
  destruct Hb3 as (_ & Hremd & _).
  assert (_capacity t3 = 7) as Hcap3.
  { apply bind_Ret in Hrem as (seq & _ & Hloop).
    apply remove_loop_frame in Hloop as [-> _ _ _ _ _]. done. }
  destruct (get_returns hash fuel t3 "a") as [v Hv];
    [done|by apply full_cycle_7| |lia|].
  { by apply (remove_keeps_empty hash fuel t2 "a" true t3). }
  unfold contains. rewrite Hv. cbn [bind].
  apply get_inv in Hv as [Hh|[-> _]]; [|done..].
  apply Hremd in Hh as [? _]. done.
Qed.

Lemma test_linear_insert_get_passes_witness :
  test_linear_insert_get builtin_hash0 7
  = Ret (VInt 1, VInt 2, true, false).
Proof. apply (test_linear_insert_get_passes builtin_hash0 7). lia. Defined.

(** X22. [test_double_insert_get] passes whatever the built-in [hash] of
    the interpreter is: with enough fuel for 7 probes, the two calls of
    [get] return 1 and 2. *)
Theorem test_double_insert_get_passes (hash : string → Z) (fuel : nat) :
  (7 ≤ fuel)%nat →
  test_double_insert_get hash fuel = Ret (VInt 1, VInt 2).
Proof.
  intros Hfuel.
  destruct (two_inserts hash "double" fuel)
    as (t0 & t1 & t2 & Hinit & Hi1 & Hi2 & Hg & Hcap & Hsz & Ha & Hb);
    [by right|done|].
  unfold test_double_insert_get.
  rewrite Hinit. cbn [bind]. rewrite Hi1. cbn [bind]. rewrite Hi2. cbn [bind].
  rewrite (get_of_holds hash fuel t2 "a" (VInt 1)) by (done || lia).
  cbn [bind].
  rewrite (get_of_holds hash fuel t2 "b" (VInt 2)) by (done || lia).
  done.
Qed.

Lemma test_double_insert_get_passes_witness :
  test_double_insert_get builtin_hash0 7 = Ret (VInt 1, VInt 2).
Proof. apply (test_double_insert_get_passes builtin_hash0 7). lia. Defined.

(** ** The probe sequence, the size, and insert followed by remove *)

Section Compose.
Variable hash : string → Z.

Lemma probe_of_first t key :
  wf t → probe_of hash t key 0%nat = _hash_func t key mod _capacity t.
Proof.
  intros Hwf. destruct (probe_of_wf hash t key Hwf) as [Hseq _].
  pose proof Hwf as (Hcap & _).
  unfold _probe_sequence, py_mod in Hseq.
  replace (_capacity t =? 0) with false in Hseq
    by (symmetry; apply Z.eqb_neq; lia).
  cbn [bind] in Hseq.
  destruct (String.eqb _ _).
  - injection Hseq as <-. rewrite Z.add_0_r. apply Z.mod_mod. lia.
  - apply bind_Ret in Hseq as (step & _ & [= <-]).
    rewrite Z.mul_0_l, Z.add_0_r. apply Z.mod_mod. lia.
Qed.

Lemma insert_size fuel t key v t' :
  consistent hash t → insert hash fuel t key v = Ret t' →
  ((∃ w, holds t key w) ∧ _size t' = _size t) ∨
  ((∀ w, ¬ holds t key w) ∧ _size t' = _size t + 1).
Proof.
  intros Hc. destruct fuel as [|fuel]; [done|]. rewrite insert_S.
  intros (lf & _ & (t1 & H1 & (seq & Hseq & Hloop)%bind_Ret)%bind_Ret)%bind_Ret.
  assert (consistent hash t1 ∧ same_content t t1) as [Hc1 Hs1].
  { destruct (QArith_base.Qle_bool _ _).
    - eapply rehash_with_content; [|done|exact H1].
      intros ????. apply insert_consistent.
    - injection H1 as <-. split; [done|apply same_content_refl]. }
  rewrite <-(same_content_size hash t t1) by done.
  apply probe_sequence_probe_of in Hseq as ->.
  destruct Hc1 as [[Hwf1 _] Hreach1].
  apply insert_loop_outcome_0 in Hloop
    as (i & _ & [(Hfind & _ & _ & Hsz)|(m & Hmiss & _ & _ & _ & Hsz)]).
  - left. split; [|done].
    destruct (py_getitem_total (_values t1) (probe_of hash t1 key i))
      as [w Hw].
    { pose proof Hwf1 as (? & _ & ->).
      pose proof (proj2 (probe_of_wf hash t1 key Hwf1) i). lia. }
    exists w. apply Hs1. by eapply finds_holds.
  - right. split; [|done]. intros w Hh%Hs1.
    by eapply (misses_not_holds hash t1).
Qed.

Lemma insert_remove_content fuel t key v t' :
  consistent hash t → insert hash fuel t key v = Ret t' →
  ∃ t'', remove hash fuel t' key = Ret (true, t'') ∧
         removed t t'' key ∧ _size t'' = _size t' - 1.
Proof.
  intros Hc Hins.
  destruct (insert_then_remove hash _ _ _ _ _ Hins) as (t'' & Hrem & Hsz).
  exists t''. split; [done|]. split; [|done].
  apply (insert_consistent hash _ _ _ _ _ Hc) in Hins as [Hc' Hi].
  apply (remove_consistent hash _ _ _ _ _ Hc') in Hrem as (_ & _ & Hr & _).
  intros k w. rewrite (Hr k w), (Hi k w). split.
  - intros [Hne [[? _]|[_ Hh]]]; done.
  - intros [Hne Hh]. split; [done|by right].
Qed.

End Compose.

(** X23. On every reachable table the probe sequence of a key is
    produced without error, starts at [hash_func(key) % capacity], stays
    inside the arrays and repeats itself after [capacity] probes. *)
Theorem probe_sequence_shape (hash : string → Z) (t : table) (key : string)
    (i : nat) :
  reachable hash t →
  ∃ seq, _probe_sequence hash t key = Ret seq ∧
         seq 0%nat = _hash_func t key mod capacity t ∧
         0 ≤ seq i < capacity t ∧
         seq (i + Z.to_nat (capacity t))%nat = seq i.
Proof.
  intros [[Hwf _] _]%reachable_consistent.
  destruct (probe_of_wf hash t key Hwf) as [Hseq Hrange].
  exists (probe_of hash t key). split; [done|].
  split; [by apply probe_of_first|]. split; [apply Hrange|].
  by apply probe_of_periodic.
Qed.

Lemma probe_sequence_shape_witness :
  ∃ seq, _probe_sequence builtin_hash0
           (with_pair empty_101 48 "0" (VInt 0)) "a" = Ret seq ∧
         seq 0%nat
         = _hash_func (with_pair empty_101 48 "0" (VInt 0)) "a"
           mod capacity (with_pair empty_101 48 "0" (VInt 0)) ∧
         0 ≤ seq 5%nat < capacity (with_pair empty_101 48 "0" (VInt 0)) ∧
         seq (5 + Z.to_nat (capacity (with_pair empty_101 48 "0" (VInt 0))))%nat
         = seq 5%nat.
Proof.
  apply (probe_sequence_shape builtin_hash0). apply one_key_reachable.
Defined.

(** X24. On every reachable table, [insert] that returns leaves the size
    as it was when the key was bound, and increments it when the key was
    not bound, also when the call rehashed. *)
Theorem insert_size_effect (hash : string → Z) (fuel : nat) (t t' : table)
    (key : string) (value : pyval) :
  reachable hash t → insert hash fuel t key value = Ret t' →
  ((∃ w, holds t key w) ∧ size t' = size t) ∨
  ((∀ w, ¬ holds t key w) ∧ size t' = size t + 1).
Proof. intros Hr%reachable_consistent. by apply insert_size. Qed.

Lemma insert_size_effect_witness :
  ((∃ w, holds empty_101 "0" w) ∧
   size (with_pair empty_101 48 "0" (VInt 0)) = size empty_101) ∨
  ((∀ w, ¬ holds empty_101 "0" w) ∧
   size (with_pair empty_101 48 "0" (VInt 0)) = size empty_101 + 1).
Proof.
  apply (insert_size_effect builtin_hash0 101 _ _ "0" (VInt 0));
    [apply empty_101_reachable|reflexivity].
Defined.

(** X25. On every reachable table, after [insert(key, value)] has
    returned, [remove(key)] returns [True] with the same fuel; the table
    then holds what it held before the insert, except for [key], and the
    size has gone down by one. *)
Theorem insert_then_remove_unbinds (hash : string → Z) (fuel : nat)
    (t t' : table) (key : string) (value : pyval) :
  reachable hash t → insert hash fuel t key value = Ret t' →
  ∃ t'', remove hash fuel t' key = Ret (true, t'') ∧
         removed t t'' key ∧ size t'' = size t' - 1.
Proof. intros Hr%reachable_consistent. by apply insert_remove_content. Qed.

Lemma insert_then_remove_unbinds_witness :
  ∃ t'', remove builtin_hash0 101 (with_pair empty_101 48 "0" (VInt 0)) "0"
         = Ret (true, t'') ∧
         removed empty_101 t'' "0" ∧
         size t'' = size (with_pair empty_101 48 "0" (VInt 0)) - 1.
Proof.
  apply (insert_then_remove_unbinds builtin_hash0 101 _ _ "0" (VInt 0));
    [apply empty_101_reachable|reflexivity].
Defined.
